(** * Migration orchestration core of supabase-cloner: a shallow embedding

    The development follows the TypeScript classes
      - [InputValidator] and [SecurityManager.validateSQLInput] (the client-side
        security utilities),
      - [ErrorRecoveryEngine] (src/lib/error-recovery.ts),
      - [ErrorMonitoringSystem],
      - [MigrationEngine],
      - [config] (src/lib/config.ts).

    Conventions of the embedding.
      - A JavaScript string is a Rocq [string]; each character stands for the
        UTF-16 code unit of the same number, so the model covers the strings
        whose code units are below 256.
      - A JavaScript number that the code uses as a count, a bound or a time in
        milliseconds is a [Z]; a percentage is a [Q].
      - An ISO timestamp produced by [new Date().toISOString()] and read back by
        [new Date(ts).getTime()] is the [Z] number of milliseconds itself.
      - Identifiers built from [Date.now()] and [Math.random()] are inputs.
      - A JavaScript [Map] whose iteration order is not observed is a [gmap]. *)

From Stdlib Require Import ZArith QArith Qround String Ascii List Bool Lia.
From stdpp Require Import base option list strings gmap pretty.

Local Open Scope string_scope.
Local Open Scope list_scope.
Local Open Scope Z_scope.

(** ** Strings *)

(** [s.includes(sub)] *)
Fixpoint includes (s sub : string) : bool :=
  String.prefix sub s ||
  match s with
  | EmptyString => false
  | String _ rest => includes rest sub
  end.

Definition code (c : ascii) : N := N_of_ascii c.

Definition in_range (lo hi : ascii) (c : ascii) : bool :=
  ((code lo <=? code c) && (code c <=? code hi))%N.

Definition is_digit (c : ascii) : bool := in_range "0" "9" c.
Definition is_lower (c : ascii) : bool := in_range "a" "z" c.
Definition is_upper (c : ascii) : bool := in_range "A" "Z" c.
Definition is_alpha (c : ascii) : bool := is_lower c || is_upper c.

(** The class [\w] of a JavaScript regular expression: [[A-Za-z0-9_]]. *)
Definition is_word (c : ascii) : bool :=
  is_alpha c || is_digit c || Ascii.eqb c "_".

(** [[0-9a-f]] under the [i] flag. *)
Definition is_hex_ci (c : ascii) : bool :=
  is_digit c || in_range "a" "f" c || in_range "A" "F" c.

(** Upper-casing of one code unit as the [i] flag of a regular expression
    sees it when the pattern is an ASCII letter: only [a-z] change. *)
Definition upper_ascii (c : ascii) : ascii :=
  if is_lower c then ascii_of_N (code c - 32) else c.

(** [String.prototype.toLowerCase] on code units below 256: the ASCII capitals
    and the Latin-1 capitals (0xC0-0xDE without 0xD7) move up by 32. *)
Definition lower_char (c : ascii) : ascii :=
  if is_upper c
     || ((192 <=? code c) && (code c <=? 222) && negb (code c =? 215))%N
  then ascii_of_N (code c + 32) else c.

Fixpoint toLowerCase (s : string) : string :=
  match s with
  | EmptyString => EmptyString
  | String c rest => String (lower_char c) (toLowerCase rest)
  end.

Fixpoint string_forallb (p : ascii -> bool) (s : string) : bool :=
  match s with
  | EmptyString => true
  | String c rest => p c && string_forallb p rest
  end.

(** [kw] (written in capitals) matches at the start of [s], letter case
    ignored; the result is what follows the match. *)
Fixpoint strip_prefix_ci (kw s : string) : option string :=
  match kw, s with
  | EmptyString, _ => Some s
  | String k kw', String c s' =>
      if Ascii.eqb k (upper_ascii c) then strip_prefix_ci kw' s' else None
  | String _ _, EmptyString => None
  end.

(** ** lib/config.ts *)

Module config.
Definition maxConcurrentMigrations : nat := 5.
End config.

(** ** lib/security-client.ts *)

Module SecurityManager.

Definition sql_keywords : list string :=
  ["SELECT"; "INSERT"; "UPDATE"; "DELETE"; "DROP"; "CREATE"; "ALTER";
   "EXEC"; "UNION"; "SCRIPT"].

(** A keyword stands at the start of [s] and is followed by a word
    boundary. *)
Definition keyword_here (s : string) : bool :=
  existsb (fun kw =>
    match strip_prefix_ci kw s with
    | Some EmptyString => true
    | Some (String c _) => negb (is_word c)
    | None => false
    end) sql_keywords.

(** [/(\b(SELECT|...|SCRIPT)\b)/gi.test(s)]; [prev_word] tells whether the
    code unit before [s] is a word character. *)
Fixpoint keyword_scan (prev_word : bool) (s : string) : bool :=
  (negb prev_word && keyword_here s) ||
  match s with
  | EmptyString => false
  | String c rest => keyword_scan (is_word c) rest
  end.

(** [/(--|\/\*|\*\/|;)/gi.test(s)] *)
Definition comment_or_semicolon (s : string) : bool :=
  includes s "--" || includes s "/*" || includes s "*/" || includes s ";".

(** [/((\%27)|(\')|(\')|(\%2D)|(\-\-))/gi.test(s)] *)
Definition quote_or_dash (s : string) : bool :=
  includes s "%27" || includes s "'" || includes s "%2D" || includes s "%2d"
  || includes s "--".

Definition validateSQLInput (input : string) : bool :=
  negb (keyword_scan false input || comment_or_semicolon input
        || quote_or_dash input).

End SecurityManager.

Record DataFilter := {
  table : string;
  where_clause : string;
}.

Record MigrationConfiguration := {
  clone_type : string;
  target_region : string;
  target_compute_tier : string;
  parallel_threads : Z;
  batch_size : Z;
  enable_compression : bool;
  data_filters : option (list DataFilter);
  exclude_tables : option (list string);
  include_storage : bool;
  include_edge_functions : bool;
  include_auth_config : bool;
  preserve_user_data : bool;
}.

Record ValidationResult := {
  valid : bool;
  errors : list string;
}.

Module InputValidator.

(** [/^[a-zA-Z0-9-_]{1,50}$/] *)
Definition isValidProjectName (name : string) : bool :=
  (1 <=? String.length name)%nat && (String.length name <=? 50)%nat
  && string_forallb
       (fun c => is_alpha c || is_digit c || Ascii.eqb c "-" || Ascii.eqb c "_")
       name.

Definition uuid_pattern : list (ascii -> bool) :=
  let dash := [fun c => Ascii.eqb c "-"] in
  replicate 8 is_hex_ci ++ dash
  ++ replicate 4 is_hex_ci ++ dash
  ++ [in_range "1" "5"] ++ replicate 3 is_hex_ci ++ dash
  ++ [fun c => existsb (Ascii.eqb c) ["8"; "9"; "a"; "b"; "A"; "B"]%char]
  ++ replicate 3 is_hex_ci ++ dash
  ++ replicate 12 is_hex_ci.

Fixpoint match_classes (ps : list (ascii -> bool)) (s : string) : bool :=
  match ps, s with
  | [], EmptyString => true
  | p :: ps', String c s' => p c && match_classes ps' s'
  | _, _ => false
  end.

(** [/^[0-9a-f]{8}-[0-9a-f]{4}-[1-5][0-9a-f]{3}-[89ab][0-9a-f]{3}-[0-9a-f]{12}$/i] *)
Definition isValidOrganizationId (id : string) : bool :=
  match_classes uuid_pattern id.

(** [/^[a-zA-Z_][a-zA-Z0-9_]{0,62}$/] *)
Definition isValidTableName (name : string) : bool :=
  match name with
  | EmptyString => false
  | String c rest =>
      (is_alpha c || Ascii.eqb c "_")
      && (String.length rest <=? 62)%nat
      && string_forallb is_word rest
  end.

Definition isValidWhereClause (clause : string) : bool :=
  if String.eqb clause EmptyString || (1000 <? String.length clause)%nat then false
  else SecurityManager.validateSQLInput clause.

(** The two checks made on [data_filters[index]]. *)
Definition filter_errors (index : nat) (filter : DataFilter) : list string :=
  (if String.eqb (table filter) EmptyString || negb (isValidTableName (table filter))
   then ["Invalid table name in data_filters[" +:+ pretty index +:+ "]"]
   else [])
  ++
  (if String.eqb (where_clause filter) EmptyString
      || negb (isValidWhereClause (where_clause filter))
   then ["Invalid where_clause in data_filters[" +:+ pretty index +:+ "]"]
   else []).

Definition exclude_errors (index : nat) (name : string) : list string :=
  if negb (isValidTableName name)
  then ["Invalid table name in exclude_tables[" +:+ pretty index +:+ "]"]
  else [].

Definition validateMigrationConfig (config : MigrationConfiguration)
  : ValidationResult :=
  let e1 :=
    if String.eqb (clone_type config) EmptyString
       || negb (existsb (String.eqb (clone_type config))
                  ["full_clone"; "schema_only"; "data_subset"])
    then ["Invalid clone_type"] else [] in
  let e2 :=
    if String.eqb (target_region config) EmptyString
    then ["Invalid target_region"] else [] in
  let e3 :=
    if (parallel_threads config =? 0) || (parallel_threads config <? 1)
       || (20 <? parallel_threads config)
    then ["parallel_threads must be between 1 and 20"] else [] in
  let e4 :=
    if (batch_size config =? 0) || (batch_size config <? 100)
       || (10000 <? batch_size config)
    then ["batch_size must be between 100 and 10000"] else [] in
  let e5 :=
    match data_filters config with
    | Some filters => concat (imap filter_errors filters)
    | None => []
    end in
  let e6 :=
    match exclude_tables config with
    | Some tables => concat (imap exclude_errors tables)
    | None => []
    end in
  let errors := e1 ++ e2 ++ e3 ++ e4 ++ e5 ++ e6 in
  {| valid := (List.length errors =? 0)%nat; errors := errors |}.

End InputValidator.


(** ** types/index.ts

    Of [MigrationError] the fields [details], [stack_trace],
    [resolution_suggestion] and [recovery_successful] are left out: the first
    holds the stack text of the thrown [Error], the others are never
    written. *)

Inductive MigrationPhase :=
  | preparation | schema_migration | data_migration | storage_migration
  | configuration_migration | edge_functions_migration | security_migration
  | realtime_setup | validation | cutover.

#[global] Instance MigrationPhase_eq_dec : EqDecision MigrationPhase.
Proof. solve_decision. Defined.

Definition phase_name (p : MigrationPhase) : string :=
  match p with
  | preparation => "preparation"
  | schema_migration => "schema_migration"
  | data_migration => "data_migration"
  | storage_migration => "storage_migration"
  | configuration_migration => "configuration_migration"
  | edge_functions_migration => "edge_functions_migration"
  | security_migration => "security_migration"
  | realtime_setup => "realtime_setup"
  | validation => "validation"
  | cutover => "cutover"
  end.

Inductive JobStatus := pending | running | completed | failed | cancelled.

#[global] Instance JobStatus_eq_dec : EqDecision JobStatus.
Proof. solve_decision. Defined.

Inductive PhaseStatus :=
  | phase_pending | phase_running | phase_completed | phase_failed
  | phase_skipped.

Inductive Severity := low | medium | high | critical.

#[global] Instance Severity_eq_dec : EqDecision Severity.
Proof. solve_decision. Defined.

Record MigrationError := {
  err_id : string;
  err_timestamp : Z;
  err_phase : MigrationPhase;
  err_severity : Severity;
  error_code : string;
  err_message : string;
  auto_recoverable : bool;
  recovery_attempted : bool;
}.

Record PhaseEntry := {
  pe_name : MigrationPhase;
  pe_status : PhaseStatus;
  pe_percentage : Q;
  pe_started_at : option Z;
  pe_completed_at : option Z;
  pe_details : string;
}.

Record Stats := {
  tables_migrated : Z;
  total_tables : Z;
  rows_migrated : Z;
  total_rows : Z;
  storage_objects_migrated : Z;
  total_storage_objects : Z;
  functions_migrated : Z;
  total_functions : Z;
}.

Record MigrationProgress := {
  overall_percentage : Q;
  current_phase : MigrationPhase;
  phases : list PhaseEntry;
  stats : Stats;
}.

Record MigrationJob := {
  job_id : string;
  source_project_id : string;
  target_project_id : string;
  organization_id : string;
  status : JobStatus;
  job_type : string;
  created_at : Z;
  started_at : option Z;
  completed_at : option Z;
  progress : MigrationProgress;
  configuration : MigrationConfiguration;
  error_log : list MigrationError;
  estimated_duration : Z;
  actual_duration : option Z;
}.

(** ** lib/error-recovery.ts *)

Inductive BackoffStrategy := linear | exponential | fixed.

Inductive RecoveryAction := retry | skip | rollback | manual_intervention.

#[global] Instance RecoveryAction_eq_dec : EqDecision RecoveryAction.
Proof. solve_decision. Defined.

(** The six methods a strategy's [execute] field is bound to. *)
Inductive Executor :=
  | ConnectionRetry | ResourceCleanup | PermissionEscalation
  | DataIntegrityRepair | PartialRollback | GracefulDegradation.

Record RecoveryStrategy := {
  strategy_id : string;
  strategy_name : string;
  strategy_description : string;
  applicableErrors : list string;
  maxRetries : nat;
  backoffStrategy : BackoffStrategy;
  baseDelay : Z;
  maxDelay : Z;
  execute : Executor;
}.

Record RecoveryAttempt := {
  attempt_id : string;
  attempt_timestamp : Z;
  attempt_strategy : string;
  attempt_success : bool;
  attempt_error : option string;
  attempt_duration : Z;
}.

(** [job] is a reference to the job object: the job's id stands for it. *)
Record RecoveryContext := {
  ctx_job : string;
  ctx_phase : MigrationPhase;
  attemptNumber : nat;
  previousAttempts : list RecoveryAttempt;
  errorHistory : list MigrationError;
}.

Record RecoveryResult := {
  success : bool;
  action : RecoveryAction;
  message : string;
  delayBeforeRetry : option Z;
  result_rollbackToPhase : option MigrationPhase;
  requiresManualIntervention : option bool;
}.

(** The [state] argument the orchestrator passes to [createCheckpoint]. *)
Record PhaseState := {
  state_phase : MigrationPhase;
  state_timestamp : Z;
}.

(** [progress] is the shallow copy [{ ...progress }]: the scalar fields are
    captured, the [phases] array stays the one array of the job. *)
Record Checkpoint := {
  cp_id : string;
  cp_jobId : string;
  cp_phase : MigrationPhase;
  cp_timestamp : Z;
  cp_progress : MigrationProgress;
  cp_state : PhaseState;
  canRollback : bool;
  rollbackInstructions : list string;
}.

(** Events the engine emits, in the order of emission. *)
Inductive RecoveryEvent :=
  | recovery_started (jobId code : string) (phase : MigrationPhase)
  | recovery_attempt (jobId strategy : string) (ok : bool)
  | recovery_success (jobId strategy : string)
  | recovery_failed (jobId strategy : string)
  | checkpoint_created (jobId checkpointId : string)
  | rollback_started (jobId checkpointId : string)
  | rollback_completed (jobId checkpointId : string)
  | rollback_failed (jobId checkpointId : string).

(** The engine's mutable fields. [recoveryStrategies] is filled by the
    constructor and never written again: it is the constant
    [recoveryStrategies] below. *)
Record ErrorRecoveryEngine := {
  checkpoints : gmap string (list Checkpoint);
  activeRecoveries : gmap string RecoveryContext;
  recovery_events : list RecoveryEvent;
}.

(** What one call of [handleError] draws from outside: the outcome of
    [Math.random() > 0.3], whether the external operation behind a rollback
    instruction resolves (in the source it is a timer that always does),
    and the id, time and duration of the attempt made with a strategy. *)
Record RecoveryOracle := {
  repair_succeeds : bool;
  instruction_resolves : string -> bool;
  oracle_attempt_id : string -> string;
  oracle_attempt_time : string -> Z;
  oracle_attempt_duration : string -> Z;
}.

Module Recovery.

Definition new_engine : ErrorRecoveryEngine :=
  {| checkpoints := ∅; activeRecoveries := ∅; recovery_events := [] |}.

Definition emit (ev : RecoveryEvent) (eng : ErrorRecoveryEngine)
  : ErrorRecoveryEngine :=
  {| checkpoints := checkpoints eng;
     activeRecoveries := activeRecoveries eng;
     recovery_events := recovery_events eng ++ [ev] |}.

Definition set_checkpoints (jobId : string) (l : list Checkpoint)
    (eng : ErrorRecoveryEngine) : ErrorRecoveryEngine :=
  {| checkpoints := <[jobId := l]> (checkpoints eng);
     activeRecoveries := activeRecoveries eng;
     recovery_events := recovery_events eng |}.

Definition set_recovery (jobId : string) (c : RecoveryContext)
    (eng : ErrorRecoveryEngine) : ErrorRecoveryEngine :=
  {| checkpoints := checkpoints eng;
     activeRecoveries := <[jobId := c]> (activeRecoveries eng);
     recovery_events := recovery_events eng |}.

Definition delete_recovery (jobId : string) (eng : ErrorRecoveryEngine)
  : ErrorRecoveryEngine :=
  {| checkpoints := checkpoints eng;
     activeRecoveries := delete jobId (activeRecoveries eng);
     recovery_events := recovery_events eng |}.

(** The array of [initializeDefaultStrategies], in insertion order. *)
Definition recoveryStrategies : list RecoveryStrategy :=
  [ {| strategy_id := "connection-retry";
       strategy_name := "Connection Retry";
       strategy_description :=
         "Retry operations that failed due to connection issues";
       applicableErrors :=
         ["CONNECTION_TIMEOUT"; "CONNECTION_REFUSED"; "NETWORK_ERROR"];
       maxRetries := 5; backoffStrategy := exponential;
       baseDelay := 1000; maxDelay := 30000;
       execute := ConnectionRetry |};
    {| strategy_id := "resource-cleanup";
       strategy_name := "Resource Cleanup";
       strategy_description :=
         "Clean up resources and retry when resource conflicts occur";
       applicableErrors :=
         ["RESOURCE_CONFLICT"; "RESOURCE_LOCKED"; "RESOURCE_EXISTS"];
       maxRetries := 3; backoffStrategy := linear;
       baseDelay := 2000; maxDelay := 10000;
       execute := ResourceCleanup |};
    {| strategy_id := "permission-escalation";
       strategy_name := "Permission Escalation";
       strategy_description := "Attempt to resolve permission issues";
       applicableErrors :=
         ["PERMISSION_DENIED"; "INSUFFICIENT_PRIVILEGES"; "AUTH_FAILED"];
       maxRetries := 2; backoffStrategy := fixed;
       baseDelay := 5000; maxDelay := 5000;
       execute := PermissionEscalation |};
    {| strategy_id := "data-integrity-repair";
       strategy_name := "Data Integrity Repair";
       strategy_description := "Repair data integrity issues and continue";
       applicableErrors :=
         ["DATA_CORRUPTION"; "CONSTRAINT_VIOLATION"; "FOREIGN_KEY_ERROR"];
       maxRetries := 2; backoffStrategy := fixed;
       baseDelay := 3000; maxDelay := 3000;
       execute := DataIntegrityRepair |};
    {| strategy_id := "partial-rollback";
       strategy_name := "Partial Rollback";
       strategy_description := "Rollback to previous checkpoint and retry";
       applicableErrors :=
         ["CRITICAL_ERROR"; "SYSTEM_ERROR"; "UNEXPECTED_ERROR"];
       maxRetries := 1; backoffStrategy := fixed;
       baseDelay := 0; maxDelay := 0;
       execute := PartialRollback |};
    {| strategy_id := "graceful-degradation";
       strategy_name := "Graceful Degradation";
       strategy_description := "Skip non-critical components and continue";
       applicableErrors :=
         ["OPTIONAL_COMPONENT_ERROR"; "FEATURE_NOT_SUPPORTED"];
       maxRetries := 0; backoffStrategy := fixed;
       baseDelay := 0; maxDelay := 0;
       execute := GracefulDegradation |} ].

(** [this.recoveryStrategies.get(id)] *)
Definition get_strategy (id : string) : option RecoveryStrategy :=
  List.find (fun s => String.eqb (strategy_id s) id) recoveryStrategies.

Definition priority : list string :=
  ["connection-retry"; "resource-cleanup"; "data-integrity-repair";
   "permission-escalation"; "graceful-degradation"; "partial-rollback"].

(** [priority.indexOf(id)] *)
Fixpoint indexOf (l : list string) (id : string) : Z :=
  match l with
  | [] => -1
  | x :: l' =>
      if String.eqb x id then 0
      else let r := indexOf l' id in if r <? 0 then -1 else r + 1
  end.

(** [Array.prototype.sort] with the comparator
    [priority.indexOf(a.id) - priority.indexOf(b.id)]: a stable sort. *)
Fixpoint insert_by_priority (s : RecoveryStrategy)
    (l : list RecoveryStrategy) : list RecoveryStrategy :=
  match l with
  | [] => [s]
  | x :: l' =>
      if indexOf priority (strategy_id x) - indexOf priority (strategy_id s) <=? 0
      then x :: insert_by_priority s l'
      else s :: x :: l'
  end.

Definition sort_by_priority (l : list RecoveryStrategy)
  : list RecoveryStrategy :=
  fold_left (fun acc s => insert_by_priority s acc) l [].

Definition findApplicableStrategies (error : MigrationError)
  : list RecoveryStrategy :=
  sort_by_priority
    (List.filter
       (fun s => existsb (String.eqb (error_code error)) (applicableErrors s))
       recoveryStrategies).

(** The engine calls this with the connection-retry strategy only, and with
    an [attemptNumber] from 1 to that strategy's [maxRetries]. The numbers of
    the code are doubles: they are the integers below wherever every number
    computed is an integer that a double holds exactly ([exact_backoff]),
    as it is at the calls of the engine ([handleError_delays_are_exact]);
    outside of that the doubles round, overflow or are no number, and the
    integers below are not their values. *)
Definition calculateBackoffDelay (strategy : RecoveryStrategy)
    (attemptNumber : nat) : Z :=
  match backoffStrategy strategy with
  | linear =>
      Z.min (baseDelay strategy * Z.of_nat attemptNumber) (maxDelay strategy)
  | exponential =>
      Z.min (baseDelay strategy * 2 ^ (Z.of_nat attemptNumber - 1))
            (maxDelay strategy)
  | fixed => baseDelay strategy
  end.

Definition canRollbackFromPhase (phase : MigrationPhase) : bool :=
  negb (bool_decide (phase ∈ [cutover; validation])).

Definition generateRollbackInstructions (phase : MigrationPhase)
    (state : PhaseState) : list string :=
  match phase with
  | preparation => ["Delete created target project"]
  | schema_migration =>
      ["Drop created tables and schemas"; "Remove database extensions"]
  | data_migration => ["Truncate migrated tables"; "Reset sequences"]
  | storage_migration =>
      ["Delete created storage buckets"; "Remove uploaded objects"]
  | edge_functions_migration => ["Delete deployed functions"]
  | security_migration => ["Remove RLS policies"; "Drop custom roles"]
  | realtime_setup => ["Remove realtime publications"]
  | _ => []
  end.

(** [this.checkpoints.get(jobId) || []] *)
Definition getJobCheckpoints (eng : ErrorRecoveryEngine) (jobId : string)
  : list Checkpoint :=
  default [] (checkpoints eng !! jobId).

Definition getActiveRecovery (eng : ErrorRecoveryEngine) (jobId : string)
  : option RecoveryContext :=
  activeRecoveries eng !! jobId.

Definition cleanupJob (eng : ErrorRecoveryEngine) (jobId : string)
  : ErrorRecoveryEngine :=
  {| checkpoints := delete jobId (checkpoints eng);
     activeRecoveries := delete jobId (activeRecoveries eng);
     recovery_events := recovery_events eng |}.

(** [createCheckpoint]; [checkpointId] and [now] are the values of the
    template string and of [new Date()]. The result is the id. *)
Definition new_checkpoint (jobId : string) (phase : MigrationPhase)
    (progress : MigrationProgress) (state : PhaseState)
    (checkpointId : string) (now : Z) : Checkpoint :=
  {| cp_id := checkpointId; cp_jobId := jobId; cp_phase := phase;
     cp_timestamp := now; cp_progress := progress; cp_state := state;
     canRollback := canRollbackFromPhase phase;
     rollbackInstructions := generateRollbackInstructions phase state |}.

Definition createCheckpoint (eng : ErrorRecoveryEngine) (jobId : string)
    (phase : MigrationPhase) (progress : MigrationProgress)
    (state : PhaseState) (checkpointId : string) (now : Z)
  : string * ErrorRecoveryEngine :=
  let checkpoint :=
    new_checkpoint jobId phase progress state checkpointId now in
  let pushed := getJobCheckpoints eng jobId ++ [checkpoint] in
  let kept :=
    if (10 <? List.length pushed)%nat
    then drop (List.length pushed - 10) pushed
    else pushed in
  (checkpointId,
   emit (checkpoint_created jobId checkpointId)
     (set_checkpoints jobId kept eng)).

(** The predicate [cp => cp.id === checkpointId] *)
Definition has_id (checkpointId : string) (cp : Checkpoint) : bool :=
  String.eqb (cp_id cp) checkpointId.

(** [checkpoints.findIndex(cp => cp.id === checkpointId)] *)
Fixpoint findIndex (l : list Checkpoint) (checkpointId : string)
  : option nat :=
  match l with
  | [] => None
  | cp :: l' =>
      if has_id checkpointId cp then Some 0%nat
      else S <$> findIndex l' checkpointId
  end.

(** The loop over the rollback instructions: the waits made, and whether
    every instruction resolved. An instruction that rejects ends the loop. *)
Fixpoint run_instructions (resolves : string -> bool)
    (instructions : list string) : list Z * bool :=
  match instructions with
  | [] => ([], true)
  | i :: rest =>
      if resolves i
      then let '(w, ok) := run_instructions resolves rest in (500 :: w, ok)
      else ([500], false)
  end.

(** [rollbackToCheckpoint]: the boolean result, the timers awaited, and the
    engine afterwards. *)
Definition rollbackToCheckpoint (resolves : string -> bool)
    (eng : ErrorRecoveryEngine) (jobId checkpointId : string)
  : bool * list Z * ErrorRecoveryEngine :=
  match checkpoints eng !! jobId with
  | None => (false, [], eng)
  | Some cps =>
      match List.find (has_id checkpointId) cps with
      | None => (false, [], eng)
      | Some checkpoint =>
          if negb (canRollback checkpoint) then (false, [], eng)
          else
            let eng1 := emit (rollback_started jobId checkpointId) eng in
            let '(waits, ok) :=
              run_instructions resolves (rollbackInstructions checkpoint) in
            if ok then
              let eng2 :=
                match findIndex cps checkpointId with
                | Some rollbackIndex =>
                    set_checkpoints jobId (take (rollbackIndex + 1) cps) eng1
                | None => eng1
                end in
              (true, waits, emit (rollback_completed jobId checkpointId) eng2)
            else
              (false, waits, emit (rollback_failed jobId checkpointId) eng1)
      end
  end.

(** *** Strategy executors: result, timers awaited, engine afterwards *)

Definition executeConnectionRetry (error : MigrationError)
    (context : RecoveryContext) : RecoveryResult :=
  let delay :=
    match get_strategy "connection-retry" with
    | Some strategy => calculateBackoffDelay strategy (attemptNumber context)
    | None => 0
    end in
  {| success := true; action := retry;
     message := "Retrying after connection error";
     delayBeforeRetry := Some delay; result_rollbackToPhase := None;
     requiresManualIntervention := None |}.

Definition executeResourceCleanup (error : MigrationError)
    (context : RecoveryContext) : RecoveryResult :=
  {| success := true; action := retry;
     message := "Resources cleaned up, retrying operation";
     delayBeforeRetry := Some 2000; result_rollbackToPhase := None;
     requiresManualIntervention := None |}.

Definition executePermissionEscalation (error : MigrationError)
    (context : RecoveryContext) : RecoveryResult :=
  {| success := false; action := manual_intervention;
     message := "Permission issue requires manual intervention";
     delayBeforeRetry := None; result_rollbackToPhase := None;
     requiresManualIntervention := Some true |}.

Definition executeDataIntegrityRepair (o : RecoveryOracle)
    (error : MigrationError) (context : RecoveryContext) : RecoveryResult :=
  {| success := repair_succeeds o; action := retry;
     message := "Attempted data integrity repair";
     delayBeforeRetry := None; result_rollbackToPhase := None;
     requiresManualIntervention := None |}.

Definition executePartialRollback (o : RecoveryOracle)
    (error : MigrationError) (context : RecoveryContext)
    (eng : ErrorRecoveryEngine)
  : RecoveryResult * list Z * ErrorRecoveryEngine :=
  match checkpoints eng !! ctx_job context with
  | Some (c :: cs) =>
      let lastCheckpoint := List.last cs c in
      let '(rollbackSuccess, waits, eng') :=
        rollbackToCheckpoint (instruction_resolves o) eng
          (ctx_job context) (cp_id lastCheckpoint) in
      ({| success := rollbackSuccess;
          action := if rollbackSuccess then retry else manual_intervention;
          message :=
            if rollbackSuccess
            then "Rolled back to " +:+ phase_name (cp_phase lastCheckpoint)
                 +:+ " phase"
            else "Rollback failed";
          delayBeforeRetry := None;
          result_rollbackToPhase :=
            if rollbackSuccess then Some (cp_phase lastCheckpoint) else None;
          requiresManualIntervention := Some (negb rollbackSuccess) |},
       waits, eng')
  | _ =>
      ({| success := false; action := manual_intervention;
          message := "No checkpoints available for rollback";
          delayBeforeRetry := None; result_rollbackToPhase := None;
          requiresManualIntervention := Some true |},
       [], eng)
  end.

Definition executeGracefulDegradation (error : MigrationError)
    (context : RecoveryContext) : RecoveryResult :=
  {| success := true; action := skip;
     message := "Skipping optional component due to error";
     delayBeforeRetry := None; result_rollbackToPhase := None;
     requiresManualIntervention := None |}.

(** [strategy.execute(error, context)] *)
Definition run_executor (x : Executor) (o : RecoveryOracle)
    (error : MigrationError) (context : RecoveryContext)
    (eng : ErrorRecoveryEngine)
  : RecoveryResult * list Z * ErrorRecoveryEngine :=
  match x with
  | ConnectionRetry => (executeConnectionRetry error context, [], eng)
  | ResourceCleanup => (executeResourceCleanup error context, [1000], eng)
  | PermissionEscalation =>
      (executePermissionEscalation error context, [], eng)
  | DataIntegrityRepair =>
      (executeDataIntegrityRepair o error context, [2000], eng)
  | PartialRollback => executePartialRollback o error context eng
  | GracefulDegradation =>
      (executeGracefulDegradation error context, [], eng)
  end.

Definition no_strategy_result : RecoveryResult :=
  {| success := false; action := manual_intervention;
     message := "No recovery strategy available for this error";
     delayBeforeRetry := None; result_rollbackToPhase := None;
     requiresManualIntervention := Some true |}.

Definition all_failed_result : RecoveryResult :=
  {| success := false; action := manual_intervention;
     message := "All recovery strategies failed";
     delayBeforeRetry := None; result_rollbackToPhase := None;
     requiresManualIntervention := Some true |}.

Definition push_attempt (attempt : RecoveryAttempt) (c : RecoveryContext)
  : RecoveryContext :=
  {| ctx_job := ctx_job c; ctx_phase := ctx_phase c;
     attemptNumber := attemptNumber c;
     previousAttempts := previousAttempts c ++ [attempt];
     errorHistory := errorHistory c |}.

(** The loop [for (const strategy of applicableStrategies)] of
    [handleError]. [context] is the object stored under the job's id: a
    write to it is a write to the stored entry. No executor throws, so the
    [catch] of the loop body is never entered. *)
Fixpoint try_strategies (o : RecoveryOracle) (jobId : string)
    (error : MigrationError) (context : RecoveryContext)
    (strategies : list RecoveryStrategy) (waits : list Z)
    (eng : ErrorRecoveryEngine)
  : RecoveryResult * list Z * ErrorRecoveryEngine :=
  match strategies with
  | [] => (all_failed_result, waits, delete_recovery jobId eng)
  | strategy :: rest =>
      if (maxRetries strategy <? attemptNumber context)%nat
      then try_strategies o jobId error context rest waits eng
      else
        let '(result, w, eng1) :=
          run_executor (execute strategy) o error context eng in
        let sid := strategy_id strategy in
        let attempt :=
          {| attempt_id := oracle_attempt_id o sid;
             attempt_timestamp := oracle_attempt_time o sid;
             attempt_strategy := sid;
             attempt_success := success result;
             attempt_error :=
               if success result then None else Some (message result);
             attempt_duration := oracle_attempt_duration o sid |} in
        let context' := push_attempt attempt context in
        let eng2 :=
          emit (recovery_attempt jobId sid (success result))
            (set_recovery jobId context' eng1) in
        if success result then
          (result, waits ++ w,
           emit (recovery_success jobId sid) (delete_recovery jobId eng2))
        else if negb (bool_decide (action result = retry)) then
          (result, waits ++ w, emit (recovery_failed jobId sid) eng2)
        else try_strategies o jobId error context' rest (waits ++ w) eng2
  end.

(** [handleError(job, error, phase)]: the decision, the timers awaited
    inside the strategies, and the engine afterwards. *)
Definition handleError (o : RecoveryOracle) (eng : ErrorRecoveryEngine)
    (jobId : string) (error : MigrationError) (phase : MigrationPhase)
  : RecoveryResult * list Z * ErrorRecoveryEngine :=
  let eng0 := emit (recovery_started jobId (error_code error) phase) eng in
  let applicableStrategies := findApplicableStrategies error in
  if (List.length applicableStrategies =? 0)%nat
  then (no_strategy_result, [], eng0)
  else
    let context :=
      match activeRecoveries eng0 !! jobId with
      | None =>
          {| ctx_job := jobId; ctx_phase := phase; attemptNumber := 1;
             previousAttempts := []; errorHistory := [error] |}
      | Some c =>
          {| ctx_job := ctx_job c; ctx_phase := ctx_phase c;
             attemptNumber := S (attemptNumber c);
             previousAttempts := previousAttempts c;
             errorHistory := errorHistory c ++ [error] |}
      end in
    try_strategies o jobId error context applicableStrategies []
      (set_recovery jobId context eng0).

(** *** The public calls of the engine, for statements about every state
    the engine can reach *)

Inductive EngineCall :=
  | call_createCheckpoint (jobId : string) (phase : MigrationPhase)
      (progress : MigrationProgress) (state : PhaseState)
      (checkpointId : string) (now : Z)
  | call_rollbackToCheckpoint (resolves : string -> bool)
      (jobId checkpointId : string)
  | call_handleError (o : RecoveryOracle) (jobId : string)
      (error : MigrationError) (phase : MigrationPhase)
  | call_cleanupJob (jobId : string).

Definition engine_step (eng : ErrorRecoveryEngine) (c : EngineCall)
  : ErrorRecoveryEngine :=
  match c with
  | call_createCheckpoint jobId phase progress state checkpointId now =>
      (createCheckpoint eng jobId phase progress state checkpointId now).2
  | call_rollbackToCheckpoint resolves jobId checkpointId =>
      (rollbackToCheckpoint resolves eng jobId checkpointId).2
  | call_handleError o jobId error phase =>
      (handleError o eng jobId error phase).2
  | call_cleanupJob jobId => cleanupJob eng jobId
  end.

(** The engine after a sequence of calls on a new engine. *)
Definition engine_run (calls : list EngineCall) : ErrorRecoveryEngine :=
  fold_left engine_step calls new_engine.

(** What a [createCheckpoint] call is given, and the checkpoint it makes. *)
Record CheckpointRequest := {
  req_phase : MigrationPhase;
  req_progress : MigrationProgress;
  req_state : PhaseState;
  req_id : string;
  req_now : Z;
}.


Definition create_all (eng : ErrorRecoveryEngine) (jobId : string)
    (rs : list CheckpointRequest) : ErrorRecoveryEngine :=
  fold_left
    (fun e r =>
       (createCheckpoint e jobId (req_phase r) (req_progress r)
          (req_state r) (req_id r) (req_now r)).2)
    rs eng.

End Recovery.

(** A fault that carries the given error code. *)
Definition fault (c : string) (e : MigrationError) : MigrationError :=
  {| err_id := err_id e; err_timestamp := err_timestamp e;
     err_phase := err_phase e; err_severity := err_severity e;
     error_code := c; err_message := err_message e;
     auto_recoverable := auto_recoverable e;
     recovery_attempted := recovery_attempted e |}.

(** ** lib/error-monitoring.ts *)

Record ErrorPattern := {
  pattern_id : string;
  pattern : string;
  pattern_description : string;
  frequency : nat;
  lastOccurrence : Z;
  suggestedActions : list string;
  pattern_severity : Severity;
}.

Inductive AlertType :=
  | threshold_exceeded | pattern_detected | critical_error | system_health.

#[global] Instance AlertType_eq_dec : EqDecision AlertType.
Proof. solve_decision. Defined.

Record ErrorAlert := {
  alert_id : string;
  alert_type : AlertType;
  alert_severity : Severity;
  alert_title : string;
  alert_message : string;
  alert_timestamp : Z;
  alert_jobId : option string;
  alert_errorId : option string;
  acknowledged : bool;
  resolvedAt : option Z;
  alert_metadata : list (string * string);
}.

(** What [createAlert] receives: an alert without id, timestamp and
    acknowledgement. *)
Record AlertData := {
  data_type : AlertType;
  data_severity : Severity;
  data_title : string;
  data_message : string;
  data_jobId : option string;
  data_errorId : option string;
  data_metadata : list (string * string);
}.

Inductive MonitorEvent :=
  | alert_created (alert : ErrorAlert)
  | error_recorded (errorId jobId : string).

(** The histograms of [getErrorMetrics]; a key that is absent from the
    JavaScript object counts 0 here. The rate, the mean time to recovery and
    the success rate are floating-point figures that [recordError] never
    reads, and are left out. *)
Record ErrorMetrics := {
  totalErrors : nat;
  errorsByPhase : MigrationPhase -> nat;
  errorsByCode : string -> nat;
  errorsBySeverity : Severity -> nat;
}.

(** The maps of the monitoring system that [recordError] reads or writes. *)
Record ErrorMonitoringSystem := {
  monitor_errors : gmap string MigrationError;
  errorPatterns : gmap string ErrorPattern;
  alerts : gmap string ErrorAlert;
  monitor_events : list MonitorEvent;
}.

(** The clock and the alert ids one call of [recordError] draws. *)
Record MonitorOracle := {
  oracle_now : Z;
  oracle_alert_id : AlertType -> string;
}.

Module Monitoring.

Definition criticalErrorThreshold : nat := 3.

Definition dquote : string := String "034"%char EmptyString.

Definition new_monitor : ErrorMonitoringSystem :=
  {| monitor_errors := ∅; errorPatterns := ∅; alerts := ∅;
     monitor_events := [] |}.

Definition createAlert (o : MonitorOracle) (alertData : AlertData)
    (mon : ErrorMonitoringSystem) : ErrorMonitoringSystem :=
  let alert :=
    {| alert_id := oracle_alert_id o (data_type alertData);
       alert_type := data_type alertData;
       alert_severity := data_severity alertData;
       alert_title := data_title alertData;
       alert_message := data_message alertData;
       alert_timestamp := oracle_now o;
       alert_jobId := data_jobId alertData;
       alert_errorId := data_errorId alertData;
       acknowledged := false;
       resolvedAt := None;
       alert_metadata := data_metadata alertData |} in
  {| monitor_errors := monitor_errors mon;
     errorPatterns := errorPatterns mon;
     alerts := <[alert_id alert := alert]> (alerts mon);
     monitor_events := monitor_events mon ++ [alert_created alert] |}.

Definition generatePatternDescription (error : MigrationError) : string :=
  "Recurring " +:+ error_code error +:+ " errors during "
  +:+ phase_name (err_phase error) +:+ " phase".

Definition generateSuggestedActions (error : MigrationError)
  : list string :=
  if String.eqb (error_code error) "CONNECTION_TIMEOUT" then
    ["Check network stability"; "Increase connection timeout values";
     "Verify database server capacity"]
  else if String.eqb (error_code error) "PERMISSION_DENIED" then
    ["Verify user permissions"; "Check API key validity";
     "Review security policies"]
  else if String.eqb (error_code error) "RESOURCE_CONFLICT" then
    ["Ensure unique resource names"; "Check for concurrent operations"]
  else
    ["Review error logs for details"; "Contact support if issue persists"].

Definition patternKey (error : MigrationError) : string :=
  error_code error +:+ "_" +:+ phase_name (err_phase error).

Definition set_pattern (key : string) (p : ErrorPattern)
    (mon : ErrorMonitoringSystem) : ErrorMonitoringSystem :=
  {| monitor_errors := monitor_errors mon;
     errorPatterns := <[key := p]> (errorPatterns mon);
     alerts := alerts mon;
     monitor_events := monitor_events mon |}.

Definition updateErrorPatterns (o : MonitorOracle) (error : MigrationError)
    (mon : ErrorMonitoringSystem) : ErrorMonitoringSystem :=
  let key := patternKey error in
  let found :=
    match errorPatterns mon !! key with
    | Some p => p
    | None =>
        {| pattern_id := key;
           pattern := error_code error +:+ " in "
                      +:+ phase_name (err_phase error) +:+ " phase";
           pattern_description := generatePatternDescription error;
           frequency := 0;
           lastOccurrence := err_timestamp error;
           suggestedActions := generateSuggestedActions error;
           pattern_severity := err_severity error |}
    end in
  let updated :=
    {| pattern_id := pattern_id found;
       pattern := pattern found;
       pattern_description := pattern_description found;
       frequency := S (frequency found);
       lastOccurrence := err_timestamp error;
       suggestedActions := suggestedActions found;
       pattern_severity := pattern_severity found |} in
  let mon1 := set_pattern key updated mon in
  if (5 <=? frequency updated)%nat
     && bool_decide (pattern_severity updated = high)
  then
    createAlert o
      {| data_type := pattern_detected;
         data_severity := high;
         data_title := "Error Pattern Detected: " +:+ pattern updated;
         data_message :=
           "Pattern " +:+ dquote +:+ pattern updated +:+ dquote
           +:+ " has occurred " +:+ pretty (frequency updated) +:+ " times";
         data_jobId := None;
         data_errorId := None;
         data_metadata :=
           [("patternId", pattern_id updated);
            ("frequency", pretty (frequency updated))] |}
      mon1
  else mon1.

(** The errors of the last [timeWindow] milliseconds. *)
Definition recentErrors (mon : ErrorMonitoringSystem) (timeWindow now : Z)
  : list MigrationError :=
  List.filter (fun e => now - timeWindow <? err_timestamp e)
    (map_to_list (monitor_errors mon)).*2.

Definition count_where (p : MigrationError -> bool)
    (l : list MigrationError) : nat :=
  List.length (List.filter p l).

Definition getErrorMetrics (mon : ErrorMonitoringSystem)
    (timeWindow now : Z) : ErrorMetrics :=
  let recent := recentErrors mon timeWindow now in
  {| totalErrors := List.length recent;
     errorsByPhase := fun ph =>
       count_where (fun e => bool_decide (err_phase e = ph)) recent;
     errorsByCode := fun c =>
       count_where (fun e => String.eqb (error_code e) c) recent;
     errorsBySeverity := fun s =>
       count_where (fun e => bool_decide (err_severity e = s)) recent |}.

Definition checkForAlerts (o : MonitorOracle) (error : MigrationError)
    (jobId : string) (mon : ErrorMonitoringSystem)
  : ErrorMonitoringSystem :=
  let mon1 :=
    if bool_decide (err_severity error = critical) then
      createAlert o
        {| data_type := critical_error;
           data_severity := critical;
           data_title := "Critical Migration Error";
           data_message :=
             "Critical error in job " +:+ jobId +:+ ": "
             +:+ err_message error;
           data_jobId := Some jobId;
           data_errorId := Some (err_id error);
           data_metadata := [] |}
        mon
    else mon in
  let metrics := getErrorMetrics mon1 600000 (oracle_now o) in
  if (criticalErrorThreshold <=? errorsBySeverity metrics critical)%nat
  then
    createAlert o
      {| data_type := threshold_exceeded;
         data_severity := high;
         data_title := "Critical Error Threshold Exceeded";
         data_message :=
           pretty (errorsBySeverity metrics critical)
           +:+ " critical errors in the last 10 minutes";
         data_jobId := None;
         data_errorId := None;
         data_metadata :=
           [("threshold", pretty criticalErrorThreshold);
            ("actual", pretty (errorsBySeverity metrics critical))] |}
      mon1
  else mon1.

(** [recordError(error, job)]; of [job] only the id is read. *)
Definition recordError (o : MonitorOracle) (error : MigrationError)
    (jobId : string) (mon : ErrorMonitoringSystem)
  : ErrorMonitoringSystem :=
  let mon1 :=
    {| monitor_errors := <[err_id error := error]> (monitor_errors mon);
       errorPatterns := errorPatterns mon;
       alerts := alerts mon;
       monitor_events := monitor_events mon |} in
  let mon2 := updateErrorPatterns o error mon1 in
  let mon3 := checkForAlerts o error jobId mon2 in
  {| monitor_errors := monitor_errors mon3;
     errorPatterns := errorPatterns mon3;
     alerts := alerts mon3;
     monitor_events :=
       monitor_events mon3 ++ [error_recorded (err_id error) jobId] |}.

(** The alerts of one type among the emitted events. *)
Definition alerts_raised (ty : AlertType) (evs : list MonitorEvent) : nat :=
  List.length
    (List.filter
       (fun ev =>
          match ev with
          | alert_created a => bool_decide (alert_type a = ty)
          | error_recorded _ _ => false
          end) evs).

End Monitoring.

(** ** lib/migration-engine.ts *)

(** A thrown value: an [Error] with its message, or any other value. The
    [details] of a migration error (the stack text of the [Error]) are not
    modelled. *)
Inductive Thrown :=
  | ErrorObj (message : string)
  | OtherValue (text : string).

Record SupabaseProject := {
  project_id : string;
  project_ref : string;
  project_status : string;
}.

Record MigrationJobOptions := {
  sourceProject : SupabaseProject;
  targetProjectName : string;
  targetRegion : string;
  targetTier : string;
  opt_configuration : MigrationConfiguration;
  organizationId : string;
}.

(** The tagged result of a management API call; [api_error] is
    [error?.message]. *)
Record APIResponse (T : Type) := {
  api_success : bool;
  api_data : option T;
  api_error : option string;
}.
Arguments api_success {T} _.
Arguments api_data {T} _.
Arguments api_error {T} _.

Record StorageBucket := {
  bucket_name : string;
  object_count : Z;
}.

Record EdgeFunction := {
  slug : string;
}.

(** What the task observes of the world. The task counts the places where it
    consults the world ([tick]); the entry at index [k] is what the world
    answers at the [k]-th place: the clock when the task resumes, whether a
    client called [cancelMigration(job.id)] while it was suspended, the
    responses of the collaborators, and the random draws. *)
Record Env := {
  env_time : nat -> Z;
  env_cancel : nat -> bool;
  env_id : nat -> string;
  env_alert_id : nat -> AlertType -> string;
  env_recovery : nat -> RecoveryOracle;
  env_createProject : nat -> APIResponse SupabaseProject;
  env_getProject : nat -> APIResponse SupabaseProject;
  env_getDatabaseConfig : nat -> APIResponse unit;
  env_getCompleteSchema : nat -> Thrown + nat;
  env_getStorageBuckets : nat -> APIResponse (list StorageBucket);
  env_getProjectConfig : nat -> APIResponse unit;
  env_getEdgeFunctions : nat -> APIResponse (list EdgeFunction);
  env_getEdgeFunction : nat -> APIResponse unit;
  env_validation_fails : nat -> bool;
}.

(** Where the task gives up control: a timer or a collaborator call. *)
Inductive Wait :=
  | timer (ms : Z)
  | collaborator (operation : string).

Inductive Event :=
  | migration_started
  | migration_progress
  | migration_phase_started (phase : MigrationPhase)
  | migration_phase_completed (phase : MigrationPhase)
  | migration_phase_skipped (phase : MigrationPhase) (reason : string)
  | migration_manual_intervention_required (phase : MigrationPhase)
  | migration_rollback_completed (phase : MigrationPhase)
  | migration_completed
  | migration_failed
  | migration_cancelled
  | migration_error (code : string)
  | suspended (w : Wait).

(** One observation of the job: an emitted event, or a suspension of the
    task, with the status and the overall percentage the job has then. *)
Record Obs := {
  obs_event : Event;
  obs_status : JobStatus;
  obs_percentage : Q;
}.

(** The state one background task works on: its job object, whether
    [activeJobs] still holds it, the two engines, and what was observed. *)
Record Task := {
  job : MigrationJob;
  registered : bool;
  recoveryEngine : ErrorRecoveryEngine;
  monitoringSystem : ErrorMonitoringSystem;
  trace : list Obs;
  clock : Z;
  tick : nat;
}.

Inductive Outcome (A : Type) :=
  | Returned (a : A)
  | Threw (e : Thrown).
Arguments Returned {A} _.
Arguments Threw {A} _.

(** Code of the task: it reads the world, changes the task state, and
    returns or throws. *)
Definition M (A : Type) : Type := Env -> Task -> Outcome A * Task.

#[global] Instance M_ret : MRet M := fun A a _ t => (Returned a, t).

#[global] Instance M_bind : MBind M := fun A B f m env t =>
  match m env t with
  | (Returned a, t') => f a env t'
  | (Threw e, t') => (Threw e, t')
  end.

Definition throw {A : Type} (e : Thrown) : M A := fun _ t => (Threw e, t).

Definition try_catch {A : Type} (body : M A) (handler : Thrown -> M A) : M A :=
  fun env t =>
    match body env t with
    | (Returned a, t') => (Returned a, t')
    | (Threw e, t') => handler e env t'
    end.

Definition get_task : M Task := fun _ t => (Returned t, t).
Definition get_job : M MigrationJob := fun _ t => (Returned (job t), t).
Definition modify (f : Task -> Task) : M unit := fun _ t => (Returned tt, f t).
Definition ask {A : Type} (f : Env -> nat -> A) : M A :=
  fun env t => (Returned (f env (tick t)), t).

Definition set_job (j : MigrationJob) (t : Task) : Task :=
  {| job := j; registered := registered t;
     recoveryEngine := recoveryEngine t;
     monitoringSystem := monitoringSystem t;
     trace := trace t; clock := clock t; tick := tick t |}.

Definition set_registered (b : bool) (t : Task) : Task :=
  {| job := job t; registered := b;
     recoveryEngine := recoveryEngine t;
     monitoringSystem := monitoringSystem t;
     trace := trace t; clock := clock t; tick := tick t |}.

Definition set_recoveryEngine (e : ErrorRecoveryEngine) (t : Task) : Task :=
  {| job := job t; registered := registered t;
     recoveryEngine := e;
     monitoringSystem := monitoringSystem t;
     trace := trace t; clock := clock t; tick := tick t |}.

Definition set_monitoringSystem (m : ErrorMonitoringSystem) (t : Task)
  : Task :=
  {| job := job t; registered := registered t;
     recoveryEngine := recoveryEngine t;
     monitoringSystem := m;
     trace := trace t; clock := clock t; tick := tick t |}.

Definition resume (now : Z) (t : Task) : Task :=
  {| job := job t; registered := registered t;
     recoveryEngine := recoveryEngine t;
     monitoringSystem := monitoringSystem t;
     trace := trace t; clock := now; tick := S (tick t) |}.

Definition next_tick (t : Task) : Task :=
  {| job := job t; registered := registered t;
     recoveryEngine := recoveryEngine t;
     monitoringSystem := monitoringSystem t;
     trace := trace t; clock := clock t; tick := S (tick t) |}.

Definition observe (ev : Event) (j : MigrationJob) : Obs :=
  {| obs_event := ev; obs_status := status j;
     obs_percentage := overall_percentage (progress j) |}.

(** [this.emit(name, job)]: the event with the job as it is now. *)
Definition emit_task (ev : Event) (t : Task) : Task :=
  {| job := job t; registered := registered t;
     recoveryEngine := recoveryEngine t;
     monitoringSystem := monitoringSystem t;
     trace := trace t ++ [observe ev (job t)];
     clock := clock t; tick := tick t |}.

Definition emit (ev : Event) : M unit := modify (emit_task ev).

(** *** Writes to the job object *)

Definition set_status (s : JobStatus) (j : MigrationJob) : MigrationJob :=
  {| job_id := job_id j; source_project_id := source_project_id j;
     target_project_id := target_project_id j;
     organization_id := organization_id j; status := s;
     job_type := job_type j; created_at := created_at j;
     started_at := started_at j; completed_at := completed_at j;
     progress := progress j; configuration := configuration j;
     error_log := error_log j; estimated_duration := estimated_duration j;
     actual_duration := actual_duration j |}.

Definition set_progress (p : MigrationProgress) (j : MigrationJob)
  : MigrationJob :=
  {| job_id := job_id j; source_project_id := source_project_id j;
     target_project_id := target_project_id j;
     organization_id := organization_id j; status := status j;
     job_type := job_type j; created_at := created_at j;
     started_at := started_at j; completed_at := completed_at j;
     progress := p; configuration := configuration j;
     error_log := error_log j; estimated_duration := estimated_duration j;
     actual_duration := actual_duration j |}.

Definition set_target_project_id (id : string) (j : MigrationJob)
  : MigrationJob :=
  {| job_id := job_id j; source_project_id := source_project_id j;
     target_project_id := id;
     organization_id := organization_id j; status := status j;
     job_type := job_type j; created_at := created_at j;
     started_at := started_at j; completed_at := completed_at j;
     progress := progress j; configuration := configuration j;
     error_log := error_log j; estimated_duration := estimated_duration j;
     actual_duration := actual_duration j |}.

Definition set_started_at (now : Z) (j : MigrationJob) : MigrationJob :=
  {| job_id := job_id j; source_project_id := source_project_id j;
     target_project_id := target_project_id j;
     organization_id := organization_id j; status := status j;
     job_type := job_type j; created_at := created_at j;
     started_at := Some now; completed_at := completed_at j;
     progress := progress j; configuration := configuration j;
     error_log := error_log j; estimated_duration := estimated_duration j;
     actual_duration := actual_duration j |}.

(** [job.completed_at = now] and [job.actual_duration = Date.now() -
    started_at]; [started_at] is set wherever the code computes the duration
    (the [catch] block checks it, the completion follows the start). *)
Definition set_finished (now : Z) (j : MigrationJob) : MigrationJob :=
  {| job_id := job_id j; source_project_id := source_project_id j;
     target_project_id := target_project_id j;
     organization_id := organization_id j; status := status j;
     job_type := job_type j; created_at := created_at j;
     started_at := started_at j; completed_at := Some now;
     progress := progress j; configuration := configuration j;
     error_log := error_log j; estimated_duration := estimated_duration j;
     actual_duration :=
       match started_at j with
       | Some s => Some (now - s)
       | None => actual_duration j
       end |}.

Definition push_error (e : MigrationError) (j : MigrationJob) : MigrationJob :=
  {| job_id := job_id j; source_project_id := source_project_id j;
     target_project_id := target_project_id j;
     organization_id := organization_id j; status := status j;
     job_type := job_type j; created_at := created_at j;
     started_at := started_at j; completed_at := completed_at j;
     progress := progress j; configuration := configuration j;
     error_log := error_log j ++ [e];
     estimated_duration := estimated_duration j;
     actual_duration := actual_duration j |}.

(** The argument of [updateProgress]: a [Partial<MigrationProgress>]. No call
    in the source passes [phases]. *)
Record ProgressUpdate := {
  upd_percentage : option Q;
  upd_phase : option MigrationPhase;
  upd_stats : option Stats;
}.

(** [{ ...job.progress, ...updates }] *)
Definition merge_progress (p : MigrationProgress) (u : ProgressUpdate)
  : MigrationProgress :=
  {| overall_percentage := default (overall_percentage p) (upd_percentage u);
     current_phase := default (current_phase p) (upd_phase u);
     phases := phases p;
     stats := default (stats p) (upd_stats u) |}.

Definition updateProgress_task (u : ProgressUpdate) (t : Task) : Task :=
  emit_task migration_progress
    (set_job (set_progress (merge_progress (progress (job t)) u) (job t)) t).

Definition updateProgress (u : ProgressUpdate) : M unit :=
  modify (updateProgress_task u).

Definition at_percentage (pct : Q) (phase : MigrationPhase) : ProgressUpdate :=
  {| upd_percentage := Some pct; upd_phase := Some phase; upd_stats := None |}.

Definition with_stats (pct : Q) (phase : MigrationPhase) (s : Stats)
  : ProgressUpdate :=
  {| upd_percentage := Some pct; upd_phase := Some phase;
     upd_stats := Some s |}.

Definition only_percentage (pct : Q) : ProgressUpdate :=
  {| upd_percentage := Some pct; upd_phase := None; upd_stats := None |}.

(** The write [job.progress.phases[phaseIndex].status = status] with the
    timestamp that goes with it, at the first entry named [phase]. *)
Fixpoint mark_phase (phase : MigrationPhase) (s : PhaseStatus) (now : Z)
    (l : list PhaseEntry) : list PhaseEntry :=
  match l with
  | [] => []
  | e :: l' =>
      if bool_decide (pe_name e = phase) then
        {| pe_name := pe_name e; pe_status := s;
           pe_percentage := pe_percentage e;
           pe_started_at :=
             match s with
             | phase_running => Some now
             | _ => pe_started_at e
             end;
           pe_completed_at :=
             match s with
             | phase_completed | phase_failed => Some now
             | _ => pe_completed_at e
             end;
           pe_details := pe_details e |} :: l'
      else e :: mark_phase phase s now l'
  end.

Definition updatePhaseStatus_job (phase : MigrationPhase) (s : PhaseStatus)
    (now : Z) (j : MigrationJob) : MigrationJob :=
  set_progress
    {| overall_percentage := overall_percentage (progress j);
       current_phase := current_phase (progress j);
       phases := mark_phase phase s now (phases (progress j));
       stats := stats (progress j) |} j.

Definition updatePhaseStatus (phase : MigrationPhase) (s : PhaseStatus)
  : M unit :=
  modify (fun t => set_job (updatePhaseStatus_job phase s (clock t) (job t)) t).

(** *** cancelMigration *)

(** The job after [job.status = 'cancelled'] and
    [updateProgress(job, { overall_percentage: 0 })]. *)
Definition cancelled_job (j : MigrationJob) : MigrationJob :=
  set_progress
    (merge_progress (progress (set_status cancelled j)) (only_percentage 0))
    (set_status cancelled j).

(** [cancelMigration] after the lookup of the job: the thrown message, or the
    job afterwards with the two events emitted. *)
Definition cancelJob (j : MigrationJob) : string + MigrationJob * list Obs :=
  if bool_decide (status j = completed) || bool_decide (status j = failed)
  then inl "Cannot cancel completed or failed migration"
  else
    let j' := cancelled_job j in
    inr (j', [observe migration_progress j'; observe migration_cancelled j']).

(** [cancelMigration(jobId)] on the registry: the thrown message, or the
    registry afterwards with the events emitted. *)
Definition cancelMigration (activeJobs : gmap string MigrationJob)
    (jobId : string) : string + gmap string MigrationJob * list Obs :=
  match activeJobs !! jobId with
  | None => inl "Migration job not found"
  | Some j =>
      match cancelJob j with
      | inl msg => inl msg
      | inr (j', evs) => inr (<[jobId := j']> activeJobs, evs)
      end
  end.

(** [getMigrationStatus(jobId)] *)
Definition getMigrationStatus (activeJobs : gmap string MigrationJob)
    (jobId : string) : option MigrationJob :=
  activeJobs !! jobId.

(** A client's [cancelMigration(job.id)] while the task is suspended; a
    rejected call leaves the task as it is. *)
Definition client_cancel (t : Task) : Task :=
  if registered t then
    match cancelJob (job t) with
    | inl _ => t
    | inr (j', evs) =>
        {| job := j'; registered := registered t;
           recoveryEngine := recoveryEngine t;
           monitoringSystem := monitoringSystem t;
           trace := trace t ++ evs; clock := clock t; tick := tick t |}
    end
  else t.

(** The task gives up control at the place [tick]: it is observed as it is,
    a client may cancel, and it resumes at the time the world gives. *)
Definition suspend (w : Wait) : M unit := fun env t =>
  let t1 := emit_task (suspended w) t in
  let t2 := if env_cancel env (tick t) then client_cancel t1 else t1 in
  (Returned tt, resume (env_time env (tick t)) t2).

(** [await] of a collaborator call: the response is the world's answer at the
    place of the call. *)
Definition await {A : Type} (operation : string) (f : Env -> nat -> A)
  : M A :=
  r ← ask f; suspend (collaborator operation);; mret r.

(** A random draw or a fresh id: the world's answer at this place. *)
Definition draw {A : Type} (f : Env -> nat -> A) : M A :=
  r ← ask f; modify next_tick;; mret r.

Definition sleep (ms : Z) : M unit := suspend (timer ms).

Fixpoint sleeps (l : list Z) : M unit :=
  match l with
  | [] => mret tt
  | ms :: l' => sleep ms;; sleeps l'
  end.

(** *** Classification of a thrown value *)

Definition thrown_message (error : Thrown) : string :=
  match error with
  | ErrorObj m => m
  | OtherValue _ => "Unknown error"
  end.

Definition determineSeverity (error : Thrown) : Severity :=
  match error with
  | ErrorObj m =>
      if includes m "CRITICAL" || includes m "FATAL" then critical
      else if includes m "CONNECTION" || includes m "TIMEOUT" then high
      else if includes m "PERMISSION" || includes m "AUTH" then medium
      else high
  | OtherValue _ => high
  end.

Definition determineErrorCode (error : Thrown) : string :=
  match error with
  | ErrorObj m =>
      if includes m "timeout" then "CONNECTION_TIMEOUT"
      else if includes m "permission" then "PERMISSION_DENIED"
      else if includes m "conflict" then "RESOURCE_CONFLICT"
      else if includes m "not found" then "RESOURCE_NOT_FOUND"
      else if includes m "network" then "NETWORK_ERROR"
      else "UNKNOWN_ERROR"
  | OtherValue _ => "UNKNOWN_ERROR"
  end.

Definition isAutoRecoverable (error : Thrown) : bool :=
  match error with
  | ErrorObj m =>
      existsb (fun keyword => includes (toLowerCase m) keyword)
        ["timeout"; "network"; "temporary"; "retry"]
  | OtherValue _ => false
  end.

Definition createMigrationError (error : Thrown) (phase : MigrationPhase)
  : M MigrationError :=
  id ← draw env_id;
  t ← get_task;
  mret {| err_id := id;
          err_timestamp := clock t;
          err_phase := phase;
          err_severity := determineSeverity error;
          error_code := determineErrorCode error;
          err_message := thrown_message error;
          auto_recoverable := isAutoRecoverable error;
          recovery_attempted := false |}.

(** [this.monitoringSystem.recordError(migrationError, job)] *)
Definition recordError (e : MigrationError) : M unit :=
  ids ← draw env_alert_id;
  modify (fun t =>
    set_monitoringSystem
      (Monitoring.recordError
         {| oracle_now := clock t; oracle_alert_id := ids |}
         e (job_id (job t)) (monitoringSystem t)) t).

Definition handleMigrationError (phase : MigrationPhase) (error : Thrown)
  : M unit :=
  migrationError ← createMigrationError error phase;
  recordError migrationError;;
  emit (migration_error (error_code migrationError)).

(** [await this.recoveryEngine.handleError(job, migrationError, phase)]: the
    engine is updated and the task waits through the timers of the strategy. *)
Definition handleError (e : MigrationError) (phase : MigrationPhase)
  : M RecoveryResult :=
  o ← draw env_recovery;
  t ← get_task;
  let '(result, waits, eng) :=
    Recovery.handleError o (recoveryEngine t) (job_id (job t)) e phase in
  modify (set_recoveryEngine eng);;
  sleeps waits;;
  mret result.

(** [rollbackToPhase(job, targetPhase)]. The checkpoint's [progress] becomes
    the job's; its [phases] is the array the job has had all along. *)
Definition rollbackToPhase (targetPhase : MigrationPhase) : M unit :=
  t ← get_task;
  match List.find (fun cp => bool_decide (cp_phase cp = targetPhase))
          (Recovery.getJobCheckpoints (recoveryEngine t) (job_id (job t))) with
  | Some targetCheckpoint =>
      o ← draw env_recovery;
      let '(_, waits, eng) :=
        Recovery.rollbackToCheckpoint (instruction_resolves o)
          (recoveryEngine t) (job_id (job t)) (cp_id targetCheckpoint) in
      modify (set_recoveryEngine eng);;
      sleeps waits;;
      modify (fun t =>
        set_job
          (set_progress
             {| overall_percentage :=
                  overall_percentage (cp_progress targetCheckpoint);
                current_phase := current_phase (cp_progress targetCheckpoint);
                phases := phases (progress (job t));
                stats := stats (cp_progress targetCheckpoint) |}
             (job t)) t);;
      emit (migration_rollback_completed targetPhase)
  | None => mret tt
  end.

(** *** executePhase *)

Definition phase_maxRetries : nat := 3.

(** How an iteration of the retry loop ends when it does not throw. *)
Inductive Ctl := LoopReturn | LoopContinue.

(** A value used as a condition: [undefined] and [0] are false. *)
Definition truthy_delay (d : option Z) : option Z :=
  match d with
  | Some 0 => None
  | other => other
  end.

(** The [catch] block of the retry loop once the fault is recorded and
    logged: recovery when retries remain, failure of the phase otherwise. *)
Definition phase_recover (phase : MigrationPhase) (retryCount : nat)
    (error : Thrown) (migrationError : MigrationError) : M Ctl :=
  if (retryCount <? phase_maxRetries)%nat then
    recoveryResult ← handleError migrationError phase;
    decided ←
      (if success recoveryResult then
         match action recoveryResult with
         | retry =>
             match truthy_delay (delayBeforeRetry recoveryResult) with
             | Some d => sleep d
             | None => mret tt
             end;;
             mret (Some LoopContinue)
         | skip =>
             updatePhaseStatus phase phase_completed;;
             emit (migration_phase_skipped phase (message recoveryResult));;
             mret (Some LoopReturn)
         | rollback =>
             match result_rollbackToPhase recoveryResult with
             | Some target =>
                 rollbackToPhase target;;
                 throw (ErrorObj ("Rolled back to " +:+ phase_name target
                                  +:+ " phase"))
             | None => mret None
             end
         | manual_intervention => mret None
         end
       else mret None);
    match decided with
    | Some ctl => mret ctl
    | None =>
        if default false (requiresManualIntervention recoveryResult) then
          updatePhaseStatus phase phase_failed;;
          emit (migration_manual_intervention_required phase);;
          throw (ErrorObj ("Manual intervention required: "
                           +:+ message recoveryResult))
        else mret LoopContinue
    end
  else
    updatePhaseStatus phase phase_failed;;
    handleMigrationError phase error;;
    throw error.

(** The [catch] block of the retry loop. *)
Definition phase_catch (phase : MigrationPhase) (retryCount : nat)
    (error : Thrown) : M Ctl :=
  migrationError ← createMigrationError error phase;
  recordError migrationError;;
  modify (fun t => set_job (push_error migrationError (job t)) t);;
  phase_recover phase retryCount error migrationError.

(** The loop [while (retryCount <= maxRetries)], by the number [left] of
    iterations that remain: [retryCount = maxRetries + 1 - left], and every
    way round the loop adds one to [retryCount]. *)
Fixpoint phase_attempts (phase : MigrationPhase) (executor : M unit)
    (left : nat) : M unit :=
  match left with
  | O => mret tt
  | S left' =>
      ctl ← try_catch
               (updatePhaseStatus phase phase_running;;
                emit (migration_phase_started phase);;
                executor;;
                updatePhaseStatus phase phase_completed;;
                emit (migration_phase_completed phase);;
                mret LoopReturn)
               (phase_catch phase (phase_maxRetries + 1 - left));
      match ctl with
      | LoopReturn => mret tt
      | LoopContinue => phase_attempts phase executor left'
      end
  end.

Definition executePhase (phase : MigrationPhase) (executor : M unit)
  : M unit :=
  checkpointId ← draw env_id;
  modify (fun t =>
    set_recoveryEngine
      (Recovery.createCheckpoint (recoveryEngine t) (job_id (job t)) phase
         (progress (job t))
         {| state_phase := phase; state_timestamp := clock t |}
         checkpointId (clock t)).2 t);;
  phase_attempts phase executor (phase_maxRetries + 1).

(** *** The phase executors *)

Definition with_total_tables (n : Z) (s : Stats) : Stats :=
  {| tables_migrated := tables_migrated s; total_tables := n;
     rows_migrated := rows_migrated s; total_rows := total_rows s;
     storage_objects_migrated := storage_objects_migrated s;
     total_storage_objects := total_storage_objects s;
     functions_migrated := functions_migrated s;
     total_functions := total_functions s |}.

Definition with_rows_migrated (n : Z) (s : Stats) : Stats :=
  {| tables_migrated := tables_migrated s; total_tables := total_tables s;
     rows_migrated := n; total_rows := total_rows s;
     storage_objects_migrated := storage_objects_migrated s;
     total_storage_objects := total_storage_objects s;
     functions_migrated := functions_migrated s;
     total_functions := total_functions s |}.

Definition with_storage (total migrated : Z) (s : Stats) : Stats :=
  {| tables_migrated := tables_migrated s; total_tables := total_tables s;
     rows_migrated := rows_migrated s; total_rows := total_rows s;
     storage_objects_migrated := migrated;
     total_storage_objects := total;
     functions_migrated := functions_migrated s;
     total_functions := total_functions s |}.

Definition with_functions (total migrated : Z) (s : Stats) : Stats :=
  {| tables_migrated := tables_migrated s; total_tables := total_tables s;
     rows_migrated := rows_migrated s; total_rows := total_rows s;
     storage_objects_migrated := storage_objects_migrated s;
     total_storage_objects := total_storage_objects s;
     functions_migrated := migrated;
     total_functions := total |}.

Definition current_stats : M Stats :=
  j ← get_job; mret (stats (progress j)).

(** The loop of [waitForProjectReady], by the attempts that remain. *)
Fixpoint waitForProjectReady_loop (left : nat) : M unit :=
  match left with
  | O =>
      throw (ErrorObj
               "Target project failed to become ready within timeout period")
  | S left' =>
      project ← await "getProject" env_getProject;
      if api_success project
         && match api_data project with
            | Some d => String.eqb (project_status d) "ACTIVE_HEALTHY"
            | None => false
            end
      then mret tt
      else sleep 10000;; waitForProjectReady_loop left'
  end.

Definition waitForProjectReady (projectRef : string) : M unit :=
  waitForProjectReady_loop 30.

Definition prepareTargetProject (options : MigrationJobOptions) : M unit :=
  updateProgress (at_percentage 5 preparation);;
  createResponse ← await "createProject" env_createProject;
  match api_success createResponse, api_data createResponse with
  | true, Some data =>
      modify (fun t =>
        set_job (set_target_project_id (project_id data) (job t)) t);;
      waitForProjectReady (project_ref data);;
      updateProgress (at_percentage 10 preparation)
  | _, _ =>
      throw (ErrorObj ("Failed to create target project: "
                       +:+ default "undefined" (api_error createResponse)))
  end.

Definition api_ok {T : Type} (r : APIResponse T) : bool :=
  api_success r && bool_decide (is_Some (api_data r)).

Definition migrateSchema (options : MigrationJobOptions) : M unit :=
  updateProgress (at_percentage 15 schema_migration);;
  sourceDbConfig ← await "getDatabaseConfig" env_getDatabaseConfig;
  if negb (api_ok sourceDbConfig)
  then throw (ErrorObj "Failed to get source database configuration")
  else
    inspected ← await "getCompleteSchema" env_getCompleteSchema;
    match inspected with
    | inl error => throw error
    | inr tables =>
        targetDbConfig ← await "getDatabaseConfig" env_getDatabaseConfig;
        if negb (api_ok targetDbConfig)
        then throw (ErrorObj "Failed to get target database configuration")
        else
          sleep 2000;;
          s ← current_stats;
          updateProgress
            (with_stats 30 schema_migration
               (with_total_tables (Z.of_nat tables) s))
    end.

(** The body of [for (let i = 0; i <= 100; i += 10)]. *)
Definition migrateData_step (i : Z) : M unit :=
  sleep 200;;
  s ← current_stats;
  updateProgress
    (with_stats (35 + inject_Z i * (1 # 4)) data_migration
       (with_rows_migrated (total_rows s * i / 100) s)).

Fixpoint for_each {A : Type} (body : A -> M unit) (l : list A) : M unit :=
  match l with
  | [] => mret tt
  | x :: l' => body x;; for_each body l'
  end.

Definition migrateData (options : MigrationJobOptions) : M unit :=
  if String.eqb (clone_type (opt_configuration options)) "schema_only"
  then mret tt
  else
    updateProgress (at_percentage 35 data_migration);;
    for_each migrateData_step (List.map (fun k => 10 * Z.of_nat k) (seq 0 11)).

Definition sum_objects (l : list StorageBucket) : Z :=
  fold_left (fun sum b => sum + object_count b) l 0.

(** The body of the loop over the buckets, at index [i]. *)
Definition migrateStorage_step (buckets : list StorageBucket) (i : nat)
  : M unit :=
  suspend (collaborator "createStorageBucket");;
  s ← current_stats;
  updateProgress
    (with_stats
       (60 + (inject_Z (Z.of_nat i + 1)
              / inject_Z (Z.of_nat (List.length buckets))) * 10)%Q
       storage_migration
       (with_storage (sum_objects buckets)
          (sum_objects (take (i + 1) buckets)) s)).

Definition migrateStorage (options : MigrationJobOptions) : M unit :=
  updateProgress (at_percentage 60 storage_migration);;
  bucketsResponse ← await "getStorageBuckets" env_getStorageBuckets;
  match api_success bucketsResponse, api_data bucketsResponse with
  | true, Some buckets =>
      for_each (migrateStorage_step buckets) (seq 0 (List.length buckets))
  | _, _ => throw (ErrorObj "Failed to get source storage buckets")
  end.

Definition migrateConfiguration (options : MigrationJobOptions) : M unit :=
  updateProgress (at_percentage 70 configuration_migration);;
  sourceConfig ← await "getProjectConfig" env_getProjectConfig;
  if negb (api_success sourceConfig)
  then throw (ErrorObj "Failed to get source project configuration")
  else
    sleep 1000;;
    updateProgress (at_percentage 75 configuration_migration).

(** The body of the loop over the functions, at index [i]. *)
Definition migrateEdgeFunctions_step (functions : list EdgeFunction)
    (i : nat) : M unit :=
  funcDetails ← await "getEdgeFunction" env_getEdgeFunction;
  (if api_ok funcDetails
   then suspend (collaborator "deployEdgeFunction")
   else mret tt);;
  s ← current_stats;
  updateProgress
    (with_stats
       (75 + (inject_Z (Z.of_nat i + 1)
              / inject_Z (Z.of_nat (List.length functions))) * 5)%Q
       edge_functions_migration
       (with_functions (Z.of_nat (List.length functions))
          (Z.of_nat i + 1) s)).

Definition migrateEdgeFunctions (options : MigrationJobOptions) : M unit :=
  updateProgress (at_percentage 75 edge_functions_migration);;
  functionsResponse ← await "getEdgeFunctions" env_getEdgeFunctions;
  match api_success functionsResponse, api_data functionsResponse with
  | true, Some functions =>
      for_each (migrateEdgeFunctions_step functions)
        (seq 0 (List.length functions))
  | _, _ => throw (ErrorObj "Failed to get source Edge Functions")
  end.

Definition migrateSecurity (options : MigrationJobOptions) : M unit :=
  updateProgress (at_percentage 80 security_migration);;
  sleep 1000;;
  updateProgress (at_percentage 85 security_migration).

Definition setupRealtime (options : MigrationJobOptions) : M unit :=
  updateProgress (at_percentage 85 realtime_setup);;
  sleep 500;;
  updateProgress (at_percentage 90 realtime_setup).

(** [performValidationChecks]: the errors found. *)
Definition performValidationChecks : M (list string) :=
  fails ← ask env_validation_fails;
  sleep 1000;;
  mret (if fails : bool
        then ["Data integrity check failed for table: users"]
        else []).

Definition join_comma (l : list string) : string :=
  match l with
  | [] => EmptyString
  | x :: l' => fold_left (fun acc y => acc +:+ ", " +:+ y) l' x
  end.

Definition validateMigration (options : MigrationJobOptions) : M unit :=
  updateProgress (at_percentage 90 validation);;
  validationErrors ← performValidationChecks;
  if negb (List.length validationErrors =? 0)%nat
  then throw (ErrorObj ("Migration validation failed: "
                        +:+ join_comma validationErrors))
  else updateProgress (at_percentage 95 validation).

Definition performCutover (options : MigrationJobOptions) : M unit :=
  updateProgress (at_percentage 95 cutover);;
  sleep 500;;
  updateProgress (at_percentage 100 cutover).

(** *** executeMigration *)

(** The first statements of the [try] block. *)
Definition begin_migration : M unit :=
  modify (fun t =>
    set_job (set_started_at (clock t) (set_status running (job t))) t);;
  emit migration_started.

(** The ten phases of the [try] block, each under [executePhase]. *)
Definition phase_pipeline (options : MigrationJobOptions) : M unit :=
  executePhase preparation (prepareTargetProject options);;
  executePhase schema_migration (migrateSchema options);;
  (if negb (String.eqb (clone_type (opt_configuration options)) "schema_only")
   then executePhase data_migration (migrateData options)
   else mret tt);;
  (if include_storage (opt_configuration options)
   then executePhase storage_migration (migrateStorage options)
   else mret tt);;
  executePhase configuration_migration (migrateConfiguration options);;
  (if include_edge_functions (opt_configuration options)
   then executePhase edge_functions_migration (migrateEdgeFunctions options)
   else mret tt);;
  executePhase security_migration (migrateSecurity options);;
  executePhase realtime_setup (setupRealtime options);;
  executePhase validation (validateMigration options);;
  executePhase cutover (performCutover options).

(** The statements under [// Complete migration]. *)
Definition complete_migration : M unit :=
  modify (fun t =>
    set_job (set_finished (clock t) (set_status completed (job t))) t);;
  updateProgress (only_percentage 100);;
  emit migration_completed;;
  modify (set_registered false).

(** The [catch] block of [executeMigration]. *)
Definition fail_migration (error : Thrown) : M unit :=
  modify (fun t =>
    set_job (set_finished (clock t) (set_status failed (job t))) t);;
  emit migration_failed;;
  throw error.

Definition executeMigration (options : MigrationJobOptions) : M unit :=
  try_catch
    (begin_migration;; phase_pipeline options;; complete_migration)
    fail_migration.

(** What [startMigration] starts in the background:
    [this.executeMigration(job, options, userId).catch(...)]. *)
Definition backgroundTask (options : MigrationJobOptions) : M unit :=
  try_catch (executeMigration options) (handleMigrationError preparation).

(** *** startMigration *)

Definition all_phases : list MigrationPhase :=
  [preparation; schema_migration; data_migration; storage_migration;
   configuration_migration; edge_functions_migration; security_migration;
   realtime_setup; validation; cutover].

Definition initializeProgress : MigrationProgress :=
  {| overall_percentage := 0;
     current_phase := preparation;
     phases :=
       List.map (fun phase =>
         {| pe_name := phase; pe_status := phase_pending; pe_percentage := 0;
            pe_started_at := None; pe_completed_at := None;
            pe_details := EmptyString |}) all_phases;
     stats :=
       {| tables_migrated := 0; total_tables := 0; rows_migrated := 0;
          total_rows := 0; storage_objects_migrated := 0;
          total_storage_objects := 0; functions_migrated := 0;
          total_functions := 0 |} |}.

(** [estimateMigrationDuration]: minutes times the thread multiplier
    [max(0.5, 1 - (parallel_threads - 1) * 0.1)], in milliseconds, rounded
    as [Math.round] does. *)
Definition estimateMigrationDuration (options : MigrationJobOptions) : Z :=
  let c := opt_configuration options in
  let base : Z :=
    5
    + (if String.eqb (clone_type c) "schema_only" then 2
       else if String.eqb (clone_type c) "data_subset" then 15
       else if String.eqb (clone_type c) "full_clone" then 30
       else 0)
    + (if include_storage c then 10 else 0)
    + (if include_edge_functions c then 5 else 0)
    + (if include_auth_config c then 3 else 0) in
  let scaled : Q :=
    (1 - inject_Z (parallel_threads c - 1) * (1 # 10))%Q in
  let threadMultiplier : Q :=
    if Qle_bool scaled (1 # 2) then (1 # 2)%Q else scaled in
  Qfloor (inject_Z base * threadMultiplier * 60 * 1000 + (1 # 2))%Q.

(** The object literal [job] of [startMigration]. *)
Definition new_job (options : MigrationJobOptions) (jobId : string) (now : Z)
  : MigrationJob :=
  {| job_id := jobId;
     source_project_id := project_id (sourceProject options);
     target_project_id := EmptyString;
     organization_id := organizationId options;
     status := pending;
     job_type := clone_type (opt_configuration options);
     created_at := now;
     started_at := None;
     completed_at := None;
     progress := initializeProgress;
     configuration := opt_configuration options;
     error_log := [];
     estimated_duration := estimateMigrationDuration options;
     actual_duration := None |}.

(** The result of [startMigration]: the thrown message or the job id, the
    registry when the call returns, and the job as it is handed to
    [executeMigration], whose run is [backgroundTask]. *)
Record StartOutcome := {
  start_result : string + string;
  start_activeJobs : gmap string MigrationJob;
  start_background : option MigrationJob;
}.

Definition reject (activeJobs : gmap string MigrationJob) (msg : string)
  : StartOutcome :=
  {| start_result := inl msg; start_activeJobs := activeJobs;
     start_background := None |}.

(** The jobs that count against the limit of an organization. *)
Definition activeMigrations (activeJobs : gmap string MigrationJob)
    (org : string) : list MigrationJob :=
  List.filter
    (fun j => bool_decide (status j = running)
              && String.eqb (organization_id j) org)
    (map_to_list activeJobs).*2.

(** [startMigration(options, userId)]; [jobId] is the value of
    [generateJobId()] and [now] the clock, which is read once for the whole
    call. The audit log goes to the console and is not modelled. The call [this.executeMigration(job, ...)] is not
    awaited, yet it runs within [startMigration] as far as its first [await]:
    the statements of [begin_migration] are executed on the registered job,
    which is running, with its start time set, when [startMigration]
    returns. *)
Definition startMigration (activeJobs : gmap string MigrationJob)
    (options : MigrationJobOptions) (userId : string) (jobId : string)
    (now : Z) : StartOutcome :=
  let configValidation :=
    InputValidator.validateMigrationConfig (opt_configuration options) in
  if negb (valid configValidation) then
    reject activeJobs
      ("Migration configuration validation failed: "
       +:+ join_comma (errors configValidation))
  else if negb (InputValidator.isValidProjectName (targetProjectName options))
  then reject activeJobs "Invalid target project name format"
  else if negb (InputValidator.isValidOrganizationId (organizationId options))
  then reject activeJobs "Invalid organization ID format"
  else if (config.maxConcurrentMigrations
           <=? List.length (activeMigrations activeJobs
                              (organizationId options)))%nat
  then
    reject activeJobs
      ("Maximum concurrent migrations ("
       +:+ pretty config.maxConcurrentMigrations
       +:+ ") reached for organization")
  else
    let j := new_job options jobId now in
    {| start_result := inr jobId;
       start_activeJobs :=
         <[jobId := set_started_at now (set_status running j)]> activeJobs;
       start_background := Some j |}.

(** The task state in which the background work on [j] begins. *)
Definition task_of (j : MigrationJob) (eng : ErrorRecoveryEngine)
    (mon : ErrorMonitoringSystem) (now : Z) : Task :=
  {| job := j; registered := true; recoveryEngine := eng;
     monitoringSystem := mon; trace := []; clock := now; tick := 0 |}.

(** * Vocabulary of the statements *)

(** The codes [determineErrorCode] can return. *)
Definition classifier_codes : list string :=
  ["CONNECTION_TIMEOUT"; "PERMISSION_DENIED"; "RESOURCE_CONFLICT";
   "RESOURCE_NOT_FOUND"; "NETWORK_ERROR"; "UNKNOWN_ERROR"].

(** The keywords [determineErrorCode] looks for in the message. *)
Definition classifier_keywords : list string :=
  ["timeout"; "permission"; "conflict"; "not found"; "network"].

(** A string is not among the listed ones. *)
Ltac not_in_list :=
  let H := fresh "Hin" in
  intros H;
  repeat (apply elem_of_cons in H; destruct H as [H | H]; [discriminate H |]);
  by apply elem_of_nil in H.

(** Every checkpoint list is at most as long as it was. *)
Definition shrinks (eng eng' : ErrorRecoveryEngine) : Prop :=
  forall j, (List.length (Recovery.getJobCheckpoints eng' j)
             <= List.length (Recovery.getJobCheckpoints eng j))%nat.


(** The frequency and the severity the pattern of [error] has once [error]
    is counted. *)
Definition frequency_with (mon : ErrorMonitoringSystem)
    (error : MigrationError) : nat :=
  S (from_option frequency 0%nat
       (errorPatterns mon !! Monitoring.patternKey error)).

Definition severity_with (mon : ErrorMonitoringSystem)
    (error : MigrationError) : Severity :=
  from_option pattern_severity (err_severity error)
    (errorPatterns mon !! Monitoring.patternKey error).

Definition pattern_alert_due (mon : ErrorMonitoringSystem)
    (error : MigrationError) : nat :=
  if (5 <=? frequency_with mon error)%nat
     && bool_decide (severity_with mon error = high)
  then 1%nat else 0%nat.

(** [m], started in a state with [P], returns in a state with [Qr] or throws
    in a state with [Qt]. *)
Definition hoare {A : Type} (P : Task -> Prop) (m : M A)
    (Qr : A -> Task -> Prop) (Qt : Thrown -> Task -> Prop) : Prop :=
  forall env t, P t ->
    match m env t with
    | (Returned a, t') => Qr a t'
    | (Threw e, t') => Qt e t'
    end.

(** A property of the task state that only looks at the job's status, its
    overall percentage, its error log and the trace is kept by the steps that
    change none of them. *)
Definition same_view (t t' : Task) : Prop :=
  status (job t') = status (job t)
  /\ overall_percentage (progress (job t'))
     = overall_percentage (progress (job t))
  /\ error_log (job t') = error_log (job t)
  /\ trace t' = trace t.

(** [P] is kept by every step that leaves the view as it is. *)
Definition view_stable (P : Task -> Prop) : Prop :=
  forall t t', same_view t t' -> P t -> P t'.

(** [S] is kept by what happens to a task between its own writes to the
    job: steps that leave the view, emissions, and a client's cancel. *)
Record stable (S : Task -> Prop) : Prop := {
  stable_view : view_stable S;
  stable_emit : forall ev t, S t -> S (emit_task ev t);
  stable_cancel : forall t, S t -> S (client_cancel t);
}.

(** A decision is either a success that asks for a retry or a skip, or a
    failure that asks for manual intervention. *)
Definition decision_shape (r : RecoveryResult) : Prop :=
  (success r = true /\ (action r = retry \/ action r = skip))
  \/ (success r = false /\ action r = manual_intervention
      /\ requiresManualIntervention r = Some true).

(** The event of one execution of a strategy. *)
Definition is_attempt (ev : RecoveryEvent) : bool :=
  match ev with
  | recovery_attempt _ _ _ => true
  | _ => false
  end.

(** The strategy executions among the events of the engine. *)
Definition attempts_made (eng : ErrorRecoveryEngine) : nat :=
  List.length (List.filter is_attempt (recovery_events eng)).

(** A family of properties indexed by a bound on the percentage, with the
    property that holds when a phase has thrown. An update to [p] needs and
    gives the property at [p]; the log may grow by a fault other than
    PERMISSION_DENIED. *)
Record phase_family (P : Q -> Task -> Prop) (T : Task -> Prop) : Prop := {
  fam_stable : forall b, stable (P b);
  fam_weaken : forall b b' t, (b <= b')%Q -> P b t -> P b' t;
  fam_update : forall p u t,
    upd_percentage u = Some p -> P p t -> P p (updateProgress_task u t);
  fam_push : forall b e t,
    error_code e <> "PERMISSION_DENIED" ->
    P b t -> P b (set_job (push_error e (job t)) t);
  fam_throw : forall b t, P b t -> T t;
  thr_stable : stable T;
  thr_push : forall e t, T t -> T (set_job (push_error e (job t)) t);
}.

(** [lo <= x1 <= ... <= xn <= hi] *)
Fixpoint ascending (lo : Q) (l : list Q) (hi : Q) : Prop :=
  match l with
  | [] => (lo <= hi)%Q
  | x :: l' => (lo <= x)%Q /\ ascending x l' hi
  end.

(** The percentage after item [i] of [n] in a band that starts at [base] and
    is [scale] wide. *)
Definition fraction (base scale : Q) (n i : nat) : Q :=
  (base + (inject_Z (Z.of_nat i + 1) / inject_Z (Z.of_nat n)) * scale)%Q.

(** An inequality between two given rationals. *)
Ltac qle := unfold Qle; cbn; lia.

(** The parts of a family, named in the context of a proof. *)
Ltac use_family fam :=
  pose proof (fam_stable _ _ fam) as stable_P;
  pose proof (thr_stable _ _ fam) as stable_T;
  pose proof (fam_weaken _ _ fam) as weaken;
  pose proof (fam_update _ _ fam) as update;
  pose proof (fam_throw _ _ fam) as throws.

(** An executor of the band [lo]-[hi]: it returns with the property at
    [hi] and throws with the property at [lo]. *)
Definition executor_band (P : Q -> Task -> Prop) (lo hi : Q)
    (executor : M unit) : Prop :=
  hoare (P lo) executor (fun _ t => P hi t) (fun _ t => P lo t).

(** The overall percentage of the job of a task. *)
Definition pct (t : Task) : Q := overall_percentage (progress (job t)).

(** Every observation of the job as running shows at most [b]. *)
Definition running_below (b : Q) (tr : list Obs) : Prop :=
  forall o, o ∈ tr -> obs_status o = running -> (obs_percentage o <= b)%Q.

(** Of two observations of the job as running the later one shows at least
    the percentage of the earlier one. *)
Definition monotone_while_running (tr : list Obs) : Prop :=
  forall i j o1 o2,
    (i <= j)%nat -> tr !! i = Some o1 -> tr !! j = Some o2 ->
    obs_status o1 = running -> obs_status o2 = running ->
    (obs_percentage o1 <= obs_percentage o2)%Q.

(** Every observation of the job as completed shows 100. *)
Definition completed_at_100 (tr : list Obs) : Prop :=
  forall o, o ∈ tr -> obs_status o = completed ->
            (obs_percentage o == 100)%Q.

(** What the amended statement on percentages says of a trace. *)
Definition trace_ok (tr : list Obs) : Prop :=
  monotone_while_running tr /\ completed_at_100 tr.

(** While the phases run: the trace is as it should be, a job still running
    shows at least what was observed of it, and the job is running or
    cancelled. *)
Definition TraceInv (t : Task) : Prop :=
  trace_ok (trace t)
  /\ (status (job t) = running -> running_below (pct t) (trace t))
  /\ (status (job t) = running \/ status (job t) = cancelled).

(** A job still running shows at most [b]. *)
Definition Below (b : Q) (t : Task) : Prop :=
  status (job t) = running -> (pct t <= b)%Q.

(** The invariant of the phases, with the bound [b] on the percentage. *)
Definition InBand (b : Q) (t : Task) : Prop := TraceInv t /\ Below b t.

(** The job has failed and the trace is as it should be. *)
Definition FinalFailed (t : Task) : Prop :=
  trace_ok (trace t) /\ status (job t) = failed.

(** The job has failed. *)
Definition Failed (t : Task) : Prop := status (job t) = failed.

(** The job as [startMigration] makes it, before the task has run. *)
Definition Fresh (t : Task) : Prop :=
  trace t = [] /\ overall_percentage (progress (job t)) = 0%Q
  /\ error_log (job t) = [].

(** No fault of the log has the code PERMISSION_DENIED. *)
Definition NoPermission (t : Task) : Prop :=
  forall e, e ∈ error_log (job t) -> error_code e <> "PERMISSION_DENIED".

(** The timers of a trace other than those of [ms0] milliseconds. *)
Definition timers_other_than (ms0 : Z) (tr : list Obs) : list Z :=
  omap (fun o =>
          match obs_event o with
          | suspended (timer ms) => if ms =? ms0 then None else Some ms
          | _ => None
          end) tr.

(** Every observation that shows 100 is of a job that is running, cancelled
    or completed, and comes after the start of the cutover phase. *)
Definition hundred_only_late (tr : list Obs) : Prop :=
  forall i o,
    tr !! i = Some o -> (obs_percentage o == 100)%Q ->
    (obs_status o = running \/ obs_status o = cancelled
     \/ obs_status o = completed)
    /\ exists j o',
         (j < i)%nat /\ tr !! j = Some o'
         /\ obs_event o' = migration_phase_started cutover.

(** The start of the cutover phase was observed. *)
Definition cutover_started (tr : list Obs) : Prop :=
  exists j o', tr !! j = Some o'
               /\ obs_event o' = migration_phase_started cutover.

(** A percentage that is at most [b], or the 0 of a cancelled job. *)
Definition at_most (b x : Q) : Prop := (x <= b)%Q \/ (x == 0)%Q.

(** The job is being worked on: running, or cancelled by a client. *)
Definition at_work (t : Task) : Prop :=
  status (job t) = running \/ status (job t) = cancelled.

(** Before the cutover phase: the job is at work and nothing above [b] has
    been shown, nor is shown now. *)
Definition Early (b : Q) (t : Task) : Prop :=
  (forall o, o ∈ trace t -> at_most b (obs_percentage o))
  /\ at_most b (pct t) /\ at_work t.

(** From the start of the cutover phase on: the job is at work, shows at
    most [b], and what was observed at 100 was observed late. *)
Definition Late (b : Q) (t : Task) : Prop :=
  hundred_only_late (trace t) /\ cutover_started (trace t)
  /\ at_most b (pct t) /\ at_work t.

(** When a phase has thrown: the job is at work and shows at most 95. *)
Definition Short (t : Task) : Prop :=
  hundred_only_late (trace t) /\ at_most 95 (pct t) /\ at_work t.

(** The job has failed and shows at most 95. *)
Definition FailedShort (t : Task) : Prop :=
  hundred_only_late (trace t) /\ at_most 95 (pct t)
  /\ status (job t) = failed.

(** * Sample inputs *)

(** A fault as [createMigrationError] builds it. *)
Definition sample_error : MigrationError :=
  {| err_id := "error_1"; err_timestamp := 1000; err_phase := schema_migration;
     err_severity := high; error_code := "UNKNOWN_ERROR";
     err_message := "Failed to get source database configuration";
     auto_recoverable := false; recovery_attempted := false |}.

(** An engine whose repairs succeed and whose instructions resolve. *)
Definition sample_oracle : RecoveryOracle :=
  {| repair_succeeds := true; instruction_resolves := fun _ => true;
     oracle_attempt_id := fun s => "attempt_" +:+ s;
     oracle_attempt_time := fun _ => 0;
     oracle_attempt_duration := fun _ => 0 |}.

(** The [n]-th request for a checkpoint, made at time [n]. *)
Definition request_n (n : nat) : Recovery.CheckpointRequest :=
  {| Recovery.req_phase := schema_migration;
     Recovery.req_progress := initializeProgress;
     Recovery.req_state := {| state_phase := schema_migration;
                              state_timestamp := Z.of_nat n |};
     Recovery.req_id := "checkpoint_" +:+ pretty n;
     Recovery.req_now := Z.of_nat n |}.


(** The [n]-th of a series of faults with one code, one phase and high
    severity, and the monitor after the first [n] of them. *)
Definition timeout_fault (n : nat) : MigrationError :=
  {| err_id := "error_" +:+ pretty n; err_timestamp := Z.of_nat n;
     err_phase := preparation; err_severity := high;
     error_code := "CONNECTION_TIMEOUT";
     err_message :=
       "Target project failed to become ready within timeout period";
     auto_recoverable := true; recovery_attempted := false |}.

(** The time and the alert identifier at the [n]-th fault. *)
Definition monitor_oracle (n : nat) : MonitorOracle :=
  {| oracle_now := Z.of_nat n;
     oracle_alert_id := fun _ => "alert_" +:+ pretty n |}.

Fixpoint after_faults (n : nat) : ErrorMonitoringSystem :=
  match n with
  | O => Monitoring.new_monitor
  | S n' =>
      Monitoring.recordError (monitor_oracle n) (timeout_fault n) "job_1"
        (after_faults n')
  end.

(** A source project, a configuration with the given number of threads,
    and the options of a submission with it. *)
Definition sample_project : SupabaseProject :=
  {| project_id := "source-project"; project_ref := "abcdefghijklmnop";
     project_status := "ACTIVE_HEALTHY" |}.

Definition sample_configuration (threads : Z) : MigrationConfiguration :=
  {| clone_type := "full_clone"; target_region := "us-east-1";
     target_compute_tier := "micro"; parallel_threads := threads;
     batch_size := 1000; enable_compression := false;
     data_filters := None; exclude_tables := None;
     include_storage := true; include_edge_functions := true;
     include_auth_config := false; preserve_user_data := false |}.

Definition sample_options (threads : Z) : MigrationJobOptions :=
  {| sourceProject := sample_project; targetProjectName := "clone-1";
     targetRegion := "us-east-1"; targetTier := "free";
     opt_configuration := sample_configuration threads;
     organizationId := "123e4567-e89b-42d3-a456-426614174000" |}.

(** The [n]-th running job of the sample organization. *)
Definition running_job (n : nat) : MigrationJob :=
  set_status running (new_job (sample_options 4) ("migration_" +:+ pretty n)
                        (Z.of_nat n)).

(** A registry with five running jobs of the sample organization. *)
Definition busy_registry : gmap string MigrationJob :=
  list_to_map (List.map (fun n => (job_id (running_job n), running_job n))
                 (seq 1 5)).

(** The two shapes of a response of the management API. *)
Definition ok_response {T : Type} (d : T) : APIResponse T :=
  {| api_success := true; api_data := Some d; api_error := None |}.

Definition failed_response {T : Type} (msg : string) : APIResponse T :=
  {| api_success := false; api_data := None; api_error := Some msg |}.

(** A world in which every collaborator succeeds; [cancel_at] tells the
    places at which a client cancels, [created] and [polled] are the
    responses to [createProject] and [getProject]. *)
Definition world (cancel_at : nat -> bool)
    (created polled : APIResponse SupabaseProject) : Env :=
  {| env_time := fun k => 1000 * Z.of_nat k;
     env_cancel := cancel_at;
     env_id := fun k => "id_" +:+ pretty k;
     env_alert_id := fun k _ => "alert_" +:+ pretty k;
     env_recovery := fun _ => sample_oracle;
     env_createProject := fun _ => created;
     env_getProject := fun _ => polled;
     env_getDatabaseConfig := fun _ => ok_response tt;
     env_getCompleteSchema := fun _ => inr 4%nat;
     env_getStorageBuckets := fun _ =>
       ok_response [ {| bucket_name := "avatars"; object_count := 3 |};
                     {| bucket_name := "files"; object_count := 4 |} ];
     env_getProjectConfig := fun _ => ok_response tt;
     env_getEdgeFunctions := fun _ => ok_response [ {| slug := "hello" |} ];
     env_getEdgeFunction := fun _ => ok_response tt;
     env_validation_fails := fun _ => false |}.

(** No client cancels. *)
Definition never (k : nat) : bool := false.

(** The target project as [getProject] reports it: ready, or still coming
    up. *)
Definition healthy : APIResponse SupabaseProject :=
  ok_response {| project_id := "target-project";
                 project_ref := "qrstuvwxyzabcdef";
                 project_status := "ACTIVE_HEALTHY" |}.

Definition coming_up : APIResponse SupabaseProject :=
  ok_response {| project_id := "target-project";
                 project_ref := "qrstuvwxyzabcdef";
                 project_status := "COMING_UP" |}.

(** The task of the job migration_1 when its background work begins. *)
Definition first_task : Task :=
  task_of (new_job (sample_options 4) "migration_1" 0) Recovery.new_engine
    Monitoring.new_monitor 0.

(** The runs of that task: with every collaborator succeeding; with a
    client cancelling at the first suspension after the start; with a target
    project that never becomes ready. *)
Definition smooth_run : Task :=
  (backgroundTask (sample_options 4) (world never healthy healthy)
     first_task).2.

Definition cancelled_run : Task :=
  (backgroundTask (sample_options 4)
     (world (fun k => (k =? 1)%nat) healthy healthy) first_task).2.

Definition timeout_run : Task :=
  (backgroundTask (sample_options 4) (world never healthy coming_up)
     first_task).2.

(** The job migration_1 as submitted, still pending. *)
Definition waiting_job : MigrationJob :=
  new_job (sample_options 4) "migration_1" 0.

(** The creation of the target project is refused for lack of permission. *)
Definition denied_world : Env :=
  world never (failed_response "permission denied for organization") healthy.

(** A store in which job_1 has the three checkpoints 1 to 3. *)
Definition small_store : ErrorRecoveryEngine :=
  Recovery.create_all Recovery.new_engine "job_1"
    (List.map request_n (seq 1 3)).

(** Every instruction resolves; every instruction but the removal of the
    database extensions resolves. *)
Definition always (instruction : string) : bool := true.

Definition all_but_extensions (instruction : string) : bool :=
  negb (String.eqb instruction "Remove database extensions").

(** * Further code of the security utilities *)

(** The code units below 256 that [String.prototype.trim] strips and that
    [\s] matches: tab, line feed, vertical tab, form feed, carriage return,
    space and no-break space. *)
Definition is_space (c : ascii) : bool :=
  ((9 <=? code c) && (code c <=? 13) || (code c =? 32) || (code c =? 160))%N.

(** [s.replace(/[...]/g, '')] for a class of code units: the code units of
    [s] outside the class. *)
Fixpoint remove_class (p : ascii -> bool) (s : string) : string :=
  match s with
  | EmptyString => EmptyString
  | String c rest =>
      if p c then remove_class p rest else String c (remove_class p rest)
  end.

Fixpoint trimStart (s : string) : string :=
  match s with
  | EmptyString => EmptyString
  | String c rest => if is_space c then trimStart rest else s
  end.

Fixpoint trimEnd (s : string) : string :=
  match s with
  | EmptyString => EmptyString
  | String c rest =>
      match trimEnd rest with
      | EmptyString => if is_space c then EmptyString else String c EmptyString
      | kept => String c kept
      end
  end.

(** [s.trim()] *)
Definition trim (s : string) : string := trimEnd (trimStart s).

(** [s.slice(0, n)] *)
Fixpoint slice_to (n : nat) (s : string) : string :=
  match n, s with
  | S n', String c rest => String c (slice_to n' rest)
  | _, _ => EmptyString
  end.

(** [SecurityManager.sanitizeInput] *)
Definition sanitizeInput (input : string) : string :=
  slice_to 1000
    (trim
       (remove_class (fun c => Ascii.eqb c "'" || Ascii.eqb c "034")
          (remove_class (fun c => Ascii.eqb c "<" || Ascii.eqb c ">")
             input))).

(** Regular expressions over code units, with the operators the pattern of
    [isValidEmail] is written in. *)
Inductive Regex :=
  | ReNone
  | ReEmpty
  | ReClass (p : ascii -> bool)
  | ReCat (r1 r2 : Regex)
  | ReAlt (r1 r2 : Regex)
  | ReStar (r : Regex).

(** [r+] *)
Definition RePlus (r : Regex) : Regex := ReCat r (ReStar r).

(** [r] matches the empty string. *)
Fixpoint nullable (r : Regex) : bool :=
  match r with
  | ReNone => false
  | ReEmpty => true
  | ReClass _ => false
  | ReCat r1 r2 => nullable r1 && nullable r2
  | ReAlt r1 r2 => nullable r1 || nullable r2
  | ReStar _ => true
  end.

(** What is left of [r] to match once [c] is read. *)
Fixpoint derive (c : ascii) (r : Regex) : Regex :=
  match r with
  | ReNone => ReNone
  | ReEmpty => ReNone
  | ReClass p => if p c then ReEmpty else ReNone
  | ReCat r1 r2 =>
      if nullable r1
      then ReAlt (ReCat (derive c r1) r2) (derive c r2)
      else ReCat (derive c r1) r2
  | ReAlt r1 r2 => ReAlt (derive c r1) (derive c r2)
  | ReStar r1 => ReCat (derive c r1) (ReStar r1)
  end.

(** [/^r$/.test(s)] *)
Fixpoint test_whole (r : Regex) (s : string) : bool :=
  match s with
  | EmptyString => nullable r
  | String c rest => test_whole (derive c r) rest
  end.

(** [[^\s@]] *)
Definition not_space_or_at (c : ascii) : bool :=
  negb (is_space c || Ascii.eqb c "@").

(** [/^[^\s@]+@[^\s@]+\.[^\s@]+$/] *)
Definition emailRegex : Regex :=
  ReCat (RePlus (ReClass not_space_or_at))
    (ReCat (ReClass (Ascii.eqb "@"))
       (ReCat (RePlus (ReClass not_space_or_at))
          (ReCat (ReClass (Ascii.eqb "."))
             (RePlus (ReClass not_space_or_at))))).

(** [InputValidator.isValidEmail] *)
Definition isValidEmail (email : string) : bool :=
  test_whole emailRegex email && (String.length email <=? 254)%nat.

(** The declarative reading of a regular expression. *)
Inductive Matches : Regex -> string -> Prop :=
  | match_empty : Matches ReEmpty EmptyString
  | match_class p c : p c = true -> Matches (ReClass p) (String c EmptyString)
  | match_cat r1 r2 s1 s2 :
      Matches r1 s1 -> Matches r2 s2 -> Matches (ReCat r1 r2) (s1 +:+ s2)
  | match_alt_l r1 r2 s : Matches r1 s -> Matches (ReAlt r1 r2) s
  | match_alt_r r1 r2 s : Matches r2 s -> Matches (ReAlt r1 r2) s
  | match_star_nil r : Matches (ReStar r) EmptyString
  | match_star_cons r s1 s2 :
      Matches r s1 -> Matches (ReStar r) s2 -> Matches (ReStar r) (s1 +:+ s2).

Module RateLimiter.

(** An entry of the static map [requests]. *)
Record Entry := {
  count : Z;
  resetTime : Z;
}.

Record Result := {
  allowed : bool;
  remaining : Z;
  result_resetTime : Z;
}.

(** [checkRateLimit(identifier, maxRequests, windowMs)] at the time [now]
    that [Date.now()] gives: the result and the map afterwards. *)
Definition checkRateLimit (requests : gmap string Entry)
    (identifier : string) (maxRequests windowMs now : Z)
  : Result * gmap string Entry :=
  let '(requestData, requests1) :=
    match requests !! identifier with
    | Some d =>
        if resetTime d <? now
        then
          let fresh := {| count := 0; resetTime := now + windowMs |} in
          (fresh, <[identifier := fresh]> requests)
        else (d, requests)
    | None =>
        let fresh := {| count := 0; resetTime := now + windowMs |} in
        (fresh, <[identifier := fresh]> requests)
    end in
  if maxRequests <=? count requestData then
    ({| allowed := false; remaining := 0;
        result_resetTime := resetTime requestData |}, requests1)
  else
    let counted :=
      {| count := count requestData + 1;
         resetTime := resetTime requestData |} in
    ({| allowed := true; remaining := maxRequests - count counted;
        result_resetTime := resetTime counted |},
     <[identifier := counted]> requests1).

(** [cleanup()] at the time [now] *)
Definition cleanup (requests : gmap string Entry) (now : Z)
  : gmap string Entry :=
  filter (fun kd => negb (resetTime kd.2 <? now) = true) requests.

(** The calls [checkRateLimit(identifier, maxRequests, windowMs)] made at the
    given times, one after the other: the results and the map afterwards. *)
Fixpoint check_all (requests : gmap string Entry) (identifier : string)
    (maxRequests windowMs : Z) (times : list Z)
  : list Result * gmap string Entry :=
  match times with
  | [] => ([], requests)
  | now :: later =>
      let '(r, requests1) :=
        checkRateLimit requests identifier maxRequests windowMs now in
      let '(rs, requests2) :=
        check_all requests1 identifier maxRequests windowMs later in
      (r :: rs, requests2)
  end.

End RateLimiter.

(** The code unit before the end of [pre], if any, is no word character;
    before an empty [pre] stands what [prev_word] tells. *)
Fixpoint boundary_after (prev_word : bool) (pre : string) : bool :=
  match pre with
  | EmptyString => negb prev_word
  | String c rest => boundary_after (is_word c) rest
  end.

(** * Vocabulary of the further statements *)

(** The test [project.success && project.data?.status === 'ACTIVE_HEALTHY']
    of [waitForProjectReady]. *)
Definition project_ready (project : APIResponse SupabaseProject) : bool :=
  api_success project
  && match api_data project with
     | Some d => String.eqb (project_status d) "ACTIVE_HEALTHY"
     | None => false
     end.

(** The timers among the observations, in milliseconds. *)
Definition timers (tr : list Obs) : list Z :=
  omap (fun o =>
          match obs_event o with
          | suspended (timer ms) => Some ms
          | _ => None
          end) tr.

(** The phases whose start was observed, in the order of the events. *)
Definition starts (tr : list Obs) : list MigrationPhase :=
  omap (fun o =>
          match obs_event o with
          | migration_phase_started phase => Some phase
          | _ => None
          end) tr.

(** What identifies the job and its plan: the id, the organization, the
    source project, the configuration and the names of its phases. *)
Definition same_frame (t t' : Task) : Prop :=
  job_id (job t') = job_id (job t)
  /\ organization_id (job t') = organization_id (job t)
  /\ source_project_id (job t') = source_project_id (job t)
  /\ configuration (job t') = configuration (job t)
  /\ List.map pe_name (phases (progress (job t')))
     = List.map pe_name (phases (progress (job t))).

(** Besides, the logged faults and the observed phase starts are the same. *)
Definition same_core (t t' : Task) : Prop :=
  same_frame t t'
  /\ error_log (job t') = error_log (job t)
  /\ starts (trace t') = starts (trace t).

(** Code that leaves the core of the task as it finds it, however it ends. *)
Definition keeps {A : Type} (m : M A) : Prop :=
  forall env t, same_core t (m env t).2.

(** The phases [executeMigration] runs for the given options, in order. *)
Definition planned_phases (options : MigrationJobOptions)
  : list MigrationPhase :=
  [preparation; schema_migration]
  ++ (if negb (String.eqb (clone_type (opt_configuration options))
                 "schema_only")
      then [data_migration] else [])
  ++ (if include_storage (opt_configuration options)
      then [storage_migration] else [])
  ++ [configuration_migration]
  ++ (if include_edge_functions (opt_configuration options)
      then [edge_functions_migration] else [])
  ++ [security_migration; realtime_setup; validation; cutover].

(** The phase starts of a run that starts each of [phases] as often as
    [counts] tells, one phase after the other. *)
Definition attempts_of (phases : list MigrationPhase) (counts : list nat)
  : list MigrationPhase :=
  concat (zip_with (fun phase n => replicate n phase) phases counts).

(** From [t] to [t'] the phase [phase] was started [n] times and [k] faults
    of that phase were logged; nothing else of the core changed. *)
Definition grows (phase : MigrationPhase) (n k : nat) (t t' : Task) : Prop :=
  same_frame t t'
  /\ starts (trace t') = starts (trace t) ++ replicate n phase
  /\ exists errs,
       error_log (job t') = error_log (job t) ++ errs
       /\ List.length errs = k
       /\ Forall (fun e => err_phase e = phase) errs.

(** An event other than the start of a phase. *)
Definition quiet (ev : Event) : Prop :=
  match ev with
  | migration_phase_started _ => False
  | _ => True
  end.

(** From [t] to [t'] the phases of [phases] were started one after the other,
    the i-th of them [counts !! i] times, between one and four, and at most
    one fault was logged for each start, each for one of [phases]; the frame
    of the job is the same. *)
Definition course (phases : list MigrationPhase) (counts : list nat)
    (t t' : Task) : Prop :=
  same_frame t t'
  /\ starts (trace t') = starts (trace t) ++ attempts_of phases counts
  /\ (List.length counts <= List.length phases)%nat
  /\ Forall (fun n => (1 <= n <= 4)%nat) counts
  /\ exists errs,
       error_log (job t') = error_log (job t) ++ errs
       /\ (List.length errs <= sum_list counts)%nat
       /\ Forall (fun e => err_phase e ∈ phases) errs.

(** Code that takes the course of [phases], all of them when it returns and
    the first of them when it throws. *)
Definition runs (phases : list MigrationPhase) (m : M unit) : Prop :=
  forall env t,
    exists counts,
      course phases counts t (m env t).2
      /\ match (m env t).1 with
         | Returned _ => List.length counts = List.length phases
         | Threw _ => True
         end.

(** A string that begins with no white space. *)
Definition starts_black (s : string) : Prop :=
  match s with
  | EmptyString => True
  | String c _ => is_space c = false
  end.

Definition markup (c : ascii) : bool :=
  Ascii.eqb c "<" || Ascii.eqb c ">" || Ascii.eqb c "'" || Ascii.eqb c "034".

(** What the call number [k] (from 0) of a window that ends at [reset]
    returns. *)
Definition nth_result (maxRequests reset k : Z) : RateLimiter.Result :=
  if k <? maxRequests
  then {| RateLimiter.allowed := true;
          RateLimiter.remaining := maxRequests - k - 1;
          RateLimiter.result_resetTime := reset |}
  else {| RateLimiter.allowed := false;
          RateLimiter.remaining := 0;
          RateLimiter.result_resetTime := reset |}.

(** The entry of [identifier] is absent or its window is over at [now]. *)
Definition window_over (requests : gmap string RateLimiter.Entry)
    (identifier : string) (now : Z) : Prop :=
  match requests !! identifier with
  | Some d => RateLimiter.resetTime d < now
  | None => True
  end.

(** A checkpoint as [createCheckpoint] stores it for the job [j]. *)
Definition kept_checkpoint (j : string) (cp : Checkpoint) : Prop :=
  cp_jobId cp = j
  /\ canRollback cp = Recovery.canRollbackFromPhase (cp_phase cp)
  /\ rollbackInstructions cp
     = Recovery.generateRollbackInstructions (cp_phase cp) (cp_state cp).

(** A recovery context as [handleError] stores it for the job [j]. *)
Definition kept_context (j : string) (c : RecoveryContext) : Prop :=
  ctx_job c = j
  /\ (1 <= attemptNumber c)%nat
  /\ List.length (errorHistory c) = attemptNumber c.

Definition well_kept (eng : ErrorRecoveryEngine) : Prop :=
  (forall j cps,
     checkpoints eng !! j = Some cps ->
     cps <> [] /\ (List.length cps <= 10)%nat
     /\ Forall (kept_checkpoint j) cps)
  /\ (forall j c, activeRecoveries eng !! j = Some c -> kept_context j c).

(** Two engines hold the same checkpoints for the job [j]. *)
Definition same_checkpoints (j : string) (e1 e2 : ErrorRecoveryEngine)
  : Prop :=
  checkpoints e1 !! j = checkpoints e2 !! j.

(** The engine [e'] holds for the job [j] what [e] holds. *)
Definition untouched (j : string) (e e' : ErrorRecoveryEngine) : Prop :=
  checkpoints e' !! j = checkpoints e !! j
  /\ activeRecoveries e' !! j = activeRecoveries e !! j.

(** A call [checkRateLimit(identifier, maxRequests, windowMs)] and the time
    [Date.now()] gives in it. *)
Record RateCall := {
  call_identifier : string;
  call_maxRequests : Z;
  call_windowMs : Z;
  call_now : Z;
}.

(** The given calls made one after the other: the results and the map
    afterwards. *)
Fixpoint check_calls (requests : gmap string RateLimiter.Entry)
    (calls : list RateCall)
  : list RateLimiter.Result * gmap string RateLimiter.Entry :=
  match calls with
  | [] => ([], requests)
  | c :: later =>
      let '(r, requests1) :=
        RateLimiter.checkRateLimit requests (call_identifier c)
          (call_maxRequests c) (call_windowMs c) (call_now c) in
      let '(rs, requests2) := check_calls requests1 later in
      (r :: rs, requests2)
  end.

(** Two maps hold the same entries but for entries whose window is over at
    [now]. *)
Definition same_live_entries (now : Z)
    (requests1 requests2 : gmap string RateLimiter.Entry) : Prop :=
  forall k,
    requests1 !! k = requests2 !! k
    \/ (window_over requests1 k now /\ window_over requests2 k now).

(** An integer that a double holds exactly: its magnitude is at most
    [Number.MAX_SAFE_INTEGER]. *)
Definition safe_integer (z : Z) : Prop := Z.abs z <= 2 ^ 53 - 1.

(** Every number [calculateBackoffDelay] reads or computes for the attempt
    is a safe integer: the two delays of the strategy, the attempt number
    and, by the scheme, the product or the power of two and the product with
    it. There the arithmetic of the doubles is that of the integers. *)
Definition exact_backoff (strategy : RecoveryStrategy) (attemptNumber : nat)
  : Prop :=
  safe_integer (baseDelay strategy)
  /\ safe_integer (maxDelay strategy)
  /\ safe_integer (Z.of_nat attemptNumber)
  /\ match backoffStrategy strategy with
     | linear => safe_integer (baseDelay strategy * Z.of_nat attemptNumber)
     | exponential =>
         (1 <= attemptNumber)%nat
         /\ safe_integer (2 ^ (Z.of_nat attemptNumber - 1))
         /\ safe_integer
              (baseDelay strategy * 2 ^ (Z.of_nat attemptNumber - 1))
     | fixed => True
     end.

(** * Properties of the recovery engine *)

Section handleError_facts.
Context (o : RecoveryOracle) (eng : ErrorRecoveryEngine) (jobId : string)
        (e : MigrationError) (phase : MigrationPhase).

Lemma applicable_graceful c :
  c = "OPTIONAL_COMPONENT_ERROR" \/ c = "FEATURE_NOT_SUPPORTED" ->
  exists s, Recovery.findApplicableStrategies (fault c e) = [s]
            /\ maxRetries s = 0%nat.
Proof. intros [-> | ->]; eexists; split; reflexivity. Qed.

Lemma applicable_none c :
  c = "RESOURCE_NOT_FOUND" \/ c = "UNKNOWN_ERROR" ->
  Recovery.findApplicableStrategies (fault c e) = [].
Proof. intros [-> | ->]; reflexivity. Qed.

Lemma handleError_graceful c :
  c = "OPTIONAL_COMPONENT_ERROR" \/ c = "FEATURE_NOT_SUPPORTED" ->
  (Recovery.handleError o eng jobId (fault c e) phase).1.1
  = Recovery.all_failed_result.
Proof.
  intros Hc. destruct (applicable_graceful c Hc) as (s & Hs & Hmax).
  unfold Recovery.handleError. rewrite Hs. cbn [List.length Nat.eqb].
  cbn [Recovery.try_strategies]. rewrite Hmax.
  cbn [Recovery.emit activeRecoveries].
  destruct (activeRecoveries eng !! jobId); reflexivity.
Qed.

End handleError_facts.

(** C3 (the code departs from the claim). For a fault whose code is
    OPTIONAL_COMPONENT_ERROR or FEATURE_NOT_SUPPORTED, [handleError] never
    returns the skip decision of the graceful-degradation strategy: the
    strategy has [maxRetries = 0], the attempt counter starts at 1, and the
    guard [attemptNumber > maxRetries] passes over the strategy, so the
    decision is "All recovery strategies failed", manual intervention. *)
Theorem graceful_degradation_is_passed_over :
  forall (o : RecoveryOracle) (eng : ErrorRecoveryEngine) (jobId : string)
         (e : MigrationError) (phase : MigrationPhase),
    let decision c := (Recovery.handleError o eng jobId (fault c e) phase).1.1 in
    decision "OPTIONAL_COMPONENT_ERROR" = Recovery.all_failed_result
    /\ decision "FEATURE_NOT_SUPPORTED" = Recovery.all_failed_result
    /\ action (decision "OPTIONAL_COMPONENT_ERROR") = manual_intervention
    /\ action (decision "FEATURE_NOT_SUPPORTED") = manual_intervention.
Proof.
  intros o eng jobId e phase decision. unfold decision.
  rewrite !handleError_graceful by auto. auto.
Qed.

(** ** The keyword classifier *)

Lemma determineErrorCode_range error :
  determineErrorCode error ∈ classifier_codes.
Proof.
  unfold classifier_codes.
  destruct error as [m | text]; cbn [determineErrorCode];
    repeat case_match; set_solver.
Qed.

Lemma determineErrorCode_fallback m :
  (forall kw, kw ∈ classifier_keywords -> includes m kw = false) ->
  determineErrorCode (ErrorObj m) = "UNKNOWN_ERROR".
Proof.
  intros H. cbn [determineErrorCode].
  rewrite !H by (unfold classifier_keywords; set_solver). reflexivity.
Qed.

Lemma unhandled_codes c :
  c = "RESOURCE_NOT_FOUND" \/ c = "UNKNOWN_ERROR" ->
  forall s, s ∈ Recovery.recoveryStrategies -> c ∉ applicableErrors s.
Proof.
  intros Hc. apply Forall_forall.
  destruct Hc as [-> | ->]; repeat constructor; not_in_list.
Qed.

Lemma handleError_unhandled o eng jobId e phase c :
  c = "RESOURCE_NOT_FOUND" \/ c = "UNKNOWN_ERROR" ->
  Recovery.handleError o eng jobId (fault c e) phase
  = (Recovery.no_strategy_result, [],
     Recovery.emit (recovery_started jobId c phase) eng).
Proof.
  intros Hc. unfold Recovery.handleError.
  rewrite (applicable_none e c Hc). reflexivity.
Qed.

(** C10. The classifier of the orchestrator returns one of six codes and
    falls back to UNKNOWN_ERROR when the message holds none of its keywords
    (or the thrown value is no [Error]); no registered strategy lists
    RESOURCE_NOT_FOUND or UNKNOWN_ERROR, and on a fault with either code
    [handleError] returns the manual-intervention decision "No recovery
    strategy available" having run no strategy: no timer is awaited and the
    engine only gains the [recovery:started] event. Each of the six codes is
    returned for some thrown value. *)
Theorem classifier_and_unhandled_codes :
  (forall error, determineErrorCode error ∈ classifier_codes)
  /\ (forall m,
        (forall kw, kw ∈ classifier_keywords -> includes m kw = false) ->
        determineErrorCode (ErrorObj m) = "UNKNOWN_ERROR")
  /\ (forall text, determineErrorCode (OtherValue text) = "UNKNOWN_ERROR")
  /\ (forall c s,
        c = "RESOURCE_NOT_FOUND" \/ c = "UNKNOWN_ERROR" ->
        s ∈ Recovery.recoveryStrategies -> c ∉ applicableErrors s)
  /\ (forall o eng jobId e phase c,
        c = "RESOURCE_NOT_FOUND" \/ c = "UNKNOWN_ERROR" ->
        Recovery.handleError o eng jobId (fault c e) phase
        = (Recovery.no_strategy_result, [],
           Recovery.emit (recovery_started jobId c phase) eng))
  /\ action Recovery.no_strategy_result = manual_intervention
  /\ (forall c, c ∈ classifier_codes ->
                exists error, determineErrorCode error = c).
Proof.
  split; [exact determineErrorCode_range |].
  split; [exact determineErrorCode_fallback |].
  split; [reflexivity |].
  split; [intros c s Hc; exact (unhandled_codes c Hc s) |].
  split; [intros; by apply handleError_unhandled |].
  split; [reflexivity |].
  intros c Hc. unfold classifier_codes in Hc.
  repeat (apply elem_of_cons in Hc as [-> | Hc]).
  - by exists (ErrorObj "Request timeout").
  - by exists (ErrorObj "permission denied").
  - by exists (ErrorObj "Name conflict").
  - by exists (ErrorObj "Project not found").
  - by exists (ErrorObj "network unreachable").
  - by exists (OtherValue "undefined").
  - by apply elem_of_nil in Hc.
Qed.

Lemma classifier_and_unhandled_codes_witness :
  determineErrorCode
    (ErrorObj "Failed to get source database configuration")
  = "UNKNOWN_ERROR"
  /\ ("UNKNOWN_ERROR" ∉ applicableErrors
       ({| strategy_id := "connection-retry";
          strategy_name := "Connection Retry";
          strategy_description :=
            "Retry operations that failed due to connection issues";
          applicableErrors :=
            ["CONNECTION_TIMEOUT"; "CONNECTION_REFUSED"; "NETWORK_ERROR"];
          maxRetries := 5; backoffStrategy := exponential;
          baseDelay := 1000; maxDelay := 30000;
          execute := ConnectionRetry |}))
  /\ (Recovery.handleError sample_oracle Recovery.new_engine "job_1"
        (fault "UNKNOWN_ERROR" sample_error) schema_migration).1.1
     = Recovery.no_strategy_result.
Proof.
  destruct classifier_and_unhandled_codes as (_ & Hfb & _ & Hno & Hh & _).
  split.
  - apply Hfb. intros kw Hkw. unfold classifier_keywords in Hkw.
    repeat (apply elem_of_cons in Hkw as [-> | Hkw]); try reflexivity.
    inversion Hkw.
  - split.
    + apply Hno; [by right |]. apply list_elem_of_here.
    + rewrite Hh by (by right). reflexivity.
Defined.

(** ** The checkpoint store *)

Section checkpoint_facts.
Import Recovery.

Lemma getJobCheckpoints_set jobId l eng j :
  getJobCheckpoints (set_checkpoints jobId l eng) j
  = if decide (jobId = j) then l else getJobCheckpoints eng j.
Proof.
  unfold getJobCheckpoints, set_checkpoints. cbn [checkpoints].
  rewrite lookup_insert. by case_decide.
Qed.


Lemma shrinks_refl eng : shrinks eng eng.
Proof. intros j. lia. Qed.

Lemma shrinks_trans e1 e2 e3 : shrinks e1 e2 -> shrinks e2 e3 -> shrinks e1 e3.
Proof. intros H1 H2 j. specialize (H1 j). specialize (H2 j). lia. Qed.

Lemma shrinks_same e e' : checkpoints e' = checkpoints e -> shrinks e e'.
Proof. intros H j. unfold getJobCheckpoints. rewrite H. lia. Qed.

Lemma rollbackToCheckpoint_shrinks resolves eng jobId checkpointId :
  shrinks eng (rollbackToCheckpoint resolves eng jobId checkpointId).2.
Proof.
  unfold rollbackToCheckpoint.
  destruct (checkpoints eng !! jobId) as [cps |] eqn:Hcps;
    [| apply shrinks_refl].
  destruct (List.find _ cps) as [cp |]; [| apply shrinks_refl].
  destruct (canRollback cp); cbn [negb]; [| apply shrinks_refl].
  destruct (run_instructions resolves (rollbackInstructions cp)) as [w [|]];
    cbn [snd]; [| by apply shrinks_same].
  destruct (findIndex cps checkpointId) as [i |]; [| by apply shrinks_same].
  intros j.
  change (getJobCheckpoints (emit ?ev ?e) j) with (getJobCheckpoints e j).
  rewrite getJobCheckpoints_set.
  change (getJobCheckpoints (emit ?ev ?e) j) with (getJobCheckpoints e j).
  case_decide as Hj; [| lia]. subst j.
  unfold getJobCheckpoints. rewrite Hcps. cbn [from_option id].
  rewrite length_take. lia.
Qed.

Lemma run_executor_shrinks x o error context eng :
  shrinks eng (run_executor x o error context eng).2.
Proof.
  destruct x; cbn [run_executor snd]; try apply shrinks_refl.
  unfold executePartialRollback.
  destruct (checkpoints eng !! ctx_job context) as [[| c cs] |];
    try apply shrinks_refl.
  pose proof (rollbackToCheckpoint_shrinks (instruction_resolves o) eng
                (ctx_job context) (cp_id (List.last cs c))) as H.
  destruct (rollbackToCheckpoint _ _ _ _) as [[ok w] eng']. exact H.
Qed.

Lemma try_strategies_shrinks o jobId error strategies :
  forall context waits eng,
    shrinks eng
      (try_strategies o jobId error context strategies waits eng).2.
Proof.
  induction strategies as [| s rest IH]; intros context waits eng;
    cbn [try_strategies].
  - by apply shrinks_same.
  - case_match; [apply IH |].
    pose proof (run_executor_shrinks (execute s) o error context eng) as Hx.
    destruct (run_executor _ _ _ _ _) as [[result w] eng1]. cbn [snd] in Hx.
    repeat case_match; cbn [snd].
    + eapply shrinks_trans; [exact Hx | by apply shrinks_same].
    + eapply shrinks_trans; [exact Hx | by apply shrinks_same].
    + eapply shrinks_trans; [exact Hx |].
      eapply shrinks_trans; [| apply IH]. by apply shrinks_same.
Qed.

Lemma handleError_shrinks o eng jobId error phase :
  shrinks eng (handleError o eng jobId error phase).2.
Proof.
  unfold handleError. case_match; cbn [snd]; [by apply shrinks_same |].
  eapply shrinks_trans; [| apply try_strategies_shrinks].
  by apply shrinks_same.
Qed.









(** ** Rollback *)

Lemma findIndex_spec l checkpointId :
  match findIndex l checkpointId with
  | Some i =>
      exists cp,
        l !! i = Some cp
        /\ cp_id cp = checkpointId
        /\ List.find (has_id checkpointId) l = Some cp
        /\ findIndex (take (i + 1) l) checkpointId = Some i
        /\ List.find (has_id checkpointId) (take (i + 1) l) = Some cp
  | None => List.find (has_id checkpointId) l = None
  end.
Proof.
  induction l as [| c l IH]; cbn [findIndex List.find]; [done |].
  destruct (has_id checkpointId c) eqn:Hc.
  - exists c. cbn [take Nat.add lookup list_lookup findIndex List.find].
      rewrite Hc. by apply String.eqb_eq in Hc.
  - destruct (findIndex l checkpointId) as [i |];
      cbn [fmap option_fmap option_map]; [| exact IH].
    destruct IH as (cp & H1 & H2 & H3 & H4 & H5). exists cp.
    cbn [take Nat.add lookup list_lookup findIndex List.find].
      rewrite Hc, H4. by cbn.
Qed.

Lemma run_instructions_all resolves l :
  (forall i, i ∈ l -> resolves i = true) ->
  (run_instructions resolves l).2 = true.
Proof.
  induction l as [| x l IH]; intros H; cbn [run_instructions]; [done |].
  rewrite H by apply list_elem_of_here.
  destruct (run_instructions resolves l) as [w ok] eqn:Hr. cbn [snd] in *.
  apply IH. intros i Hi. apply H. by apply list_elem_of_further.
Qed.

Lemma run_instructions_some resolves l i :
  i ∈ l -> resolves i = false -> (run_instructions resolves l).2 = false.
Proof.
  induction l as [| x l IH]; intros Hi Hf; [by apply elem_of_nil in Hi |].
  cbn [run_instructions]. destruct (resolves x) eqn:Hx; [| done].
  apply elem_of_cons in Hi as [-> | Hi]; [congruence |].
  destruct (run_instructions resolves l) as [w ok] eqn:Hr. cbn [snd] in *.
  by apply IH.
Qed.

Lemma rollbackToCheckpoint_true resolves eng jobId checkpointId waits eng' :
  rollbackToCheckpoint resolves eng jobId checkpointId = (true, waits, eng') ->
  exists cps i cp,
    checkpoints eng !! jobId = Some cps
    /\ findIndex cps checkpointId = Some i
    /\ cps !! i = Some cp
    /\ cp_id cp = checkpointId
    /\ canRollback cp = true
    /\ checkpoints eng' = <[jobId := take (i + 1) cps]> (checkpoints eng).
Proof.
  unfold rollbackToCheckpoint.
  destruct (checkpoints eng !! jobId) as [cps |] eqn:Hcps; [| done].
  pose proof (findIndex_spec cps checkpointId) as Hspec.
  destruct (findIndex cps checkpointId) as [i |] eqn:Hi.
  - destruct Hspec as (cp & H1 & H2 & H3 & _). rewrite H3.
    destruct (canRollback cp) eqn:Hcan; cbn [negb]; [| done].
    destruct (run_instructions resolves (rollbackInstructions cp))
      as [w [|]]; [| done].
    intros [= <- <-]. exists cps, i, cp. repeat (split; [done |]).
    reflexivity.
  - by rewrite Hspec.
Qed.

Lemma rollbackToCheckpoint_again resolves eng jobId checkpointId cps i :
  checkpoints eng !! jobId = Some (take (i + 1) cps) ->
  findIndex cps checkpointId = Some i ->
  checkpoints (rollbackToCheckpoint resolves eng jobId checkpointId).2
  = checkpoints eng.
Proof.
  intros Hcps Hi. unfold rollbackToCheckpoint. rewrite Hcps.
  pose proof (findIndex_spec cps checkpointId) as Hspec. rewrite Hi in Hspec.
  destruct Hspec as (cp & _ & _ & _ & H4 & H5). rewrite H5, H4.
  destruct (canRollback cp); cbn [negb]; [| done].
  destruct (run_instructions resolves (rollbackInstructions cp))
    as [w [|]]; [| done].
  cbn [snd emit set_checkpoints checkpoints].
  rewrite take_take, Nat.min_id. by apply insert_id.
Qed.

(** C8. A rollback that succeeds was aimed at a rollback-eligible checkpoint
    of the job (the first one with the given id) and leaves the job's
    checkpoints up to and including it, discarding every later one; rolling
    back to it once more, whatever the instructions then do, leaves the
    store as it is; a rollback to an eligible checkpoint one of whose
    instructions fails returns false and keeps the store; and one whose
    instructions all resolve succeeds. *)
Theorem rollback_discards_later_checkpoints :
  (forall resolves eng jobId checkpointId waits eng',
     rollbackToCheckpoint resolves eng jobId checkpointId
     = (true, waits, eng') ->
     exists cps i cp,
       checkpoints eng !! jobId = Some cps
       /\ findIndex cps checkpointId = Some i
       /\ cps !! i = Some cp
       /\ cp_id cp = checkpointId
       /\ canRollback cp = true
       /\ getJobCheckpoints eng' jobId = take (i + 1) cps
       /\ (forall j, j <> jobId ->
             getJobCheckpoints eng' j = getJobCheckpoints eng j)
       /\ (forall resolves2,
             checkpoints
               (rollbackToCheckpoint resolves2 eng' jobId checkpointId).2
             = checkpoints eng'))
  /\ (forall resolves eng jobId checkpointId cps cp instruction,
        checkpoints eng !! jobId = Some cps ->
        List.find (has_id checkpointId) cps = Some cp ->
        canRollback cp = true ->
        instruction ∈ rollbackInstructions cp ->
        resolves instruction = false ->
        (rollbackToCheckpoint resolves eng jobId checkpointId).1.1 = false
        /\ checkpoints
             (rollbackToCheckpoint resolves eng jobId checkpointId).2
           = checkpoints eng)
  /\ (forall resolves eng jobId checkpointId cps cp,
        checkpoints eng !! jobId = Some cps ->
        List.find (has_id checkpointId) cps = Some cp ->
        canRollback cp = true ->
        (forall instruction,
           instruction ∈ rollbackInstructions cp ->
           resolves instruction = true) ->
        (rollbackToCheckpoint resolves eng jobId checkpointId).1.1 = true).
Proof.
  split; [| split].
  - intros resolves eng jobId checkpointId waits eng' Hrb.
    apply rollbackToCheckpoint_true in Hrb
      as (cps & i & cp & Hcps & Hi & Hcp & Hid & Hcan & Heng).
    exists cps, i, cp. repeat (split; [done |]).
    split; [| split].
    + unfold getJobCheckpoints. by rewrite Heng, lookup_insert_eq.
    + intros j Hj. unfold getJobCheckpoints.
      by rewrite Heng, lookup_insert_ne.
    + intros resolves2. eapply rollbackToCheckpoint_again; [| exact Hi].
      by rewrite Heng, lookup_insert_eq.
  - intros resolves eng jobId checkpointId cps cp instruction
      Hcps Hfind Hcan Hin Hres.
    unfold rollbackToCheckpoint. rewrite Hcps.
    rewrite Hfind, Hcan. cbn [negb].
    pose proof (run_instructions_some resolves _ _ Hin Hres) as Hrun.
    destruct (run_instructions resolves (rollbackInstructions cp)) as [w ok].
    cbn [snd] in Hrun. subst ok. done.
  - intros resolves eng jobId checkpointId cps cp Hcps Hfind Hcan Hall.
    unfold rollbackToCheckpoint. rewrite Hcps.
    rewrite Hfind, Hcan. cbn [negb].
    pose proof (run_instructions_all resolves _ Hall) as Hrun.
    destruct (run_instructions resolves (rollbackInstructions cp)) as [w ok].
    cbn [snd] in Hrun. subst ok. done.
Qed.

Lemma rollback_discards_later_checkpoints_witness :
  Recovery.rollbackToCheckpoint always small_store "job_1" "checkpoint_2"
  = (true,
     (Recovery.rollbackToCheckpoint always small_store "job_1"
        "checkpoint_2").1.2,
     (Recovery.rollbackToCheckpoint always small_store "job_1"
        "checkpoint_2").2)
  /\ (forall resolves2,
        checkpoints
          (Recovery.rollbackToCheckpoint resolves2
             (Recovery.rollbackToCheckpoint always small_store "job_1"
                "checkpoint_2").2
             "job_1" "checkpoint_2").2
        = checkpoints
            (Recovery.rollbackToCheckpoint always small_store "job_1"
               "checkpoint_2").2)
  /\ (Recovery.rollbackToCheckpoint all_but_extensions small_store "job_1"
        "checkpoint_2").1.1 = false.
Proof.
  destruct rollback_discards_later_checkpoints as (H1 & H2 & _).
  assert (Recovery.rollbackToCheckpoint always small_store "job_1"
            "checkpoint_2"
          = (true,
             (Recovery.rollbackToCheckpoint always small_store "job_1"
                "checkpoint_2").1.2,
             (Recovery.rollbackToCheckpoint always small_store "job_1"
                "checkpoint_2").2)) as Hrb.
  { vm_compute. reflexivity. }
  split; [exact Hrb |]. split.
  - destruct (H1 _ _ _ _ _ _ Hrb) as (cps & i & cp & _ & _ & _ & _ & _ & _ & _ & Hagain).
    exact Hagain.
  - eapply (H2 all_but_extensions small_store "job_1" "checkpoint_2").
    + vm_compute. reflexivity.
    + vm_compute. reflexivity.
    + reflexivity.
    + apply list_elem_of_further, list_elem_of_here.
    + reflexivity.
Defined.

End checkpoint_facts.

(** ** Error patterns *)

Section pattern_facts.
Import Monitoring.

Lemma alerts_raised_app ty l l' :
  alerts_raised ty (l ++ l') = (alerts_raised ty l + alerts_raised ty l')%nat.
Proof. unfold alerts_raised. by rewrite List.filter_app, length_app. Qed.

Lemma createAlert_events o d mon :
  monitor_events (createAlert o d mon)
  = monitor_events mon
    ++ [alert_created
          {| alert_id := oracle_alert_id o (data_type d);
             alert_type := data_type d;
             alert_severity := data_severity d;
             alert_title := data_title d;
             alert_message := data_message d;
             alert_timestamp := oracle_now o;
             alert_jobId := data_jobId d;
             alert_errorId := data_errorId d;
             acknowledged := false;
             resolvedAt := None;
             alert_metadata := data_metadata d |}].
Proof. reflexivity. Qed.

Lemma alerts_raised_createAlert ty o d mon :
  alerts_raised ty (monitor_events (createAlert o d mon))
  = (alerts_raised ty (monitor_events mon)
     + (if bool_decide (data_type d = ty) then 1 else 0))%nat.
Proof.
  rewrite createAlert_events, alerts_raised_app. f_equal.
  unfold alerts_raised. cbn. by case_bool_decide.
Qed.

Lemma updateErrorPatterns_alerts o error mon :
  alerts_raised pattern_detected
    (monitor_events (updateErrorPatterns o error mon))
  = (alerts_raised pattern_detected (monitor_events mon)
     + pattern_alert_due mon error)%nat.
Proof.
  unfold updateErrorPatterns, pattern_alert_due, frequency_with, severity_with.
  destruct (errorPatterns mon !! patternKey error) as [p |];
    cbn [from_option frequency pattern_severity];
    match goal with
    | |- context [if ?c then createAlert _ _ _ else _] => destruct c
    end;
    rewrite ?alerts_raised_createAlert; cbn [monitor_events set_pattern];
    cbn [data_type bool_decide decide_rel]; try done; lia.
Qed.

Lemma checkForAlerts_pattern_alerts o error jobId mon :
  alerts_raised pattern_detected
    (monitor_events (checkForAlerts o error jobId mon))
  = alerts_raised pattern_detected (monitor_events mon).
Proof.
  unfold checkForAlerts.
  set (mon1 := if bool_decide (err_severity error = critical) then _ else _).
  assert (alerts_raised pattern_detected (monitor_events mon1)
          = alerts_raised pattern_detected (monitor_events mon)) as H1.
  { subst mon1. case_bool_decide; [| done].
    rewrite alerts_raised_createAlert, bool_decide_false by done. lia. }
  cbn zeta. case_match; [| done].
  rewrite alerts_raised_createAlert, H1, bool_decide_false by done. lia.
Qed.

Lemma recordError_pattern_alerts o error jobId mon :
  alerts_raised pattern_detected
    (monitor_events (recordError o error jobId mon))
  = (alerts_raised pattern_detected (monitor_events mon)
     + pattern_alert_due mon error)%nat.
Proof.
  unfold recordError. cbn [monitor_events].
  rewrite alerts_raised_app, checkForAlerts_pattern_alerts,
    updateErrorPatterns_alerts.
  change (alerts_raised pattern_detected [error_recorded _ _]) with 0%nat.
  match goal with
  | |- context [pattern_alert_due ?m error] =>
      change (pattern_alert_due m error) with (pattern_alert_due mon error)
  end.
  cbn [monitor_events]. lia.
Qed.

(** C9 as amended. Recording a fault raises one pattern-detected alert
    whenever the frequency of its (code, phase) pattern, the fault counted,
    is at least 5 and the severity the pattern got from its first fault is
    high, and none otherwise: the 5th occurrence raises one alert and so does
    every later one. *)
Theorem pattern_alert_at_every_occurrence_from_the_fifth :
  forall o error jobId mon,
    alerts_raised pattern_detected
      (monitor_events (updateErrorPatterns o error mon))
    = (alerts_raised pattern_detected (monitor_events mon)
       + (if (5 <=? frequency_with mon error)%nat
             && bool_decide (severity_with mon error = high)
          then 1 else 0))%nat
    /\ alerts_raised pattern_detected
         (monitor_events (recordError o error jobId mon))
       = (alerts_raised pattern_detected (monitor_events mon)
          + (if (5 <=? frequency_with mon error)%nat
                && bool_decide (severity_with mon error = high)
             then 1 else 0))%nat.
Proof.
  intros. split;
    [apply updateErrorPatterns_alerts | apply recordError_pattern_alerts].
Qed.

(** C9, counterexample. Of six faults with one code and phase at high
    severity the 5th raises a pattern-detected alert and the 6th raises a
    second one. *)
Lemma sixth_occurrence_raises_second_alert :
  alerts_raised pattern_detected (monitor_events (after_faults 4)) = 0%nat
  /\ alerts_raised pattern_detected (monitor_events (after_faults 5)) = 1%nat
  /\ alerts_raised pattern_detected (monitor_events (after_faults 6)) = 2%nat.
Proof. repeat split; vm_compute; reflexivity. Qed.

End pattern_facts.

(** ** Submission *)

Lemma validateMigrationConfig_threads c :
  parallel_threads c < 1 \/ 20 < parallel_threads c ->
  valid (InputValidator.validateMigrationConfig c) = false.
Proof.
  intros H. unfold InputValidator.validateMigrationConfig. cbn [valid].
  replace ((parallel_threads c =? 0) || (parallel_threads c <? 1)
           || (20 <? parallel_threads c)) with true by lia.
  rewrite !length_app. cbn [List.length].
  apply Nat.eqb_neq. lia.
Qed.

Lemma startMigration_rejects activeJobs options userId jobId now :
  valid (InputValidator.validateMigrationConfig (opt_configuration options))
  = false
  \/ (config.maxConcurrentMigrations
      <= List.length (activeMigrations activeJobs (organizationId options)))%nat ->
  exists msg,
    startMigration activeJobs options userId jobId now
    = {| start_result := inl msg; start_activeJobs := activeJobs;
         start_background := None |}.
Proof.
  intros H. unfold startMigration, reject.
  destruct (valid _) eqn:Hv; cbn [negb]; [| by eexists].
  destruct H as [H | H]; [done |].
  repeat (case_match; [by eexists |]).
  match goal with
  | Hle : (_ <=? _)%nat = false |- _ => apply Nat.leb_gt in Hle; lia
  end.
Qed.

(** C6. [startMigration] throws, registers no job, starts no background
    task and leaves the registry as it is, both when the configuration is
    invalid (which it is whenever [parallel_threads] is outside 1-20, as
    with 25) and when the organization already has 5 running jobs. *)
Theorem startMigration_rejects_before_registering :
  (forall c,
     parallel_threads c < 1 \/ 20 < parallel_threads c ->
     valid (InputValidator.validateMigrationConfig c) = false)
  /\ (forall activeJobs options userId jobId now,
        valid (InputValidator.validateMigrationConfig
                 (opt_configuration options)) = false
        \/ (5 <= List.length
                   (activeMigrations activeJobs (organizationId options)))%nat ->
        let r := startMigration activeJobs options userId jobId now in
        (exists msg, start_result r = inl msg)
        /\ start_activeJobs r = activeJobs
        /\ start_background r = None).
Proof.
  split; [exact validateMigrationConfig_threads |].
  intros activeJobs options userId jobId now H r.
  destruct (startMigration_rejects activeJobs options userId jobId now H)
    as [msg Hr].
  subst r. rewrite Hr. cbn. eauto.
Qed.

Lemma startMigration_rejects_before_registering_witness :
  (let r := startMigration busy_registry (sample_options 25) "user_1"
              "migration_6" 6 in
   start_result r
   = inl "Migration configuration validation failed: parallel_threads must be between 1 and 20"
   /\ start_activeJobs r = busy_registry /\ start_background r = None)
  /\ (let r := startMigration busy_registry (sample_options 4) "user_1"
                 "migration_6" 6 in
      start_result r
      = inl "Maximum concurrent migrations (5) reached for organization"
      /\ start_activeJobs r = busy_registry /\ start_background r = None)
  /\ (exists j, start_background
                  (startMigration ∅ (sample_options 4) "user_1"
                     "migration_6" 6) = Some j).
Proof.
  destruct startMigration_rejects_before_registering as [Hv Hr].
  split; [| split].
  - destruct (Hr busy_registry (sample_options 25) "user_1" "migration_6" 6)
      as (_ & H2 & H3).
    { left. apply Hv. cbn. lia. }
    cbn zeta. split; [vm_compute; reflexivity | by split].
  - destruct (Hr busy_registry (sample_options 4) "user_1" "migration_6" 6)
      as (_ & H2 & H3).
    { right. vm_compute. lia. }
    cbn zeta. split; [vm_compute; reflexivity | by split].
  - eexists. vm_compute. reflexivity.
Defined.

(** * Reasoning about task code *)

Section hoare_rules.
Context {A B : Type}.

Lemma hoare_ret (P : Task -> Prop) (a : A) Qt :
  hoare P (mret a) (fun a' t => a' = a /\ P t) Qt.
Proof. intros env t HP. by cbn. Qed.

Lemma hoare_throw (P : Task -> Prop) (e : Thrown) (Qr : A -> Task -> Prop) :
  hoare P (throw e) Qr (fun e' t => e' = e /\ P t).
Proof. intros env t HP. by cbn. Qed.

Lemma hoare_bind (P : Task -> Prop) (m : M A) (f : A -> M B)
    (R : A -> Task -> Prop) Qr Qt :
  hoare P m R Qt ->
  (forall a, hoare (R a) (f a) Qr Qt) ->
  hoare P (m ≫= f) Qr Qt.
Proof.
  intros Hm Hf env t HP. specialize (Hm env t HP).
  unfold mbind, M_bind. destruct (m env t) as [[a | e] t']; [| exact Hm].
  exact (Hf a env t' Hm).
Qed.

Lemma hoare_weaken (P P' : Task -> Prop) (m : M A)
    (Qr Qr' : A -> Task -> Prop) (Qt Qt' : Thrown -> Task -> Prop) :
  hoare P' m Qr' Qt' ->
  (forall t, P t -> P' t) ->
  (forall a t, Qr' a t -> Qr a t) ->
  (forall e t, Qt' e t -> Qt e t) ->
  hoare P m Qr Qt.
Proof.
  intros Hm HP HQr HQt env t Ht. specialize (Hm env t (HP t Ht)).
  destruct (m env t) as [[a | e] t']; auto.
Qed.

Lemma hoare_try_catch (P : Task -> Prop) (body : M A)
    (handler : Thrown -> M A) (R : Thrown -> Task -> Prop) Qr Qt :
  hoare P body Qr R ->
  (forall e, hoare (R e) (handler e) Qr Qt) ->
  hoare P (try_catch body handler) Qr Qt.
Proof.
  intros Hb Hh env t HP. specialize (Hb env t HP). unfold try_catch.
  destruct (body env t) as [[a | e] t']; [exact Hb |].
  exact (Hh e env t' Hb).
Qed.

End hoare_rules.

(** Binding a step whose result satisfies a fact [X] that does not depend on
    the state. *)
Lemma hoare_bind_pure {A B : Type} (P R : Task -> Prop) (X : A -> Prop)
    (m : M A) (f : A -> M B) Qr Qt :
  hoare P m (fun a t => X a /\ R t) Qt ->
  (forall a, X a -> hoare R (f a) Qr Qt) ->
  hoare P (m ≫= f) Qr Qt.
Proof.
  intros Hm Hf. eapply hoare_bind; [exact Hm |].
  intros a env t [Hx Ht]. by apply Hf.
Qed.

Lemma hoare_modify (P Q : Task -> Prop) (f : Task -> Task) Qt :
  (forall t, P t -> Q (f t)) ->
  hoare P (modify f) (fun _ t => Q t) Qt.
Proof. intros H env t HP. cbn. auto. Qed.

Lemma hoare_get_task (P : Task -> Prop) Qt :
  hoare P get_task (fun _ t => P t) Qt.
Proof. intros env t HP. by cbn. Qed.

Lemma hoare_get_job (P : Task -> Prop) Qt :
  hoare P get_job (fun _ t => P t) Qt.
Proof. intros env t HP. by cbn. Qed.

Lemma hoare_ask {A : Type} (P : Task -> Prop) (f : Env -> nat -> A) Qt :
  hoare P (ask f) (fun _ t => P t) Qt.
Proof. intros env t HP. by cbn. Qed.

Section stable_steps.
Context (S : Task -> Prop) (HS : stable S).
Context (Qt : Thrown -> Task -> Prop).

Lemma hoare_view_modify (f : Task -> Task) :
  (forall t, same_view t (f t)) ->
  hoare S (modify f) (fun _ t => S t) Qt.
Proof.
  intros Hf. apply hoare_modify. intros t Ht.
  eapply stable_view; eauto.
Qed.

Lemma hoare_emit ev : hoare S (emit ev) (fun _ t => S t) Qt.
Proof. apply hoare_modify. intros t Ht. by apply stable_emit. Qed.

Lemma hoare_suspend w : hoare S (suspend w) (fun _ t => S t) Qt.
Proof.
  intros env t Ht. unfold suspend.
  set (t1 := emit_task (suspended w) t).
  set (t2 := if env_cancel env (tick t) then client_cancel t1 else t1).
  assert (S t2) as H2.
  { subst t2 t1. destruct (env_cancel env (tick t));
      [apply stable_cancel; [done |] |]; by apply stable_emit. }
  eapply (stable_view S HS); [| exact H2]. by repeat split.
Qed.

Lemma hoare_sleeps l : hoare S (sleeps l) (fun _ t => S t) Qt.
Proof.
  induction l as [| ms l IH]; cbn [sleeps].
  - intros env t Ht. by cbn.
  - eapply hoare_bind; [apply hoare_suspend | intros ?; exact IH].
Qed.

Lemma hoare_await {A : Type} op (f : Env -> nat -> A) :
  hoare S (await op f) (fun _ t => S t) Qt.
Proof.
  unfold await.
  eapply hoare_bind; [apply hoare_ask | intros r].
  eapply hoare_bind; [apply hoare_suspend | intros ?].
  intros env t Ht. by cbn.
Qed.

Lemma hoare_draw {A : Type} (f : Env -> nat -> A) :
  hoare S (draw f) (fun _ t => S t) Qt.
Proof.
  unfold draw.
  eapply hoare_bind; [apply hoare_ask | intros r].
  eapply hoare_bind; [apply hoare_view_modify; by intros t | intros ?].
  intros env t Ht. by cbn.
Qed.

Lemma hoare_updatePhaseStatus phase s :
  hoare S (updatePhaseStatus phase s) (fun _ t => S t) Qt.
Proof. apply hoare_view_modify. by intros t. Qed.

Lemma hoare_createMigrationError error phase :
  hoare S (createMigrationError error phase)
    (fun e t => error_code e = determineErrorCode error /\ S t) Qt.
Proof.
  unfold createMigrationError.
  eapply hoare_bind; [apply hoare_draw | intros id].
  eapply hoare_bind; [apply hoare_get_task | intros t0].
  intros env t Ht. by cbn.
Qed.

Lemma hoare_recordError e : hoare S (recordError e) (fun _ t => S t) Qt.
Proof.
  unfold recordError.
  eapply hoare_bind; [apply hoare_draw | intros ids].
  apply hoare_view_modify. by intros t.
Qed.

Lemma hoare_handleMigrationError phase error :
  hoare S (handleMigrationError phase error) (fun _ t => S t) Qt.
Proof.
  unfold handleMigrationError.
  eapply hoare_bind_pure; [apply hoare_createMigrationError | intros e _].
  eapply hoare_bind; [apply hoare_recordError | intros ?].
  apply hoare_emit.
Qed.

(** The decision comes from the engine's [handleError] on this fault. *)
Lemma hoare_handleError e phase :
  hoare S (handleError e phase)
    (fun r t =>
       (exists o eng jobId,
          r = (Recovery.handleError o eng jobId e phase).1.1) /\ S t) Qt.
Proof.
  unfold handleError.
  eapply hoare_bind; [apply hoare_draw | intros o].
  eapply hoare_bind; [apply hoare_get_task | intros t0].
  destruct (Recovery.handleError o (recoveryEngine t0) (job_id (job t0))
              e phase) as [[result waits] eng] eqn:Hr.
  eapply hoare_bind;
    [apply (hoare_view_modify (set_recoveryEngine eng)); by intros t
    | intros ?].
  eapply hoare_bind; [apply hoare_sleeps | intros ?].
  intros env t Ht. cbn. split; [| done].
  exists o, (recoveryEngine t0), (job_id (job t0)). by rewrite Hr.
Qed.

End stable_steps.

(** ** The decisions of [handleError] *)

Lemma run_executor_shape x o error context eng :
  let r := (Recovery.run_executor x o error context eng).1.1 in
  decision_shape r \/ (success r = false /\ action r = retry).
Proof.
  destruct x; cbn [Recovery.run_executor fst];
    try (left; left; cbn; by eauto);
    try (left; right; cbn; by eauto).
  - unfold Recovery.executeDataIntegrityRepair. cbn [success action].
    destruct (repair_succeeds o); [left; left | right]; by eauto.
  - unfold Recovery.executePartialRollback.
    destruct (checkpoints eng !! ctx_job context) as [[| c cs] |];
      try (left; right; cbn; by eauto).
    destruct (Recovery.rollbackToCheckpoint _ _ _ _) as [[[|] w] eng'];
      cbn; left; [left | right]; by eauto.
Qed.

Lemma try_strategies_shape o jobId error strategies :
  forall context waits eng,
    decision_shape
      (Recovery.try_strategies o jobId error context strategies waits eng).1.1.
Proof.
  induction strategies as [| s rest IH]; intros context waits eng;
    cbn [Recovery.try_strategies].
  - right. by cbn.
  - case_match; [apply IH |].
    pose proof (run_executor_shape (execute s) o error context eng) as Hx.
    destruct (Recovery.run_executor _ _ _ _ _) as [[result w] eng1].
    cbn [fst] in Hx.
    destruct (success result) eqn:Hs; cbn [fst].
    + destruct Hx as [[[_ Ha] | [Hf _]] | [Hf _]]; [| congruence ..].
      left. by split.
    + case_bool_decide as Hact; cbn [negb fst]; [apply IH |].
      destruct Hx as [[[Ht _] | Hm] | [_ Ha]]; [congruence | by right | done].
Qed.

Lemma handleError_shape o eng jobId error phase :
  decision_shape (Recovery.handleError o eng jobId error phase).1.1.
Proof.
  unfold Recovery.handleError. case_match; [right; by cbn |].
  apply try_strategies_shape.
Qed.

Lemma attempts_made_emit ev eng :
  attempts_made (Recovery.emit ev eng)
  = (attempts_made eng + (if is_attempt ev then 1 else 0))%nat.
Proof.
  unfold attempts_made, Recovery.emit. cbn [recovery_events].
  rewrite List.filter_app, length_app. cbn. by destruct (is_attempt ev).
Qed.

Lemma attempts_made_set_recovery jobId c eng :
  attempts_made (Recovery.set_recovery jobId c eng) = attempts_made eng.
Proof. reflexivity. Qed.

Lemma attempts_made_delete_recovery jobId eng :
  attempts_made (Recovery.delete_recovery jobId eng) = attempts_made eng.
Proof. reflexivity. Qed.

Lemma handleError_permission o eng jobId e phase :
  error_code e = "PERMISSION_DENIED" ->
  let '(r, waits, eng') := Recovery.handleError o eng jobId e phase in
  success r = false
  /\ action r = manual_intervention
  /\ requiresManualIntervention r = Some true
  /\ waits = []
  /\ (attempts_made eng' <= attempts_made eng + 1)%nat.
Proof.
  intros Hc. unfold Recovery.handleError, Recovery.findApplicableStrategies.
  rewrite Hc.
  change (Recovery.sort_by_priority _)
    with [ {| strategy_id := "permission-escalation";
              strategy_name := "Permission Escalation";
              strategy_description := "Attempt to resolve permission issues";
              applicableErrors :=
                ["PERMISSION_DENIED"; "INSUFFICIENT_PRIVILEGES"; "AUTH_FAILED"];
              maxRetries := 2; backoffStrategy := fixed;
              baseDelay := 5000; maxDelay := 5000;
              execute := PermissionEscalation |} ].
  cbn [List.length Nat.eqb].
  set (eng0 := Recovery.emit _ eng).
  set (context := match activeRecoveries eng0 !! jobId with
                  | Some c => _ | None => _ end).
  cbn [Recovery.try_strategies maxRetries execute Recovery.run_executor
       strategy_id].
  destruct (2 <? attemptNumber context)%nat.
  - repeat (split; [done |]).
    rewrite attempts_made_delete_recovery, attempts_made_set_recovery.
    subst eng0. rewrite attempts_made_emit. cbn. lia.
  - cbn [success action Recovery.executePermissionEscalation].
    rewrite bool_decide_false by done. cbn [negb].
    repeat (split; [done |]).
    rewrite !attempts_made_emit, !attempts_made_set_recovery.
    subst eng0. rewrite attempts_made_emit. cbn. lia.
Qed.

(** ** Phases *)

Lemma fraction_mono base scale n i j :
  (0 <= scale)%Q -> (i <= j)%nat ->
  (fraction base scale n i <= fraction base scale n j)%Q.
Proof.
  intros Hs Hij. unfold fraction.
  apply Qplus_le_r. apply Qmult_le_compat_r; [| exact Hs].
  unfold Qdiv. apply Qmult_le_compat_r.
  - rewrite <- Zle_Qle. lia.
  - apply Qinv_le_0_compat. change 0%Q with (inject_Z 0).
    rewrite <- Zle_Qle. lia.
Qed.

Lemma fraction_lower base scale n i :
  (0 <= scale)%Q -> (base <= fraction base scale n i)%Q.
Proof.
  intros Hs. unfold fraction.
  rewrite <- (Qplus_0_r base) at 1. apply Qplus_le_r.
  apply Qmult_le_0_compat; [| exact Hs].
  unfold Qdiv. apply Qmult_le_0_compat.
  - change 0%Q with (inject_Z 0). rewrite <- Zle_Qle. lia.
  - apply Qinv_le_0_compat. change 0%Q with (inject_Z 0).
    rewrite <- Zle_Qle. lia.
Qed.

Lemma fraction_upper base scale n i :
  (0 <= scale)%Q -> (i + 1 <= n)%nat ->
  (fraction base scale n i <= base + scale)%Q.
Proof.
  intros Hs Hi. unfold fraction. apply Qplus_le_r.
  rewrite <- (Qmult_1_l scale) at 2.
  apply Qmult_le_compat_r; [| exact Hs].
  apply Qle_shift_div_r.
  - change 0%Q with (inject_Z 0). rewrite <- Zlt_Qlt. lia.
  - rewrite Qmult_1_l. rewrite <- Zle_Qle. lia.
Qed.

Lemma ascending_fraction base scale n hi :
  (0 <= scale)%Q -> (base + scale <= hi)%Q ->
  forall k s lo,
    (s + k <= n)%nat -> (lo <= hi)%Q ->
    ((0 < k)%nat -> (lo <= fraction base scale n s)%Q) ->
    ascending lo (List.map (fraction base scale n) (seq s k)) hi.
Proof.
  intros Hs Hhi. induction k as [| k IH]; intros s lo Hn Hlo Hfirst;
    cbn [seq List.map ascending]; [exact Hlo |].
  split; [apply Hfirst; lia |].
  apply IH; [lia | |].
  - eapply Qle_trans; [apply fraction_upper; [exact Hs | lia] | exact Hhi].
  - intros _. apply fraction_mono; [exact Hs | lia].
Qed.

Section phases.
Context (P : Q -> Task -> Prop) (T : Task -> Prop).
Context (fam : phase_family P T).

Lemma hoare_updateProgress lo p u Qt :
  (lo <= p)%Q -> upd_percentage u = Some p ->
  hoare (P lo) (updateProgress u) (fun _ t => P p t) Qt.
Proof.
  use_family fam.
  intros Hle Hu. apply hoare_modify. intros t Ht.
  apply update; [exact Hu |]. by apply (weaken lo).
Qed.

Lemma hoare_current_stats b Qt :
  hoare (P b) current_stats (fun _ t => P b t) Qt.
Proof.
  unfold current_stats.
  eapply hoare_bind; [apply hoare_get_job | intros j].
  intros env t Ht. by cbn.
Qed.

Lemma hoare_for_each {X : Type} (body : X -> M unit) (b : X -> Q) hi Qt :
  forall l lo,
    ascending lo (List.map b l) hi ->
    (forall x lo', (lo' <= b x)%Q ->
       hoare (P lo') (body x) (fun _ t => P (b x) t) Qt) ->
    hoare (P lo) (for_each body l) (fun _ t => P hi t) Qt.
Proof.
  use_family fam.
  induction l as [| x l IH]; intros lo Hasc Hbody;
    cbn [for_each List.map ascending] in *.
  - intros env t Ht. cbn. by apply (weaken lo).
  - destruct Hasc as [Hlo Hasc].
    eapply hoare_bind; [by apply Hbody | intros ?]. by apply IH.
Qed.

Lemma waitForProjectReady_loop_band b left :
  hoare (P b) (waitForProjectReady_loop left)
    (fun _ t => P b t) (fun _ t => P b t).
Proof.
  use_family fam.
  induction left as [| left IH]; cbn [waitForProjectReady_loop].
  - intros env t Ht. by cbn.
  - eapply hoare_bind; [by apply hoare_await | intros project].
    case_match.
    + intros env t Ht. by cbn.
    + eapply hoare_bind; [by apply hoare_suspend | intros ?]. exact IH.
Qed.

Lemma prepareTargetProject_band options :
  executor_band P 5 10 (prepareTargetProject options).
Proof.
  use_family fam.
  unfold executor_band, prepareTargetProject.
  eapply hoare_bind;
    [apply (hoare_updateProgress 5 5); [qle | reflexivity] | intros ?].
  eapply hoare_bind; [by apply hoare_await | intros createResponse].
  destruct (api_success createResponse), (api_data createResponse);
    try (intros env t Ht; by cbn).
  eapply hoare_bind;
    [apply hoare_view_modify; [apply stable_P | by intros t] | intros ?].
  eapply hoare_bind; [apply waitForProjectReady_loop_band | intros ?].
  apply (hoare_updateProgress 5 10); [qle | reflexivity].
Qed.

Lemma migrateSchema_band options :
  executor_band P 15 30 (migrateSchema options).
Proof.
  use_family fam.
  unfold executor_band, migrateSchema.
  eapply hoare_bind;
    [apply (hoare_updateProgress 15 15); [qle | reflexivity] | intros ?].
  eapply hoare_bind; [by apply hoare_await | intros sourceDbConfig].
  case_match; [intros env t Ht; by cbn |].
  eapply hoare_bind; [by apply hoare_await | intros inspected].
  destruct inspected as [error | tables]; [intros env t Ht; by cbn |].
  eapply hoare_bind; [by apply hoare_await | intros targetDbConfig].
  case_match; [intros env t Ht; by cbn |].
  eapply hoare_bind; [by apply hoare_suspend | intros ?].
  eapply hoare_bind; [apply hoare_current_stats | intros s].
  apply (hoare_updateProgress 15 30); [qle | reflexivity].
Qed.

Lemma migrateData_band options :
  executor_band P 35 60 (migrateData options).
Proof.
  use_family fam.
  unfold executor_band, migrateData.
  case_match.
  { intros env t Ht. cbn. apply (weaken 35%Q); [qle | done]. }
  eapply hoare_bind;
    [apply (hoare_updateProgress 35 35); [qle | reflexivity] | intros ?].
  apply (hoare_for_each migrateData_step
           (fun i => (35 + inject_Z i * (1 # 4))%Q)).
  - vm_compute. repeat split; discriminate.
  - intros i lo' Hlo. unfold migrateData_step.
    eapply hoare_bind; [by apply hoare_suspend | intros ?].
    eapply hoare_bind; [apply hoare_current_stats | intros s].
    by apply hoare_updateProgress.
Qed.

Lemma migrateStorage_band options :
  executor_band P 60 70 (migrateStorage options).
Proof.
  use_family fam.
  unfold executor_band, migrateStorage.
  eapply hoare_bind;
    [apply (hoare_updateProgress 60 60); [qle | reflexivity] | intros ?].
  eapply hoare_bind; [by apply hoare_await | intros bucketsResponse].
  destruct (api_success bucketsResponse), (api_data bucketsResponse)
    as [buckets |]; try (intros env t Ht; by cbn).
  apply (hoare_for_each (migrateStorage_step buckets)
           (fraction 60 10 (List.length buckets))).
  - apply ascending_fraction; [qle | qle | lia | qle |].
    intros _. by apply fraction_lower.
  - intros i lo' Hlo. unfold migrateStorage_step.
    eapply hoare_bind; [by apply hoare_suspend | intros ?].
    eapply hoare_bind; [apply hoare_current_stats | intros s].
    by apply hoare_updateProgress.
Qed.

Lemma migrateConfiguration_band options :
  executor_band P 70 75 (migrateConfiguration options).
Proof.
  use_family fam.
  unfold executor_band, migrateConfiguration.
  eapply hoare_bind;
    [apply (hoare_updateProgress 70 70); [qle | reflexivity] | intros ?].
  eapply hoare_bind; [by apply hoare_await | intros sourceConfig].
  case_match; [intros env t Ht; by cbn |].
  eapply hoare_bind; [by apply hoare_suspend | intros ?].
  apply (hoare_updateProgress 70 75); [qle | reflexivity].
Qed.

Lemma migrateEdgeFunctions_band options :
  executor_band P 75 80 (migrateEdgeFunctions options).
Proof.
  use_family fam.
  unfold executor_band, migrateEdgeFunctions.
  eapply hoare_bind;
    [apply (hoare_updateProgress 75 75); [qle | reflexivity] | intros ?].
  eapply hoare_bind; [by apply hoare_await | intros functionsResponse].
  destruct (api_success functionsResponse), (api_data functionsResponse)
    as [functions |]; try (intros env t Ht; by cbn).
  apply (hoare_for_each (migrateEdgeFunctions_step functions)
           (fraction 75 5 (List.length functions))).
  - apply ascending_fraction; [qle | qle | lia | qle |].
    intros _. by apply fraction_lower.
  - intros i lo' Hlo. unfold migrateEdgeFunctions_step.
    eapply hoare_bind; [by apply hoare_await | intros funcDetails].
    apply (hoare_bind _ _ _ (fun _ t => P lo' t)).
    { case_match; [by apply hoare_suspend |].
      intros env t Ht. cbn. exact Ht. }
    intros ?.
    eapply hoare_bind; [apply hoare_current_stats | intros s].
    by apply hoare_updateProgress.
Qed.

Lemma migrateSecurity_band options :
  executor_band P 80 85 (migrateSecurity options).
Proof.
  use_family fam.
  unfold executor_band, migrateSecurity.
  eapply hoare_bind;
    [apply (hoare_updateProgress 80 80); [qle | reflexivity] | intros ?].
  eapply hoare_bind; [by apply hoare_suspend | intros ?].
  apply (hoare_updateProgress 80 85); [qle | reflexivity].
Qed.

Lemma setupRealtime_band options :
  executor_band P 85 90 (setupRealtime options).
Proof.
  use_family fam.
  unfold executor_band, setupRealtime.
  eapply hoare_bind;
    [apply (hoare_updateProgress 85 85); [qle | reflexivity] | intros ?].
  eapply hoare_bind; [by apply hoare_suspend | intros ?].
  apply (hoare_updateProgress 85 90); [qle | reflexivity].
Qed.

Lemma validateMigration_band options :
  executor_band P 90 95 (validateMigration options).
Proof.
  use_family fam.
  unfold executor_band, validateMigration.
  eapply hoare_bind;
    [apply (hoare_updateProgress 90 90); [qle | reflexivity] | intros ?].
  apply (hoare_bind _ _ _ (fun _ t => P 90 t)).
  { unfold performValidationChecks.
    eapply hoare_bind; [apply hoare_ask | intros fails].
    eapply hoare_bind; [by apply hoare_suspend | intros ?].
    intros env t Ht. cbn. exact Ht. }
  intros validationErrors.
  case_match; [intros env t Ht; by cbn |].
  apply (hoare_updateProgress 90 95); [qle | reflexivity].
Qed.

Lemma performCutover_band options :
  executor_band P 95 100 (performCutover options).
Proof.
  use_family fam.
  unfold executor_band, performCutover.
  eapply hoare_bind;
    [apply (hoare_updateProgress 95 95); [qle | reflexivity] | intros ?].
  eapply hoare_bind; [by apply hoare_suspend | intros ?].
  apply (hoare_updateProgress 95 100); [qle | reflexivity].
Qed.

Lemma hoare_throw_to (S : Task -> Prop) {A : Type} (e : Thrown)
    (Qr : A -> Task -> Prop) (Qt : Thrown -> Task -> Prop) :
  (forall t, S t -> Qt e t) -> hoare S (throw e) Qr Qt.
Proof. intros H env t Ht. cbn. by apply H. Qed.

(** After a PERMISSION_DENIED fault the rest of the [catch] block
    throws. *)
Lemma phase_recover_permission phase retryCount error e :
  error_code e = "PERMISSION_DENIED" ->
  hoare T (phase_recover phase retryCount error e)
    (fun _ _ => False) (fun _ t => T t).
Proof.
  use_family fam.
  intros Hc. unfold phase_recover. case_match.
  - eapply hoare_bind_pure; [by apply hoare_handleError |].
    intros r (o & eng & jobId & ->).
    pose proof (handleError_permission o eng jobId e phase Hc) as Hp.
    destruct (Recovery.handleError o eng jobId e phase) as [[r w] eng'].
    destruct Hp as (Hs & _ & Hm & _). cbn [fst]. rewrite Hs, Hm.
    cbn [default from_option id].
    apply (hoare_bind_pure _ T (fun d => d = None));
      [intros env t Ht; by cbn |].
    intros decided ->.
    eapply hoare_bind; [by apply hoare_updatePhaseStatus | intros ?].
    eapply hoare_bind; [by apply hoare_emit | intros ?].
    by apply hoare_throw_to.
  - eapply hoare_bind; [by apply hoare_updatePhaseStatus | intros ?].
    eapply hoare_bind; [by apply hoare_handleMigrationError | intros ?].
    by apply hoare_throw_to.
Qed.

(** After any other fault it goes round the loop or returns with the
    property kept, or throws. *)
Lemma phase_recover_other lo phase retryCount error e :
  hoare (P lo) (phase_recover phase retryCount error e)
    (fun _ t => P lo t) (fun _ t => T t).
Proof.
  use_family fam.
  unfold phase_recover. case_match.
  - eapply hoare_bind_pure; [by apply hoare_handleError |].
    intros r (o & eng & jobId & ->).
    pose proof (handleError_shape o eng jobId e phase) as Hshape.
    destruct (Recovery.handleError o eng jobId e phase) as [[r w] eng'].
    cbn [fst] in *.
    apply (hoare_bind _ _ _ (fun _ t => P lo t)).
    + destruct Hshape as [[Hs [Ha | Ha]] | [Hs _]]; rewrite Hs, ?Ha.
      * eapply hoare_bind; [| intros ?; intros env t Ht; cbn; exact Ht].
        case_match; [by apply hoare_suspend |].
        intros env t Ht. by cbn.
      * eapply hoare_bind; [by apply hoare_updatePhaseStatus | intros ?].
        eapply hoare_bind; [by apply hoare_emit | intros ?].
        intros env t Ht. by cbn.
      * intros env t Ht. by cbn.
    + intros [ctl |]; [intros env t Ht; by cbn |].
      case_match; [| intros env t Ht; by cbn].
      eapply hoare_bind; [by apply hoare_updatePhaseStatus | intros ?].
      eapply hoare_bind; [by apply hoare_emit | intros ?].
      apply hoare_throw_to. intros t. apply throws.
  - eapply hoare_bind; [by apply hoare_updatePhaseStatus | intros ?].
    eapply hoare_bind; [by apply hoare_handleMigrationError | intros ?].
    apply hoare_throw_to. intros t. apply throws.
Qed.

Lemma phase_catch_band lo phase retryCount error :
  hoare (P lo) (phase_catch phase retryCount error)
    (fun _ t => P lo t) (fun _ t => T t).
Proof.
  use_family fam.
  unfold phase_catch.
  eapply hoare_bind_pure; [by apply hoare_createMigrationError |].
  intros e _.
  eapply hoare_bind; [by apply hoare_recordError | intros ?].
  destruct (decide (error_code e = "PERMISSION_DENIED")) as [Hc | Hc].
  - eapply hoare_bind.
    { apply (hoare_modify _ T). intros t Ht.
      apply (thr_push P T fam). by apply (throws lo). }
    intros ?.
    eapply hoare_weaken; [by apply phase_recover_permission | | |];
      cbn; eauto. done.
  - eapply hoare_bind.
    { apply (hoare_modify _ (P lo)). intros t Ht.
      by apply (fam_push P T fam). }
    intros ?. apply phase_recover_other.
Qed.

Lemma phase_attempts_band lo hi phase executor :
  (lo <= hi)%Q -> executor_band P lo hi executor ->
  forall left,
    hoare (P lo) (phase_attempts phase executor left)
      (fun _ t => P hi t) (fun _ t => T t).
Proof.
  use_family fam.
  intros Hle Hex. induction left as [| left IH]; cbn [phase_attempts].
  - intros env t Ht. cbn. by apply (weaken lo).
  - apply (hoare_bind _ _ _
             (fun ctl t =>
                match ctl with
                | LoopReturn => P hi t
                | LoopContinue => P lo t
                end)).
    + eapply hoare_try_catch.
      * eapply hoare_bind; [by apply hoare_updatePhaseStatus | intros ?].
        eapply hoare_bind; [by apply hoare_emit | intros ?].
        eapply hoare_bind; [apply Hex | intros ?].
        eapply hoare_bind; [by apply hoare_updatePhaseStatus | intros ?].
        eapply hoare_bind; [by apply hoare_emit | intros ?].
        intros env t Ht. cbn. exact Ht.
      * intros e. cbn beta.
        eapply hoare_weaken; [apply (phase_catch_band lo) | | |];
          cbn; eauto.
        intros [|] t Ht; [by apply (weaken lo) | done].
    + intros [|]; [intros env t Ht; by cbn | exact IH].
Qed.

Lemma executePhase_band lo hi phase executor :
  (lo <= hi)%Q -> executor_band P lo hi executor ->
  hoare (P lo) (executePhase phase executor)
    (fun _ t => P hi t) (fun _ t => T t).
Proof.
  use_family fam.
  intros Hle Hex. unfold executePhase.
  eapply hoare_bind; [by apply hoare_draw | intros checkpointId].
  eapply hoare_bind;
    [apply hoare_view_modify; [apply stable_P | by intros t] | intros ?].
  by apply phase_attempts_band.
Qed.

End phases.

Section pipeline.
Context (P : Q -> Task -> Prop) (T : Task -> Prop).
Context (fam : phase_family P T).

Lemma optional_phase_band lo lo' hi (use : bool) phase executor :
  (lo <= lo')%Q -> (lo' <= hi)%Q -> executor_band P lo' hi executor ->
  hoare (P lo)
    (if use then executePhase phase executor else mret tt)
    (fun _ t => P hi t) (fun _ t => T t).
Proof.
  intros H1 H2 Hex. destruct use.
  - eapply hoare_weaken;
      [by apply (executePhase_band P T fam lo' hi) | | |]; cbn; eauto.
    intros t Ht. by apply (fam_weaken P T fam lo).
  - intros env t Ht. cbn. apply (fam_weaken P T fam lo); [| done].
    by eapply Qle_trans.
Qed.

Lemma phase_pipeline_band options :
  hoare (P 5) (phase_pipeline options)
    (fun _ t => P 100 t) (fun _ t => T t).
Proof.
  unfold phase_pipeline.
  eapply hoare_bind;
    [apply (optional_phase_band 5 5 10 true); [qle | qle |];
     by apply (prepareTargetProject_band P T fam) | intros ?].
  eapply hoare_bind;
    [apply (optional_phase_band 10 15 30 true); [qle | qle |];
     by apply (migrateSchema_band P T fam) | intros ?].
  eapply hoare_bind;
    [apply (optional_phase_band 30 35 60); [qle | qle |];
     by apply (migrateData_band P T fam) | intros ?].
  eapply hoare_bind;
    [apply (optional_phase_band 60 60 70); [qle | qle |];
     by apply (migrateStorage_band P T fam) | intros ?].
  eapply hoare_bind;
    [apply (optional_phase_band 70 70 75 true); [qle | qle |];
     by apply (migrateConfiguration_band P T fam) | intros ?].
  eapply hoare_bind;
    [apply (optional_phase_band 75 75 80); [qle | qle |];
     by apply (migrateEdgeFunctions_band P T fam) | intros ?].
  eapply hoare_bind;
    [apply (optional_phase_band 80 80 85 true); [qle | qle |];
     by apply (migrateSecurity_band P T fam) | intros ?].
  eapply hoare_bind;
    [apply (optional_phase_band 85 85 90 true); [qle | qle |];
     by apply (setupRealtime_band P T fam) | intros ?].
  eapply hoare_bind;
    [apply (optional_phase_band 90 90 95 true); [qle | qle |];
     by apply (validateMigration_band P T fam) | intros ?].
  apply (optional_phase_band 95 95 100 true); [qle | qle |].
  by apply (performCutover_band P T fam).
Qed.

End pipeline.

(** ** The trace of a run *)

Lemma trace_ok_snoc tr o :
  trace_ok tr ->
  (obs_status o = running -> running_below (obs_percentage o) tr) ->
  (obs_status o = completed -> (obs_percentage o == 100)%Q) ->
  trace_ok (tr ++ [o]).
Proof.
  intros [Hm Hc] Hr H100. split.
  - intros i j o1 o2 Hij H1 H2 Hs1 Hs2.
    destruct (decide (j < List.length tr)%nat) as [Hj | Hj].
    + rewrite lookup_app_l in H1 by lia. rewrite lookup_app_l in H2 by lia.
      exact (Hm i j o1 o2 Hij H1 H2 Hs1 Hs2).
    + assert (o2 = o) as ->.
      { rewrite lookup_app_r in H2 by lia.
        apply list_elem_of_lookup_2 in H2.
        by apply list_elem_of_singleton in H2. }
      destruct (decide (i < List.length tr)%nat) as [Hi | Hi].
      * rewrite lookup_app_l in H1 by lia.
        apply Hr; [done | | done]. by eapply list_elem_of_lookup_2.
      * assert (o1 = o) as ->.
        { rewrite lookup_app_r in H1 by lia.
          apply list_elem_of_lookup_2 in H1.
          by apply list_elem_of_singleton in H1. }
        apply Qle_refl.
  - intros o' Ho' Hs. apply elem_of_app in Ho' as [Ho' | Ho'].
    + by apply Hc.
    + apply list_elem_of_singleton in Ho'. subst o'. by apply H100.
Qed.

Lemma running_below_snoc b tr o :
  running_below b tr ->
  (obs_status o = running -> (obs_percentage o <= b)%Q) ->
  running_below b (tr ++ [o]).
Proof.
  intros Hb Ho o' Ho' Hs. apply elem_of_app in Ho' as [Ho' | Ho'].
  - by apply Hb.
  - apply list_elem_of_singleton in Ho'. subst o'. by apply Ho.
Qed.

Lemma running_below_le b b' tr :
  (b <= b')%Q -> running_below b tr -> running_below b' tr.
Proof. intros Hle Hb o Ho Hs. eapply Qle_trans; [by apply Hb | done]. Qed.

Lemma TraceInv_emit ev t : TraceInv t -> TraceInv (emit_task ev t).
Proof.
  intros (Hok & Hseen & Hst). unfold TraceInv, pct. cbn [emit_task trace job].
  split; [| split; [| done]].
  - apply trace_ok_snoc; [done | |]; cbn [observe obs_status obs_percentage].
    + exact Hseen.
    + intros Hc. destruct Hst; congruence.
  - intros Hr. apply running_below_snoc; [by apply Hseen |].
    intros _. apply Qle_refl.
Qed.

Lemma client_cancel_cases t :
  client_cancel t = t
  \/ client_cancel t
     = {| job := cancelled_job (job t); registered := registered t;
          recoveryEngine := recoveryEngine t;
          monitoringSystem := monitoringSystem t;
          trace := (trace t
                    ++ [observe migration_progress (cancelled_job (job t))])
                   ++ [observe migration_cancelled (cancelled_job (job t))];
          clock := clock t; tick := tick t |}.
Proof.
  unfold client_cancel, cancelJob. destruct (registered t); [| by left].
  destruct (_ || _); [by left | right].
  cbn. by rewrite <- app_assoc.
Qed.

Lemma TraceInv_cancel t : TraceInv t -> TraceInv (client_cancel t).
Proof.
  intros (Hok & Hseen & Hst).
  destruct (client_cancel_cases t) as [-> | ->]; [done |].
  unfold TraceInv, pct. cbn [trace job].
  split; [| split; [done | by right]].
  apply trace_ok_snoc; [apply trace_ok_snoc | |]; cbn; done.
Qed.

Lemma Below_cancel b t : Below b t -> Below b (client_cancel t).
Proof.
  intros Hb. destruct (client_cancel_cases t) as [-> | ->]; [done |].
  intros Hr. by cbn in Hr.
Qed.

Lemma InBand_stable b : stable (InBand b).
Proof.
  split.
  - intros t t' (Hs & Hp & _ & Htr) ((Hok & Hseen & Hst) & Hb).
    unfold InBand, TraceInv, Below, pct in *. rewrite Hs, Hp, Htr.
    split; [split; [exact Hok | split; [exact Hseen | exact Hst]]
           | exact Hb].
  - intros ev t [Hi Hb]. split; [by apply TraceInv_emit | exact Hb].
  - intros t [Hi Hb]. split; [by apply TraceInv_cancel | by apply Below_cancel].
Qed.

Lemma TraceInv_stable : stable TraceInv.
Proof.
  split.
  - intros t t' (Hs & Hp & _ & Htr) (Hok & Hseen & Hst).
    unfold TraceInv, pct in *. rewrite Hs, Hp, Htr.
    split; [exact Hok | split; [exact Hseen | exact Hst]].
  - apply TraceInv_emit.
  - apply TraceInv_cancel.
Qed.

Lemma InBand_update p u t :
  upd_percentage u = Some p -> InBand p t -> InBand p (updateProgress_task u t).
Proof.
  intros Hu [(Hok & Hseen & Hst) Hb].
  unfold InBand, TraceInv, Below, pct, updateProgress_task, merge_progress.
  rewrite Hu. cbn -[trace_ok].
  split; [split; [| split; [| done]] |].
  - apply trace_ok_snoc; [done | |]; cbn.
    + intros Hr. eapply running_below_le; [by apply Hb | by apply Hseen].
    + intros Hc. destruct Hst; congruence.
  - intros Hr. apply running_below_snoc.
    + eapply running_below_le; [by apply Hb | by apply Hseen].
    + intros _. apply Qle_refl.
  - intros _. apply Qle_refl.
Qed.

Lemma trace_family : phase_family InBand TraceInv.
Proof.
  split.
  - exact InBand_stable.
  - intros b b' t Hle [Hi Hb]. split; [done |].
    intros Hr. eapply Qle_trans; [by apply Hb | done].
  - exact InBand_update.
  - intros b e t _ H. exact H.
  - by intros b t [Hi _].
  - exact TraceInv_stable.
  - intros e t H. exact H.
Qed.

(** ** The whole run *)

Lemma hoare_any {A : Type} (m : M A) :
  hoare (fun _ => True) m (fun _ _ => True) (fun _ _ => True).
Proof. intros env t _. by destruct (m env t) as [[a | e] t']. Qed.

(** Code that never throws fits any property of a throw. *)
Lemma hoare_never_throws {A : Type} (P : Task -> Prop) (m : M A)
    (Qr Qr' : A -> Task -> Prop) (Qt : Thrown -> Task -> Prop) :
  hoare P m Qr' (fun _ _ => False) ->
  (forall a t, Qr' a t -> Qr a t) ->
  hoare P m Qr Qt.
Proof.
  intros Hm HQ env t Ht. specialize (Hm env t Ht).
  destruct (m env t) as [[a | e] t']; [by apply HQ | done].
Qed.

Lemma client_cancel_failed t :
  status (job t) = failed -> client_cancel t = t.
Proof.
  intros Hf. unfold client_cancel, cancelJob. rewrite Hf.
  by destruct (registered t).
Qed.

Lemma FinalFailed_stable : stable FinalFailed.
Proof.
  split.
  - intros t t' (Hs & _ & _ & Htr) [Hok Hf]. unfold FinalFailed.
    by rewrite Hs, Htr.
  - intros ev t [Hok Hf]. split; [| exact Hf]. cbn [emit_task trace].
    apply trace_ok_snoc; [done | |]; cbn; congruence.
  - intros t [Hok Hf]. by rewrite client_cancel_failed.
Qed.

Lemma Failed_stable : stable Failed.
Proof.
  split.
  - intros t t' (Hs & _) Hf. unfold Failed. by rewrite Hs.
  - by intros ev t Hf.
  - intros t Hf. by rewrite client_cancel_failed.
Qed.

Lemma trace_ok_nil : trace_ok [].
Proof.
  split; [intros i j o1 o2 _ H | intros o H]; [| by apply elem_of_nil in H].
  by rewrite lookup_nil in H.
Qed.

Lemma running_below_nil b : running_below b [].
Proof. intros o H. by apply elem_of_nil in H. Qed.

Lemma begin_migration_trace :
  hoare Fresh begin_migration (fun _ t => InBand 5 t) (fun _ _ => False).
Proof.
  intros env t (Htr & Hp & _).
  change (InBand 5
            (emit_task migration_started
               (set_job (set_started_at (clock t) (set_status running (job t)))
                  t))).
  split.
  - apply TraceInv_emit. unfold TraceInv, pct. cbn [set_job trace job].
    rewrite Htr. split; [apply trace_ok_nil |].
    split; [intros _; apply running_below_nil | by left].
  - intros _. unfold pct. cbn. rewrite Hp. qle.
Qed.

Lemma complete_migration_trace :
  hoare (InBand 100) complete_migration
    (fun _ t => trace_ok (trace t) /\ status (job t) = completed
                /\ registered t = false)
    (fun _ _ => False).
Proof.
  intros env t [(Hok & Hseen & Hst) Hb]. cbn.
  split; [| done].
  apply trace_ok_snoc; [apply trace_ok_snoc | |]; cbn; try done.
Qed.

Lemma fail_migration_trace error :
  hoare TraceInv (fail_migration error)
    (fun _ _ => False) (fun _ t => FinalFailed t).
Proof.
  intros env t (Hok & Hseen & Hst). cbn. split; [| done].
  apply trace_ok_snoc; cbn; done.
Qed.

Lemma executeMigration_trace options :
  hoare Fresh (executeMigration options)
    (fun _ t => trace_ok (trace t)) (fun _ t => FinalFailed t).
Proof.
  unfold executeMigration. eapply hoare_try_catch.
  - eapply hoare_bind;
      [eapply hoare_never_throws; [apply begin_migration_trace | done]
      | intros ?].
    eapply hoare_bind;
      [apply (phase_pipeline_band InBand TraceInv trace_family) | intros ?].
    eapply hoare_never_throws; [apply complete_migration_trace |].
    by intros _ t (Hok & _).
  - intros error. cbn beta. apply (fail_migration_trace error).
Qed.

Lemma backgroundTask_trace options :
  hoare Fresh (backgroundTask options)
    (fun _ t => trace_ok (trace t)) (fun _ _ => False).
Proof.
  unfold backgroundTask. eapply hoare_try_catch.
  - apply executeMigration_trace.
  - intros error. cbn beta.
    eapply hoare_weaken;
      [apply (hoare_handleMigrationError FinalFailed FinalFailed_stable
                (fun _ _ => False)) | | |]; cbn; try done.
    by intros _ t [Hok _].
Qed.

Lemma task_of_fresh options jobId now eng mon clock :
  Fresh (task_of (new_job options jobId now) eng mon clock).
Proof. by repeat split. Qed.

Lemma at_most_le b b' x : (b <= b')%Q -> at_most b x -> at_most b' x.
Proof.
  intros Hle [H | H]; [left | by right]. by eapply Qle_trans.
Qed.

Lemma at_most_not_100 x : at_most 95 x -> ~ (x == 100)%Q.
Proof.
  intros [H | H] H100; rewrite H100 in H; revert H; unfold Qle, Qeq; cbn; lia.
Qed.

Lemma at_work_cancel t : at_work t -> at_work (client_cancel t).
Proof.
  intros H. destruct (client_cancel_cases t) as [-> | ->]; [done |].
  by right.
Qed.

Lemma hundred_only_late_nil : hundred_only_late [].
Proof. intros i o H. by rewrite lookup_nil in H. Qed.

Lemma hundred_only_late_snoc tr o :
  hundred_only_late tr ->
  ((obs_percentage o == 100)%Q ->
   (obs_status o = running \/ obs_status o = cancelled
    \/ obs_status o = completed)
   /\ cutover_started tr) ->
  hundred_only_late (tr ++ [o]).
Proof.
  intros Htr Ho i o' Hi H100.
  destruct (decide (i < List.length tr)%nat) as [Hlt | Hge].
  - rewrite lookup_app_l in Hi by done.
    destruct (Htr i o' Hi H100) as [Hs (j & o'' & Hj & Hl & He)].
    split; [done |]. exists j, o''. split; [done |].
    rewrite lookup_app_l by lia. by split.
  - assert (o' = o /\ i = List.length tr) as [-> ->].
    { rewrite lookup_app_r in Hi by lia.
      destruct (i - List.length tr)%nat as [| k] eqn:Hk;
        [| by destruct k].
      cbn in Hi. split; [congruence | lia]. }
    destruct (Ho H100) as [Hs (j & o'' & Hl & He)]. split; [done |].
    exists j, o''. split; [by eapply lookup_lt_Some |].
    rewrite lookup_app_l by (by eapply lookup_lt_Some). by split.
Qed.

Lemma cutover_started_snoc tr o :
  cutover_started tr -> cutover_started (tr ++ [o]).
Proof.
  intros (j & o' & Hl & He). exists j, o'. split; [| done].
  rewrite lookup_app_l; [done | by eapply lookup_lt_Some].
Qed.

Lemma hundred_only_late_early b tr :
  (b <= 95)%Q ->
  (forall o, o ∈ tr -> at_most b (obs_percentage o)) ->
  hundred_only_late tr.
Proof.
  intros Hb H i o Hi H100. exfalso.
  apply (at_most_not_100 (obs_percentage o)); [| done].
  apply (at_most_le b); [done |]. apply H. by eapply list_elem_of_lookup_2.
Qed.

(** ** The two families *)

Lemma Early_emit b ev t : Early b t -> Early b (emit_task ev t).
Proof.
  intros (Hall & Hp & Hw). split; [| by split].
  cbn [emit_task trace]. intros o Ho.
  apply elem_of_app in Ho as [Ho | Ho]; [by apply Hall |].
  apply list_elem_of_singleton in Ho. by subst o.
Qed.

Lemma Early_cancel b t : Early b t -> Early b (client_cancel t).
Proof.
  intros (Hall & Hp & Hw).
  destruct (client_cancel_cases t) as [-> | ->]; [done |].
  split; [| split; [by right | by right]].
  cbn [trace]. intros o Ho.
  apply elem_of_app in Ho as [Ho | Ho];
    [apply elem_of_app in Ho as [Ho | Ho] |];
    [by apply Hall | |];
    apply list_elem_of_singleton in Ho; subst o; by right.
Qed.

Lemma Early_stable b : stable (Early b).
Proof.
  split.
  - intros t t' (Hs & Hp & _ & Htr) (Hall & Hpct & Hw).
    unfold Early, at_work, pct in *. by rewrite Hs, Hp, Htr.
  - apply Early_emit.
  - apply Early_cancel.
Qed.

Lemma Early_family : phase_family Early (fun _ => True).
Proof.
  split; try done.
  - exact Early_stable.
  - intros b b' t Hle (Hall & Hp & Hw).
    split; [| split; [by apply (at_most_le b) | done]].
    intros o Ho. apply (at_most_le b); [done | by apply Hall].
  - intros p u t Hu (Hall & Hp & Hw).
    unfold Early, at_work, pct, updateProgress_task, merge_progress.
    rewrite Hu. cbn.
    split; [| split; [left; apply Qle_refl | done]].
    intros o Ho. apply elem_of_app in Ho as [Ho | Ho]; [by apply Hall |].
    apply list_elem_of_singleton in Ho. subst o. left. apply Qle_refl.
Qed.

Lemma Early_push b e t :
  Early b t -> Early b (set_job (push_error e (job t)) t).
Proof. intros H. exact H. Qed.

Lemma Late_emit b ev t : Late b t -> Late b (emit_task ev t).
Proof.
  intros (Hl & Hc & Hp & Hw). cbn [emit_task].
  split; [| split; [by apply cutover_started_snoc | by split]].
  cbn [trace]. apply hundred_only_late_snoc; [done |].
  intros _. split; [| done]. cbn. destruct Hw; auto.
Qed.

Lemma Late_cancel b t : Late b t -> Late b (client_cancel t).
Proof.
  intros (Hl & Hc & Hp & Hw).
  destruct (client_cancel_cases t) as [-> | ->]; [done |].
  split; [| split; [by do 2 apply cutover_started_snoc
                   | split; [by right | by right]]].
  cbn [trace].
  apply hundred_only_late_snoc; [apply hundred_only_late_snoc |];
    [done | |]; intros H100; by cbn in H100.
Qed.

Lemma Late_stable b : stable (Late b).
Proof.
  split.
  - intros t t' (Hs & Hp & _ & Htr) (Hl & Hc & Hpct & Hw).
    unfold Late, at_work, pct in *. by rewrite Hs, Hp, Htr.
  - apply Late_emit.
  - apply Late_cancel.
Qed.

Lemma Late_family : phase_family Late (fun _ => True).
Proof.
  split; try done.
  - exact Late_stable.
  - intros b b' t Hle (Hl & Hc & Hp & Hw).
    split; [done |]. split; [done |]. split; [by apply (at_most_le b) | done].
  - intros p u t Hu (Hl & Hc & Hp & Hw).
    unfold Late, at_work, pct, updateProgress_task, merge_progress.
    rewrite Hu. cbn.
    split; [| split; [by apply cutover_started_snoc
                     | split; [left; apply Qle_refl | done]]].
    apply hundred_only_late_snoc; [done |].
    intros _. split; [| done]. cbn. destruct Hw; auto.
Qed.

Lemma Late_push b e t :
  Late b t -> Late b (set_job (push_error e (job t)) t).
Proof. intros H. exact H. Qed.

Lemma Early_starts_cutover t :
  Early 95 t -> Late 95 (emit_task (migration_phase_started cutover) t).
Proof.
  intros (Hall & Hp & Hw). cbn [emit_task].
  split; [| split; [| by split]]; cbn [trace].
  - apply hundred_only_late_snoc.
    + by apply (hundred_only_late_early 95).
    + intros H100. cbn in H100. by apply at_most_not_100 in Hp.
  - exists (List.length (trace t)), (observe (migration_phase_started cutover) (job t)).
    split; [| done]. by apply list_lookup_middle.
Qed.

Lemma Early_short b t : (b <= 95)%Q -> Early b t -> Short t.
Proof.
  intros Hb (Hall & Hp & Hw).
  split; [by apply (hundred_only_late_early b) |].
  split; [by apply (at_most_le b) | done].
Qed.

Lemma Late_short t : Late 95 t -> Short t.
Proof. by intros (Hl & _ & Hp & Hw). Qed.

Lemma FailedShort_stable : stable FailedShort.
Proof.
  split.
  - intros t t' (Hs & Hp & _ & Htr) (Hl & Hpct & Hf).
    unfold FailedShort, pct in *. by rewrite Hs, Hp, Htr.
  - intros ev t (Hl & Hp & Hf). split; [| by split]. cbn [emit_task trace].
    apply hundred_only_late_snoc; [done |].
    intros H100. cbn in H100. by apply at_most_not_100 in Hp.
  - intros t (Hl & Hp & Hf). by rewrite client_cancel_failed.
Qed.

(** ** The retry loop, with what holds when it throws *)

Section phases_kept.
Context (R : Q -> Task -> Prop).
Context (fam : phase_family R (fun _ => True)).
Context (push_any :
           forall b e t, R b t -> R b (set_job (push_error e (job t)) t)).

Lemma phase_recover_kept lo phase retryCount error e :
  hoare (R lo) (phase_recover phase retryCount error e)
    (fun _ t => R lo t) (fun _ t => R lo t).
Proof.
  pose proof (fam_stable _ _ fam lo) as stable_R.
  unfold phase_recover. case_match.
  - eapply hoare_bind_pure; [by apply hoare_handleError |].
    intros r (o & eng & jobId & ->).
    pose proof (handleError_shape o eng jobId e phase) as Hshape.
    destruct (Recovery.handleError o eng jobId e phase) as [[r w] eng'].
    cbn [fst] in *.
    apply (hoare_bind _ _ _ (fun _ t => R lo t)).
    + destruct Hshape as [[Hs [Ha | Ha]] | [Hs _]]; rewrite Hs, ?Ha.
      * eapply hoare_bind; [| intros ?; intros env t Ht; cbn; exact Ht].
        case_match; [by apply hoare_suspend |].
        intros env t Ht. by cbn.
      * eapply hoare_bind; [by apply hoare_updatePhaseStatus | intros ?].
        eapply hoare_bind; [by apply hoare_emit | intros ?].
        intros env t Ht. by cbn.
      * intros env t Ht. by cbn.
    + intros [ctl |]; [intros env t Ht; by cbn |].
      case_match; [| intros env t Ht; by cbn].
      eapply hoare_bind; [by apply hoare_updatePhaseStatus | intros ?].
      eapply hoare_bind; [by apply hoare_emit | intros ?].
      by apply hoare_throw_to.
  - eapply hoare_bind; [by apply hoare_updatePhaseStatus | intros ?].
    eapply hoare_bind; [by apply hoare_handleMigrationError | intros ?].
    by apply hoare_throw_to.
Qed.

Lemma phase_catch_kept lo phase retryCount error :
  hoare (R lo) (phase_catch phase retryCount error)
    (fun _ t => R lo t) (fun _ t => R lo t).
Proof.
  pose proof (fam_stable _ _ fam lo) as stable_R.
  unfold phase_catch.
  eapply hoare_bind_pure; [by apply hoare_createMigrationError |].
  intros e _.
  eapply hoare_bind; [by apply hoare_recordError | intros ?].
  eapply hoare_bind.
  { apply (hoare_modify _ (R lo)). intros t Ht. by apply push_any. }
  intros ?. apply phase_recover_kept.
Qed.

Lemma phase_round_kept (P : Task -> Prop) lo hi phase executor retryCount :
  (lo <= hi)%Q -> executor_band R lo hi executor ->
  stable P ->
  (forall t, P t -> R lo (emit_task (migration_phase_started phase) t)) ->
  hoare P
    (try_catch
       (updatePhaseStatus phase phase_running;;
        emit (migration_phase_started phase);;
        executor;;
        updatePhaseStatus phase phase_completed;;
        emit (migration_phase_completed phase);;
        mret LoopReturn)
       (phase_catch phase retryCount))
    (fun ctl t =>
       match ctl with
       | LoopReturn => R hi t
       | LoopContinue => R lo t
       end)
    (fun _ t => R lo t).
Proof.
  intros Hle Hex stable_P Hstart.
  pose proof (fam_stable _ _ fam) as stable_R.
  eapply hoare_try_catch.
  - eapply hoare_bind; [by apply hoare_updatePhaseStatus | intros ?].
    eapply hoare_bind; [apply hoare_modify; exact Hstart | intros ?].
    eapply hoare_bind; [apply Hex | intros ?].
    eapply hoare_bind; [by apply hoare_updatePhaseStatus | intros ?].
    eapply hoare_bind; [by apply hoare_emit | intros ?].
    intros env t Ht. cbn. exact Ht.
  - intros e. cbn beta.
    eapply hoare_weaken; [apply (phase_catch_kept lo) | | |];
      cbn; eauto.
    intros [|] t Ht; [by apply (fam_weaken _ _ fam lo) | done].
Qed.

Lemma phase_attempts_kept lo hi phase executor :
  (lo <= hi)%Q -> executor_band R lo hi executor ->
  forall left,
    hoare (R lo) (phase_attempts phase executor left)
      (fun _ t => R hi t) (fun _ t => R lo t).
Proof.
  intros Hle Hex. induction left as [| left IH]; cbn [phase_attempts].
  - intros env t Ht. cbn. by apply (fam_weaken _ _ fam lo).
  - eapply hoare_bind.
    + apply (phase_round_kept (R lo) lo hi); [done | done | |].
      * apply (fam_stable _ _ fam).
      * intros t. apply (stable_emit _ (fam_stable _ _ fam lo)).
    + intros [|]; [intros env t Ht; by cbn | exact IH].
Qed.

(** The loop entered in a state with [P], which the start of the phase
    turns into [R lo]. *)
Lemma phase_attempts_entered (P : Task -> Prop) lo hi phase executor left :
  (lo <= hi)%Q -> executor_band R lo hi executor ->
  stable P ->
  (forall t, P t -> R lo (emit_task (migration_phase_started phase) t)) ->
  hoare P (phase_attempts phase executor (S left))
    (fun _ t => R hi t) (fun _ t => R lo t).
Proof.
  intros Hle Hex stable_P Hstart. cbn [phase_attempts].
  eapply hoare_bind.
  - by apply (phase_round_kept P lo hi).
  - intros [|]; [intros env t Ht; by cbn |].
    by apply phase_attempts_kept.
Qed.

Lemma executePhase_kept (P : Task -> Prop) lo hi phase executor :
  (lo <= hi)%Q -> executor_band R lo hi executor ->
  stable P ->
  (forall t, P t -> R lo (emit_task (migration_phase_started phase) t)) ->
  hoare P (executePhase phase executor)
    (fun _ t => R hi t) (fun _ t => R lo t).
Proof.
  intros Hle Hex stable_P Hstart. unfold executePhase.
  eapply hoare_bind; [by apply hoare_draw | intros checkpointId].
  eapply hoare_bind;
    [apply hoare_view_modify; [apply stable_P | by intros t] | intros ?].
  by apply phase_attempts_entered.
Qed.

End phases_kept.

(** ** The phases of a run *)

Lemma early_phase_short lo lo' hi (use : bool) phase executor :
  (lo <= lo')%Q -> (lo' <= hi)%Q -> (lo' <= 95)%Q ->
  executor_band Early lo' hi executor ->
  hoare (Early lo)
    (if use then executePhase phase executor else mret tt)
    (fun _ t => Early hi t) (fun _ t => Short t).
Proof.
  intros H1 H2 H3 Hex. destruct use.
  - eapply hoare_weaken;
      [apply (executePhase_kept Early Early_family Early_push (Early lo')
                lo' hi phase executor H2 Hex (Early_stable lo'))
      | | |]; cbn.
    + intros t. apply Early_emit.
    + intros t. by apply (fam_weaken _ _ Early_family lo).
    + done.
    + intros _ t. by apply Early_short.
  - intros env t Ht. cbn. apply (fam_weaken _ _ Early_family lo); [| done].
    by eapply Qle_trans.
Qed.

Lemma phase_pipeline_late options :
  hoare (Early 5) (phase_pipeline options)
    (fun _ t => Late 100 t) (fun _ t => Short t).
Proof.
  unfold phase_pipeline.
  eapply hoare_bind;
    [apply (early_phase_short 5 5 10 true); [qle | qle | qle |];
     by apply (prepareTargetProject_band _ _ Early_family) | intros ?].
  eapply hoare_bind;
    [apply (early_phase_short 10 15 30 true); [qle | qle | qle |];
     by apply (migrateSchema_band _ _ Early_family) | intros ?].
  eapply hoare_bind;
    [apply (early_phase_short 30 35 60); [qle | qle | qle |];
     by apply (migrateData_band _ _ Early_family) | intros ?].
  eapply hoare_bind;
    [apply (early_phase_short 60 60 70); [qle | qle | qle |];
     by apply (migrateStorage_band _ _ Early_family) | intros ?].
  eapply hoare_bind;
    [apply (early_phase_short 70 70 75 true); [qle | qle | qle |];
     by apply (migrateConfiguration_band _ _ Early_family) | intros ?].
  eapply hoare_bind;
    [apply (early_phase_short 75 75 80); [qle | qle | qle |];
     by apply (migrateEdgeFunctions_band _ _ Early_family) | intros ?].
  eapply hoare_bind;
    [apply (early_phase_short 80 80 85 true); [qle | qle | qle |];
     by apply (migrateSecurity_band _ _ Early_family) | intros ?].
  eapply hoare_bind;
    [apply (early_phase_short 85 85 90 true); [qle | qle | qle |];
     by apply (setupRealtime_band _ _ Early_family) | intros ?].
  eapply hoare_bind;
    [apply (early_phase_short 90 90 95 true); [qle | qle | qle |];
     by apply (validateMigration_band _ _ Early_family) | intros ?].
  eapply hoare_weaken;
    [apply (executePhase_kept Late Late_family Late_push (Early 95)
              95 100 cutover (performCutover options))
    | | |]; cbn.
  - qle.
  - apply (performCutover_band _ _ Late_family).
  - apply Early_stable.
  - apply Early_starts_cutover.
  - done.
  - done.
  - intros _ t. apply Late_short.
Qed.

Lemma begin_migration_early :
  hoare Fresh begin_migration (fun _ t => Early 5 t) (fun _ _ => False).
Proof.
  intros env t (Htr & Hp & _).
  change (Early 5
            (emit_task migration_started
               (set_job (set_started_at (clock t) (set_status running (job t)))
                  t))).
  apply Early_emit. unfold Early, at_work, pct. cbn [set_job trace job].
  rewrite Htr. split; [intros o Ho; by apply elem_of_nil in Ho |].
  split; [right; cbn; by rewrite Hp | by left].
Qed.

Lemma complete_migration_late :
  hoare (Late 100) complete_migration
    (fun _ t => hundred_only_late (trace t)) (fun _ _ => False).
Proof.
  intros env t (Hl & Hc & Hp & Hw). cbn.
  apply hundred_only_late_snoc; [apply hundred_only_late_snoc |]; [done | |];
    intros _; (split; [by right; right |]);
    [done | by apply cutover_started_snoc].
Qed.

Lemma fail_migration_short error :
  hoare Short (fail_migration error)
    (fun _ _ => False) (fun _ t => FailedShort t).
Proof.
  intros env t (Hl & Hp & Hw). cbn. split; [| by split].
  apply hundred_only_late_snoc; [done |].
  intros H100. cbn in H100. by apply at_most_not_100 in Hp.
Qed.

Lemma executeMigration_late options :
  hoare Fresh (executeMigration options)
    (fun _ t => hundred_only_late (trace t)) (fun _ t => FailedShort t).
Proof.
  unfold executeMigration. eapply hoare_try_catch.
  - eapply hoare_bind;
      [eapply hoare_never_throws; [apply begin_migration_early | done]
      | intros ?].
    eapply hoare_bind; [apply phase_pipeline_late | intros ?].
    eapply hoare_never_throws; [apply complete_migration_late | done].
  - intros error. cbn beta. apply (fail_migration_short error).
Qed.

Lemma backgroundTask_late options :
  hoare Fresh (backgroundTask options)
    (fun _ t => hundred_only_late (trace t)) (fun _ _ => False).
Proof.
  unfold backgroundTask. eapply hoare_try_catch.
  - apply executeMigration_late.
  - intros error. cbn beta.
    eapply hoare_weaken;
      [apply (hoare_handleMigrationError FailedShort FailedShort_stable
                (fun _ _ => False)) | | |]; cbn; try done.
    by intros _ t [Hok _].
Qed.

(** C2 as amended. In every run of a job (with any responses of the
    collaborators, any faults and any cancellations by clients) the overall
    percentage observed while the status is running never decreases, and
    whenever the status is completed the percentage is 100. The percentage
    is 100 only late and only for a job at work or done: every observation
    that shows 100 comes after the start of the cutover phase and shows the
    status running, cancelled or completed, never pending or failed. *)
Theorem percentage_monotone_while_running_and_100_when_completed :
  forall options jobId now eng mon clock env,
    let final :=
      (backgroundTask options env
         (task_of (new_job options jobId now) eng mon clock)).2 in
    monotone_while_running (trace final) /\ completed_at_100 (trace final)
    /\ hundred_only_late (trace final).
Proof.
  intros options jobId now eng mon clock env final.
  pose proof (backgroundTask_trace options env _
                (task_of_fresh options jobId now eng mon clock)) as H.
  pose proof (backgroundTask_late options env _
                (task_of_fresh options jobId now eng mon clock)) as H'.
  subst final.
  destruct (backgroundTask options env _) as [[a | e] t']; [| done].
  destruct H as [H1 H2]. by split.
Qed.

(** C2, counterexample. In the run in which every collaborator succeeds and
    no client cancels, the job is observed with status running at 100 per
    cent: the cutover phase reports 100 before [complete_migration] sets the
    status to completed. *)
Lemma running_job_shows_100 :
  exists o,
    o ∈ trace smooth_run /\ obs_status o = running
    /\ (obs_percentage o == 100)%Q.
Proof.
  exists {| obs_event := migration_progress; obs_status := running;
            obs_percentage := 100 |}.
  split; [| by split].
  apply (list_elem_of_lookup_2 _ 79). vm_compute. reflexivity.
Qed.

(** In the run in which a client cancels at the first suspension, the job
    is observed with status cancelled at 100 per cent: the executor runs on,
    and the cutover phase reports 100 for the cancelled job. *)
Lemma cancelled_job_shows_100 :
  exists o,
    o ∈ trace cancelled_run /\ obs_status o = cancelled
    /\ (obs_percentage o == 100)%Q.
Proof.
  exists {| obs_event := migration_progress; obs_status := cancelled;
            obs_percentage := 100 |}.
  split; [| by split].
  apply (list_elem_of_lookup_2 _ 81). vm_compute. reflexivity.
Qed.

(** ** Faults classified PERMISSION_DENIED *)

Lemma NoPermission_stable : stable NoPermission.
Proof.
  split.
  - intros t t' (_ & _ & Hl & _) H. unfold NoPermission. by rewrite Hl.
  - by intros ev t H.
  - intros t H. by destruct (client_cancel_cases t) as [-> | ->].
Qed.

Lemma permission_family :
  phase_family (fun _ => NoPermission) (fun _ => True).
Proof.
  split; try done.
  - intros _. exact NoPermission_stable.
  - intros b e t He H e' He'. cbn in He'.
    apply elem_of_app in He' as [He' | He']; [by apply H |].
    apply list_elem_of_singleton in He'. by subst e'.
Qed.

Lemma executeMigration_permission options :
  hoare NoPermission (executeMigration options)
    (fun _ t => NoPermission t) (fun _ t => Failed t).
Proof.
  unfold executeMigration. eapply hoare_try_catch.
  - apply (hoare_bind _ _ _ (fun _ t => NoPermission t));
      [intros env t H; exact H | intros ?].
    eapply hoare_bind;
      [apply (phase_pipeline_band _ _ permission_family) | intros ?].
    intros env t H. exact H.
  - intros error. intros env t _. by cbn.
Qed.

Lemma backgroundTask_permission options :
  hoare NoPermission (backgroundTask options)
    (fun _ t => NoPermission t \/ Failed t) (fun _ _ => False).
Proof.
  unfold backgroundTask.
  apply (hoare_try_catch _ _ _ (fun _ t => Failed t)).
  - eapply hoare_weaken; [apply executeMigration_permission | | |];
      cbn; try done. by left.
  - intros error. cbn beta.
    eapply hoare_weaken;
      [apply (hoare_handleMigrationError Failed Failed_stable
                (fun _ _ => False)) | | |]; cbn; try done.
    by right.
Qed.

Lemma phase_recover_permission_run phase retryCount error e env t :
  (let '(r, waits, eng') := Recovery.handleError (env_recovery env (tick t)) (recoveryEngine t) (job_id (job t)) e phase in
  success r = false
  /\ requiresManualIntervention r = Some true
  /\ waits = []
  /\ (attempts_made eng' <= attempts_made (recoveryEngine t) + 1)%nat) ->
  match phase_recover phase retryCount error e env t with
  | (Threw _, t') =>
      (attempts_made (recoveryEngine t')
       <= attempts_made (recoveryEngine t) + 1)%nat
  | (Returned _, _) => False
  end.
Proof.
  intros H. unfold phase_recover.
  destruct (retryCount <? phase_maxRetries)%nat.
  - unfold handleError, draw, ask, get_task, modify, mbind, M_bind, mret,
      M_ret.
    cbn [next_tick recoveryEngine job].
    destruct (Recovery.handleError _ _ _ _ _) as [[r w] eng'].
    destruct H as (Hs & Hm & -> & Hle).
    cbn [sleeps mret M_ret set_recoveryEngine]. rewrite Hs, Hm.
    exact Hle.
  - unfold updatePhaseStatus, handleMigrationError, createMigrationError,
      recordError, emit, draw, ask, get_task, modify, throw, mbind, M_bind,
      mret, M_ret.
    cbn [recoveryEngine set_job emit_task set_monitoringSystem next_tick].
    lia.
Qed.

Lemma phase_recover_permission_attempts phase retryCount error e env t :
  match phase_recover phase retryCount error
          (fault "PERMISSION_DENIED" e) env t with
  | (Threw _, t') =>
      (attempts_made (recoveryEngine t')
       <= attempts_made (recoveryEngine t) + 1)%nat
  | (Returned _, _) => False
  end.
Proof.
  apply phase_recover_permission_run.
  pose proof (handleError_permission (env_recovery env (tick t))
                (recoveryEngine t) (job_id (job t))
                (fault "PERMISSION_DENIED" e) phase eq_refl) as H.
  destruct (Recovery.handleError _ _ _ _ _) as [[r w] eng'].
  destruct H as (H1 & H2 & H3 & H4 & H5). done.
Qed.

(** C4. On a fault with code PERMISSION_DENIED [handleError] decides manual
    intervention, without success and without a timer, having executed at
    most one strategy for it; the catch block of [executePhase] then throws
    instead of retrying, with at most that one recovery attempt made; and a
    run of a job whose error log holds such a fault ends with status
    failed. *)
Theorem permission_denied_goes_to_manual_intervention :
  (forall o eng jobId e phase,
     let '(r, waits, eng') :=
       Recovery.handleError o eng jobId (fault "PERMISSION_DENIED" e) phase in
     action r = manual_intervention
     /\ success r = false
     /\ requiresManualIntervention r = Some true
     /\ waits = []
     /\ (attempts_made eng' <= attempts_made eng + 1)%nat)
  /\ (forall phase retryCount error e env t,
        match phase_recover phase retryCount error
                (fault "PERMISSION_DENIED" e) env t with
        | (Threw _, t') =>
            (attempts_made (recoveryEngine t')
             <= attempts_made (recoveryEngine t) + 1)%nat
        | (Returned _, _) => False
        end)
  /\ (forall options jobId now eng mon clock env,
        let final :=
          (backgroundTask options env
             (task_of (new_job options jobId now) eng mon clock)).2 in
        (exists e, e ∈ error_log (job final)
                   /\ error_code e = "PERMISSION_DENIED") ->
        status (job final) = failed).
Proof.
  split; [| split].
  - intros o eng jobId e phase.
    pose proof (handleError_permission o eng jobId
                  (fault "PERMISSION_DENIED" e) phase eq_refl) as H.
    destruct (Recovery.handleError _ _ _ _ _) as [[r w] eng'].
    destruct H as (H1 & H2 & H3 & H4 & H5). done.
  - exact phase_recover_permission_attempts.
  - intros options jobId now eng mon clock env final (e & He & Hc).
    assert (NoPermission (task_of (new_job options jobId now) eng mon clock))
      as Hpre.
    { intros e' He'. by apply elem_of_nil in He'. }
    pose proof (backgroundTask_permission options env _ Hpre) as H.
    subst final.
    destruct (backgroundTask options env _) as [[a | e'] t']; [| done].
    cbn [snd] in *. destruct H as [H | H]; [| exact H].
    by destruct (H e He).
Qed.

Lemma permission_denied_goes_to_manual_intervention_witness :
  let final :=
    (backgroundTask (sample_options 4) denied_world
       (task_of (new_job (sample_options 4) "migration_1" 0)
          Recovery.new_engine Monitoring.new_monitor 0)).2 in
  (exists e, e ∈ error_log (job final)
             /\ error_code e = "PERMISSION_DENIED")
  /\ status (job final) = failed.
Proof.
  cbv zeta.
  assert (exists e,
            e ∈ error_log
                  (job (backgroundTask (sample_options 4) denied_world
                          (task_of (new_job (sample_options 4) "migration_1" 0)
                             Recovery.new_engine Monitoring.new_monitor 0)).2)
            /\ error_code e = "PERMISSION_DENIED") as H.
  { eexists. split; [apply (list_elem_of_lookup_2 _ 0%nat); vm_compute;
                     reflexivity | reflexivity]. }
  split; [exact H |].
  exact (proj2 (proj2 permission_denied_goes_to_manual_intervention)
           (sample_options 4) "migration_1" 0 Recovery.new_engine
           Monitoring.new_monitor 0 denied_world H).
Defined.

(** ** Cancellation *)

Lemma executeMigration_final_status options :
  hoare (fun _ => True) (executeMigration options)
    (fun _ t => status (job t) = completed /\ registered t = false)
    (fun _ t => status (job t) = failed).
Proof.
  unfold executeMigration. eapply hoare_try_catch.
  - eapply hoare_bind; [apply hoare_any | intros ?].
    eapply hoare_bind; [apply hoare_any | intros ?].
    intros env t _. by cbn.
  - intros error env t _. by cbn.
Qed.

Lemma cancelMigration_cases activeJobs jobId :
  match activeJobs !! jobId with
  | None => cancelMigration activeJobs jobId = inl "Migration job not found"
  | Some j =>
      if bool_decide (status j = completed) || bool_decide (status j = failed)
      then cancelMigration activeJobs jobId
           = inl "Cannot cancel completed or failed migration"
      else cancelMigration activeJobs jobId
           = inr (<[jobId := cancelled_job j]> activeJobs,
                  [observe migration_progress (cancelled_job j);
                   observe migration_cancelled (cancelled_job j)])
  end.
Proof.
  unfold cancelMigration, cancelJob.
  destruct (activeJobs !! jobId) as [j |]; [| done].
  by destruct (_ || _).
Qed.

(** C1, as amended. [cancelMigration] is refused, and changes nothing, when
    no job is registered under the identifier or when the job is completed
    or failed; for a pending, running or already cancelled job it stores the
    job with status cancelled and overall percentage 0 and emits the
    progress and the cancellation events. The executor never reads the
    status: whatever happens during a run, cancellation included,
    [executeMigration] ends with the job completed and unregistered, or
    throws with the job failed. *)
Theorem cancel_marks_the_job_and_the_executor_runs_on :
  (forall activeJobs jobId,
     activeJobs !! jobId = None ->
     cancelMigration activeJobs jobId = inl "Migration job not found")
  /\ (forall activeJobs jobId j,
        activeJobs !! jobId = Some j ->
        status j = completed \/ status j = failed ->
        cancelMigration activeJobs jobId
        = inl "Cannot cancel completed or failed migration")
  /\ (forall activeJobs jobId j,
        activeJobs !! jobId = Some j ->
        status j = pending \/ status j = running \/ status j = cancelled ->
        cancelMigration activeJobs jobId
        = inr (<[jobId := cancelled_job j]> activeJobs,
               [observe migration_progress (cancelled_job j);
                observe migration_cancelled (cancelled_job j)])
        /\ status (cancelled_job j) = cancelled
        /\ overall_percentage (progress (cancelled_job j)) = 0%Q)
  /\ (forall options env t,
        match executeMigration options env t with
        | (Returned _, t') =>
            status (job t') = completed /\ registered t' = false
        | (Threw _, t') => status (job t') = failed
        end).
Proof.
  split; [| split; [| split]].
  - intros activeJobs jobId H.
    pose proof (cancelMigration_cases activeJobs jobId) as Hc.
    by rewrite H in Hc.
  - intros activeJobs jobId j H Hs.
    pose proof (cancelMigration_cases activeJobs jobId) as Hc.
    rewrite H in Hc. by destruct Hs as [Hs | Hs]; rewrite Hs in Hc.
  - intros activeJobs jobId j H Hs.
    pose proof (cancelMigration_cases activeJobs jobId) as Hc.
    rewrite H in Hc.
    by destruct Hs as [Hs | [Hs | Hs]]; rewrite Hs in Hc.
  - intros options env t.
    exact (executeMigration_final_status options env t I).
Qed.

Lemma cancel_marks_the_job_and_the_executor_runs_on_witness :
  cancelMigration ∅ "migration_1" = inl "Migration job not found"
  /\ cancelMigration {[ "migration_1" := set_status failed waiting_job ]}
       "migration_1"
     = inl "Cannot cancel completed or failed migration"
  /\ (let j := set_status running waiting_job in
      cancelMigration {[ "migration_1" := j ]} "migration_1"
      = inr (<[ "migration_1" := cancelled_job j ]> {[ "migration_1" := j ]},
             [observe migration_progress (cancelled_job j);
              observe migration_cancelled (cancelled_job j)])
      /\ status (cancelled_job j) = cancelled
      /\ overall_percentage (progress (cancelled_job j)) = 0%Q).
Proof.
  destruct cancel_marks_the_job_and_the_executor_runs_on
    as (H1 & H2 & H3 & _).
  split; [| split].
  - apply H1. apply lookup_empty.
  - apply (H2 _ _ (set_status failed waiting_job));
      [apply lookup_singleton_eq | by right].
  - apply H3; [apply lookup_singleton_eq | right; by left].
Defined.

(** C1, counterexample. A client cancels the job while the first phase waits
    for the target project: the cancellation event is observed, and yet the
    schema migration and every later phase up to the cutover are started
    afterwards, and the run ends with status completed. A job whose status
    is cancelled can also be cancelled again. *)
Lemma cancelled_job_runs_to_completion :
  (obs_event <$> trace cancelled_run !! 5%nat) = Some migration_cancelled
  /\ (obs_event <$> trace cancelled_run !! 9%nat)
     = Some (migration_phase_started schema_migration)
  /\ (obs_event <$> trace cancelled_run !! 78%nat)
     = Some (migration_phase_started cutover)
  /\ status (job cancelled_run) = completed
  /\ (exists r,
        cancelMigration
          {[ "migration_1" := set_status cancelled waiting_job ]}
          "migration_1" = inr r).
Proof.
  split; [vm_compute; reflexivity |].
  split; [vm_compute; reflexivity |].
  split; [vm_compute; reflexivity |].
  split; [vm_compute; reflexivity |].
  eexists. vm_compute. reflexivity.
Qed.

(** ** Retries after a connection timeout *)

Lemma handleError_connection_timeout o eng jobId e phase :
  let '(r, waits, eng') :=
    Recovery.handleError o (Recovery.delete_recovery jobId eng) jobId
      (fault "CONNECTION_TIMEOUT" e) phase in
  success r = true /\ action r = retry /\ delayBeforeRetry r = Some 1000
  /\ waits = [] /\ activeRecoveries eng' !! jobId = None.
Proof.
  unfold Recovery.handleError.
  change (Recovery.findApplicableStrategies (fault "CONNECTION_TIMEOUT" e))
    with [ {| strategy_id := "connection-retry";
              strategy_name := "Connection Retry";
              strategy_description :=
                "Retry operations that failed due to connection issues";
              applicableErrors :=
                ["CONNECTION_TIMEOUT"; "CONNECTION_REFUSED"; "NETWORK_ERROR"];
              maxRetries := 5; backoffStrategy := exponential;
              baseDelay := 1000; maxDelay := 30000;
              execute := ConnectionRetry |} ].
  cbn [List.length Nat.eqb Recovery.emit Recovery.delete_recovery
       activeRecoveries].
  rewrite lookup_delete_eq.
  cbn [Recovery.try_strategies maxRetries attemptNumber Nat.ltb Nat.leb
       execute Recovery.run_executor Recovery.executeConnectionRetry success
       strategy_id app].
  repeat (split; [reflexivity |]).
  cbn. apply lookup_delete_eq.
Qed.

(** C5 (the code departs from the claim). [handleError] deletes the recovery
    context of the job whenever a strategy succeeds, so each
    CONNECTION_TIMEOUT fault meets the connection-retry strategy at attempt
    number 1 and is answered with a retry after the base delay of 1000 ms.
    In a run whose target project never becomes healthy the preparation
    phase is retried three times, the three delays are 1000, 1000 and
    1000 ms (the other timers are the 10 s polls), the job ends failed and
    the log holds the four faults. *)
Theorem connection_timeout_retries_wait_a_constant_delay :
  (forall o eng jobId e phase,
     let '(r, waits, eng') :=
       Recovery.handleError o (Recovery.delete_recovery jobId eng) jobId
         (fault "CONNECTION_TIMEOUT" e) phase in
     success r = true /\ action r = retry /\ delayBeforeRetry r = Some 1000
     /\ waits = [] /\ activeRecoveries eng' !! jobId = None)
  /\ timers_other_than 10000 (trace timeout_run) = [1000; 1000; 1000]
  /\ status (job timeout_run) = failed
  /\ List.map error_code (error_log (job timeout_run))
     = ["CONNECTION_TIMEOUT"; "CONNECTION_TIMEOUT"; "CONNECTION_TIMEOUT";
        "CONNECTION_TIMEOUT"].
Proof.
  split; [exact handleError_connection_timeout |].
  split; [vm_compute; reflexivity |].
  split; vm_compute; reflexivity.
Qed.

(** * Further properties of the validators *)

Lemma concat_imap_nil {A B : Type} (f : nat -> A -> list B) (l : list A) :
  concat (imap f l) = [] <-> forall i x, l !! i = Some x -> f i x = [].
Proof.
  revert f. induction l as [| a l IH]; intros f; cbn [imap concat].
  - split; [intros _ i x Hi; by rewrite lookup_nil in Hi | done].
  - rewrite app_nil, IH. split.
    + intros [Ha Hl] [| i] x Hi; cbn in Hi; [by inversion Hi; subst | by apply Hl].
    + intros H. split; [by apply (H 0%nat) |]. intros i x Hi. by apply (H (S i)).
Qed.

Lemma filter_errors_nil index filter :
  InputValidator.filter_errors index filter = []
  <-> InputValidator.isValidTableName (table filter) = true
      /\ InputValidator.isValidWhereClause (where_clause filter) = true.
Proof.
  unfold InputValidator.filter_errors. rewrite app_nil.
  assert (InputValidator.isValidTableName EmptyString = false) as Ht by done.
  assert (InputValidator.isValidWhereClause EmptyString = false) as Hw by done.
  destruct (String.eqb_spec (table filter) EmptyString) as [-> | _];
    destruct (String.eqb_spec (where_clause filter) EmptyString) as [-> | _];
    rewrite ?Ht, ?Hw; cbn [orb negb];
    repeat match goal with
           | |- context [InputValidator.isValidTableName ?x] =>
               destruct (InputValidator.isValidTableName x)
           | |- context [InputValidator.isValidWhereClause ?x] =>
               destruct (InputValidator.isValidWhereClause x)
           end; cbn [negb]; split; intros [? ?]; done.
Qed.

Lemma exclude_errors_nil index name :
  InputValidator.exclude_errors index name = []
  <-> InputValidator.isValidTableName name = true.
Proof.
  unfold InputValidator.exclude_errors.
  by destruct (InputValidator.isValidTableName name).
Qed.

(** X1. [validateMigrationConfig] reports no error, and so accepts the
    configuration, exactly when the clone type is one of the three known
    ones, the target region is not empty, the threads are within 1-20 and
    the batch size within 100-10000, every data filter has a valid table
    name and a valid where clause, and every excluded table has a valid
    name. *)
Theorem validateMigrationConfig_accepts_exactly c :
  let r := InputValidator.validateMigrationConfig c in
  (valid r = true <-> errors r = [])
  /\ (valid r = true <->
      clone_type c ∈ ["full_clone"; "schema_only"; "data_subset"]
      /\ target_region c <> EmptyString
      /\ 1 <= parallel_threads c <= 20
      /\ 100 <= batch_size c <= 10000
      /\ (forall filters, data_filters c = Some filters ->
            Forall (fun f =>
                      InputValidator.isValidTableName (table f) = true
                      /\ InputValidator.isValidWhereClause (where_clause f)
                         = true) filters)
      /\ (forall tables, exclude_tables c = Some tables ->
            Forall (fun name => InputValidator.isValidTableName name = true)
              tables)).
Proof.
  cbn zeta.
  assert (forall l : list string, (List.length l =? 0)%nat = true <-> l = [])
    as Hlen.
  { intros [| x l]; cbn; [done |]. split; intros; discriminate. }
  split; [apply Hlen |].
  unfold InputValidator.validateMigrationConfig. cbn [valid].
  rewrite Hlen, !app_nil.
  assert ((if String.eqb (clone_type c) EmptyString
              || negb (existsb (String.eqb (clone_type c))
                         ["full_clone"; "schema_only"; "data_subset"])
           then ["Invalid clone_type"] else []) = []
          <-> clone_type c ∈ ["full_clone"; "schema_only"; "data_subset"])
    as ->.
  { cbn [existsb].
    destruct (String.eqb_spec (clone_type c) "full_clone") as [-> | H1];
      [cbn; split; [intros _; apply list_elem_of_here | done] |].
    destruct (String.eqb_spec (clone_type c) "schema_only") as [-> | H2];
      [cbn; split; [intros _; apply list_elem_of_further, list_elem_of_here | done] |].
    destruct (String.eqb_spec (clone_type c) "data_subset") as [-> | H3];
      [cbn; split;
       [intros _; do 2 apply list_elem_of_further; apply list_elem_of_here
       | done] |].
    rewrite orb_true_r. split; [done |]. intros H.
    repeat (apply elem_of_cons in H as [H | H]; [done |]).
    by apply elem_of_nil in H. }
  assert ((if String.eqb (target_region c) EmptyString
           then ["Invalid target_region"] else []) = []
          <-> target_region c <> EmptyString) as ->.
  { by destruct (String.eqb_spec (target_region c) EmptyString). }
  assert ((if (parallel_threads c =? 0) || (parallel_threads c <? 1)
              || (20 <? parallel_threads c)
           then ["parallel_threads must be between 1 and 20"] else []) = []
          <-> 1 <= parallel_threads c <= 20) as ->.
  { destruct (_ || _) eqn:H; (split; [try done; lia |]); intros; [lia | done]. }
  assert ((if (batch_size c =? 0) || (batch_size c <? 100)
              || (10000 <? batch_size c)
           then ["batch_size must be between 100 and 10000"] else []) = []
          <-> 100 <= batch_size c <= 10000) as ->.
  { destruct (_ || _) eqn:H; (split; [try done; lia |]); intros; [lia | done]. }
  assert (match data_filters c with
          | Some filters => concat (imap InputValidator.filter_errors filters)
          | None => []
          end = []
          <-> (forall filters, data_filters c = Some filters ->
                 Forall (fun f =>
                           InputValidator.isValidTableName (table f) = true
                           /\ InputValidator.isValidWhereClause
                                (where_clause f) = true) filters)) as ->.
  { destruct (data_filters c) as [filters |]; [| by split].
    rewrite concat_imap_nil. split.
    - intros H ? [= <-]. apply Forall_lookup. intros i x Hi.
      by apply (filter_errors_nil i), H.
    - intros H i x Hi. apply filter_errors_nil.
      exact (proj1 (Forall_lookup _ _) (H _ eq_refl) i x Hi). }
  assert (match exclude_tables c with
          | Some tables => concat (imap InputValidator.exclude_errors tables)
          | None => []
          end = []
          <-> (forall tables, exclude_tables c = Some tables ->
                 Forall (fun name =>
                           InputValidator.isValidTableName name = true)
                   tables)) as ->.
  { destruct (exclude_tables c) as [tables |]; [| by split].
    rewrite concat_imap_nil. split.
    - intros H ? [= <-]. apply Forall_lookup. intros i x Hi.
      by apply (exclude_errors_nil i), H.
    - intros H i x Hi. apply exclude_errors_nil.
      exact (proj1 (Forall_lookup _ _) (H _ eq_refl) i x Hi). }
  tauto.
Qed.

(** ** Substrings *)

Lemma append_cons c a b : String c a +:+ b = String c (a +:+ b).
Proof. reflexivity. Qed.

Lemma append_empty b : EmptyString +:+ b = b.
Proof. reflexivity. Qed.

Lemma prefix_spec sub s :
  String.prefix sub s = true <-> exists post, s = sub +:+ post.
Proof.
  revert s. induction sub as [| a sub IH]; intros s.
  - destruct s; cbn [String.prefix]; (split; [intros _; by eexists | done]).
  - destruct s as [| b s]; cbn [String.prefix].
    + split; [done |]. intros [post H]. by rewrite append_cons in H.
    + destruct (Ascii.ascii_dec a b) as [-> | Hne].
      * rewrite IH. split; intros [post H]; exists post.
        -- by rewrite append_cons, H.
        -- rewrite append_cons in H. by inversion H.
      * split; [done |]. intros [post H]. rewrite append_cons in H.
        by inversion H.
Qed.

Lemma includes_spec s sub :
  includes s sub = true <-> exists pre post, s = pre +:+ sub +:+ post.
Proof.
  induction s as [| c s IH]; cbn [includes]; rewrite orb_true_iff, prefix_spec.
  - split.
    + intros [[post H] | H]; [| done]. by exists EmptyString, post.
    + intros (pre & post & H). left. destruct pre as [| a pre].
      * by exists post.
      * by rewrite append_cons in H.
  - rewrite IH. split.
    + intros [[post H] | (pre & post & H)].
      * by exists EmptyString, post.
      * exists (String c pre), post. by rewrite append_cons, H.
    + intros (pre & post & H). destruct pre as [| a pre].
      * left. by exists post.
      * right. exists pre, post. rewrite append_cons in H. by inversion H.
Qed.

(** ** The keyword scan of [validateSQLInput] *)

Lemma strip_prefix_ci_spec kw s post :
  strip_prefix_ci kw s = Some post
  <-> exists w, s = w +:+ post
                /\ List.map upper_ascii (list_ascii_of_string w)
                   = list_ascii_of_string kw.
Proof.
  revert s. induction kw as [| k kw IH]; intros s.
  - destruct s; cbn [strip_prefix_ci]; split.
    + intros [= <-]. by exists EmptyString.
    + intros (w & Hs & Hw). destruct w; [| discriminate Hw].
      by rewrite append_empty in Hs; subst.
    + intros [= <-]. by exists EmptyString.
    + intros (w & Hs & Hw). destruct w; [| discriminate Hw].
      by rewrite append_empty in Hs; subst.
  - destruct s as [| c s]; cbn [strip_prefix_ci].
    + split; [done |]. intros (w & Hs & Hw).
      destruct w; [discriminate Hw | by rewrite append_cons in Hs].
    + destruct (Ascii.eqb_spec k (upper_ascii c)) as [-> | Hne].
      * rewrite IH. split.
        -- intros (w & -> & Hw). exists (String c w). cbn. by rewrite Hw.
        -- intros (w & Hs & Hw). destruct w as [| a w]; [discriminate Hw |].
           rewrite append_cons in Hs. cbn in Hw. inversion Hs; subst.
           inversion Hw. by exists w.
      * split; [done |]. intros (w & Hs & Hw).
        destruct w as [| a w]; [discriminate Hw |].
        rewrite append_cons in Hs. cbn in Hw. inversion Hs; subst.
        by inversion Hw.
Qed.

Lemma keyword_here_spec s :
  SecurityManager.keyword_here s = true
  <-> exists kw w post,
        kw ∈ SecurityManager.sql_keywords
        /\ s = w +:+ post
        /\ List.map upper_ascii (list_ascii_of_string w)
           = list_ascii_of_string kw
        /\ match post with
           | EmptyString => True
           | String c _ => is_word c = false
           end.
Proof.
  unfold SecurityManager.keyword_here. rewrite existsb_exists. split.
  - intros (kw & Hkw & H). apply list_elem_of_In in Hkw.
    destruct (strip_prefix_ci kw s) as [post |] eqn:Hs; [| done].
    apply strip_prefix_ci_spec in Hs as (w & -> & Hw).
    exists kw, w, post. repeat split; try done.
    destruct post; [done | by apply negb_true_iff].
  - intros (kw & w & post & Hkw & -> & Hw & Hpost).
    exists kw. split; [by apply list_elem_of_In |].
    assert (strip_prefix_ci kw (w +:+ post) = Some post) as ->.
    { apply strip_prefix_ci_spec. by exists w. }
    destruct post; [done | by apply negb_true_iff].
Qed.

Lemma keyword_scan_spec prev_word s :
  SecurityManager.keyword_scan prev_word s = true
  <-> exists pre rest,
        s = pre +:+ rest
        /\ boundary_after prev_word pre = true
        /\ SecurityManager.keyword_here rest = true.
Proof.
  revert prev_word. induction s as [| c s IH]; intros prev_word;
    cbn [SecurityManager.keyword_scan]; rewrite orb_true_iff, andb_true_iff.
  - split.
    + intros [[Hb Hk] | H]; [| done]. by exists EmptyString, EmptyString.
    + intros (pre & rest & Hs & Hb & Hk). left.
      destruct pre; [| by rewrite append_cons in Hs].
      rewrite append_empty in Hs. by subst rest.
  - rewrite IH. split.
    + intros [[Hb Hk] | (pre & rest & -> & Hb & Hk)].
      * by exists EmptyString, (String c s).
      * by exists (String c pre), rest.
    + intros (pre & rest & Hs & Hb & Hk). destruct pre as [| a pre].
      * left. rewrite append_empty in Hs. by subst rest.
      * right. rewrite append_cons in Hs. inversion Hs; subst.
        by exists pre, rest.
Qed.

Lemma boundary_after_spec pre :
  boundary_after false pre = true
  <-> pre = EmptyString
      \/ exists p c, pre = p +:+ String c EmptyString /\ is_word c = false.
Proof.
  assert (forall b pre,
            boundary_after b pre = true
            <-> (pre = EmptyString /\ b = false)
                \/ exists p c, pre = p +:+ String c EmptyString
                               /\ is_word c = false) as H.
  { intros b p. revert b. induction p as [| a p IH]; intros b;
      cbn [boundary_after].
    - rewrite negb_true_iff. split; [by left |].
      intros [[_ H] | (p & c & H & _)]; [done |].
      destruct p; by rewrite ?append_cons, ?append_empty in H.
    - rewrite IH. split.
      + intros [[-> Ha] | (q & c & -> & Hc)]; right.
        * by exists EmptyString, a.
        * by exists (String a q), c.
      + intros [[H _] | (q & c & H & Hc)]; [done |].
        destruct q as [| a' q].
        * rewrite append_empty in H. inversion H; subst. by left.
        * rewrite append_cons in H. inversion H; subst. right. by exists q, c. }
  rewrite H. split; intros [H1 | H1]; auto. by left; destruct H1.
Qed.

(** X2. [validateSQLInput] rejects its input exactly when the input holds
    one of the ten SQL keywords as a whole word, in any letter case, or one
    of the markers [--], [/*], [*/], [;], [%27], ['], [%2D], [%2d]. *)
Theorem validateSQLInput_rejects_exactly input :
  SecurityManager.validateSQLInput input = false
  <-> (exists pre w post kw,
         input = pre +:+ w +:+ post
         /\ kw ∈ SecurityManager.sql_keywords
         /\ List.map upper_ascii (list_ascii_of_string w)
            = list_ascii_of_string kw
         /\ (pre = EmptyString
             \/ exists p c, pre = p +:+ String c EmptyString
                            /\ is_word c = false)
         /\ (post = EmptyString
             \/ exists c r, post = String c r /\ is_word c = false))
      \/ (exists marker pre post,
            marker ∈ ["--"; "/*"; "*/"; ";"; "%27"; "'"; "%2D"; "%2d"]
            /\ input = pre +:+ marker +:+ post).
Proof.
  unfold SecurityManager.validateSQLInput,
    SecurityManager.comment_or_semicolon, SecurityManager.quote_or_dash.
  rewrite negb_false_iff, !orb_true_iff, keyword_scan_spec, !includes_spec.
  split.
  - intros [[(pre & rest & -> & Hb & Hk) | H] | H].
    + left. apply keyword_here_spec in Hk
        as (kw & w & post & Hkw & -> & Hw & Hpost).
      exists pre, w, post, kw. repeat split; try done.
      * by apply boundary_after_spec.
      * destruct post as [| c r]; [by left | right; by exists c, r].
    + right.
      destruct H as [[[(pre & post & H) | (pre & post & H)]
                     | (pre & post & H)] | (pre & post & H)];
        eexists _, pre, post; (split; [| exact H]);
        repeat (first [apply list_elem_of_here | apply list_elem_of_further]).
    + right.
      destruct H as [[[[(pre & post & H) | (pre & post & H)]
                      | (pre & post & H)] | (pre & post & H)]
                    | (pre & post & H)];
        eexists _, pre, post; (split; [| exact H]);
        repeat (first [apply list_elem_of_here | apply list_elem_of_further]).
  - intros [(pre & w & post & kw & -> & Hkw & Hw & Hpre & Hpost)
           | (marker & pre & post & Hm & ->)].
    + left. left. exists pre, (w +:+ post). split; [done |].
      split; [by apply boundary_after_spec |].
      apply keyword_here_spec. exists kw, w, post. repeat split; try done.
      destruct Hpost as [-> | (c & r & -> & Hc)]; done.
    + repeat (apply elem_of_cons in Hm as [-> | Hm]);
        [| | | | | | | | by apply elem_of_nil in Hm].
      * left. right. do 3 left. by exists pre, post.
      * left. right. do 2 left. right. by exists pre, post.
      * left. right. left. right. by exists pre, post.
      * left. right. right. by exists pre, post.
      * right. do 4 left. by exists pre, post.
      * right. do 3 left. right. by exists pre, post.
      * right. do 2 left. right. by exists pre, post.
      * right. left. right. by exists pre, post.
Qed.

(** ** sanitizeInput *)

Lemma forallb_remove_class p q s :
  string_forallb p s = true -> string_forallb p (remove_class q s) = true.
Proof.
  induction s as [| c s IH]; cbn [string_forallb remove_class]; [done |].
  rewrite andb_true_iff. intros [Hc Hs].
  destruct (q c); cbn [string_forallb]; [by apply IH |].
  by rewrite Hc, IH.
Qed.

Lemma remove_class_removes p s :
  string_forallb (fun c => negb (p c)) (remove_class p s) = true.
Proof.
  induction s as [| c s IH]; cbn [remove_class]; [done |].
  destruct (p c) eqn:Hc; [done |]. cbn [string_forallb]. by rewrite Hc, IH.
Qed.

Lemma remove_class_id p s :
  string_forallb (fun c => negb (p c)) s = true -> remove_class p s = s.
Proof.
  induction s as [| c s IH]; cbn [string_forallb remove_class]; [done |].
  rewrite andb_true_iff, negb_true_iff. intros [-> Hs]. by rewrite IH.
Qed.

Lemma forallb_trimStart p s :
  string_forallb p s = true -> string_forallb p (trimStart s) = true.
Proof.
  induction s as [| c s IH]; cbn [trimStart]; [done |].
  destruct (is_space c); [| done]. cbn [string_forallb].
  rewrite andb_true_iff. intros [_ Hs]. by apply IH.
Qed.

Lemma forallb_trimEnd p s :
  string_forallb p s = true -> string_forallb p (trimEnd s) = true.
Proof.
  induction s as [| c s IH]; cbn [trimEnd string_forallb]; [done |].
  rewrite andb_true_iff. intros [Hc Hs]. specialize (IH Hs).
  destruct (trimEnd s) as [| d kept].
  - destruct (is_space c); [done |]. cbn. by rewrite Hc.
  - cbn [string_forallb] in *. by rewrite Hc.
Qed.

Lemma forallb_slice_to p n s :
  string_forallb p s = true -> string_forallb p (slice_to n s) = true.
Proof.
  revert s. induction n as [| n IH]; intros [| c s]; cbn; try done.
  rewrite !andb_true_iff. intros [Hc Hs]. split; [done | by apply IH].
Qed.

Lemma length_slice_to n s : (String.length (slice_to n s) <= n)%nat.
Proof.
  revert s. induction n as [| n IH]; intros [| c s]; cbn; try lia.
  specialize (IH s). lia.
Qed.

Lemma slice_to_id n s : (String.length s <= n)%nat -> slice_to n s = s.
Proof.
  revert s. induction n as [| n IH]; intros [| c s]; cbn; try done; [lia |].
  intros H. rewrite IH; [done | lia].
Qed.

Lemma trimStart_black s : starts_black (trimStart s).
Proof.
  induction s as [| c s IH]; cbn [trimStart]; [done |].
  by destruct (is_space c) eqn:Hc.
Qed.

Lemma trimStart_id s : starts_black s -> trimStart s = s.
Proof. destruct s as [| c s]; cbn; [done |]. by intros ->. Qed.

Lemma trimEnd_black s : starts_black s -> starts_black (trimEnd s).
Proof.
  destruct s as [| c s]; cbn [trimEnd starts_black]; [done |]. intros Hc.
  destruct (trimEnd s); [by rewrite Hc | done].
Qed.

Lemma trimEnd_idem s : trimEnd (trimEnd s) = trimEnd s.
Proof.
  induction s as [| c s IH]; cbn [trimEnd]; [done |].
  destruct (trimEnd s) as [| d kept] eqn:Hs.
  - destruct (is_space c) eqn:Hc; [done |]. cbn. by rewrite Hc.
  - cbn [trimEnd] in *. rewrite IH. done.
Qed.

Lemma slice_to_black n s : starts_black s -> starts_black (slice_to n s).
Proof. destruct n, s; cbn; done. Qed.

(** Cutting a string that ends with no white space leaves it as it is
    unless the cut removes something. *)
Lemma trimEnd_slice_to n s :
  trimEnd s = s ->
  (String.length (slice_to n s) < n)%nat ->
  trimEnd (slice_to n s) = slice_to n s.
Proof.
  intros Hs Hlen. rewrite slice_to_id; [done |].
  revert s Hs Hlen. induction n as [| n IH]; intros [| c s] Hs Hlen;
    cbn in *; try lia.
  assert (String.length s <= n)%nat; [| lia].
  destruct (Nat.le_gt_cases (String.length s) n) as [H | H]; [done |].
  exfalso. clear IH Hs. revert s Hlen H.
  induction n as [| n IH]; intros [| d s]; cbn; try lia.
  intros H1 H2. apply (IH s); lia.
Qed.

(** X3. The result of [sanitizeInput] holds none of the code units [<], [>],
    ['] and the double quote, is at most 1000 long, begins with no white
    space, and ends with none unless it is 1000 long; an input that already
    is of this kind, ending with no white space, is returned as it is. *)
Theorem sanitizeInput_result input :
  string_forallb (fun c => negb (markup c)) (sanitizeInput input) = true
  /\ (String.length (sanitizeInput input) <= 1000)%nat
  /\ starts_black (sanitizeInput input)
  /\ ((String.length (sanitizeInput input) < 1000)%nat ->
      trimEnd (sanitizeInput input) = sanitizeInput input)
  /\ (string_forallb (fun c => negb (markup c)) input = true ->
      (String.length input <= 1000)%nat ->
      starts_black input -> trimEnd input = input ->
      sanitizeInput input = input).
Proof.
  unfold sanitizeInput, trim.
  set (q1 := fun c => Ascii.eqb c "<" || Ascii.eqb c ">").
  set (q2 := fun c => Ascii.eqb c "'" || Ascii.eqb c "034").
  split; [| split; [| split; [| split]]].
  - apply forallb_slice_to, forallb_trimEnd, forallb_trimStart.
    pose proof (remove_class_removes q2 (remove_class q1 input)) as H2.
    pose proof (forallb_remove_class (fun c => negb (q1 c)) q2 _
                  (remove_class_removes q1 input)) as H1.
    revert H1 H2. generalize (remove_class q2 (remove_class q1 input)).
    intros s. induction s as [| c s IH]; cbn [string_forallb]; [done |].
    rewrite !andb_true_iff, !negb_true_iff. intros [Hc1 Hs1] [Hc2 Hs2].
    split; [| by apply IH]. unfold markup, q1, q2 in *.
    apply orb_false_iff in Hc1 as [-> ->], Hc2 as [-> ->]. done.
  - apply length_slice_to.
  - apply slice_to_black, trimEnd_black, trimStart_black.
  - apply trimEnd_slice_to, trimEnd_idem.
  - intros Hm Hlen Hb He.
    assert (string_forallb (fun c => negb (q1 c)) input = true
            /\ string_forallb (fun c => negb (q2 c)) input = true)
      as [H1 H2].
    { clear Hlen Hb He. induction input as [| c s IH];
        cbn [string_forallb] in *; [done |].
      apply andb_true_iff in Hm as [Hc Hs]. destruct (IH Hs) as [-> ->].
      unfold markup, q1, q2 in *. apply negb_true_iff in Hc.
      apply orb_false_iff in Hc as [Hc ->].
      apply orb_false_iff in Hc as [Hc ->].
      apply orb_false_iff in Hc as [-> ->]. done. }
    rewrite (remove_class_id q1), (remove_class_id q2) by done.
    rewrite trimStart_id, He by done. by apply slice_to_id.
Qed.

Lemma sanitizeInput_result_witness :
  sanitizeInput "users/42" = "users/42".
Proof.
  apply (sanitizeInput_result "users/42"); [reflexivity | cbn; lia | reflexivity | reflexivity].
Defined.

(** ** RateLimiter *)

Lemma checkRateLimit_open requests identifier maxRequests windowMs now d v :
  requests !! identifier = Some d ->
  now <= RateLimiter.resetTime d ->
  RateLimiter.count d = v
  \/ (maxRequests <= RateLimiter.count d /\ maxRequests <= v) ->
  let '(r, requests') :=
    RateLimiter.checkRateLimit requests identifier maxRequests windowMs now in
  r = nth_result maxRequests (RateLimiter.resetTime d) v
  /\ exists d',
       requests' !! identifier = Some d'
       /\ RateLimiter.resetTime d' = RateLimiter.resetTime d
       /\ (RateLimiter.count d' = v + 1
           \/ (maxRequests <= RateLimiter.count d' /\ maxRequests <= v + 1)).
Proof.
  intros Hd Hnow Hv. unfold RateLimiter.checkRateLimit. rewrite Hd.
  replace (RateLimiter.resetTime d <? now) with false by lia.
  unfold nth_result.
  destruct (Z.leb_spec maxRequests (RateLimiter.count d)) as [Hle | Hlt].
  - replace (v <? maxRequests) with false by lia.
    split; [done |]. exists d. repeat split; [done | lia].
  - replace (v <? maxRequests) with true by lia.
    cbn [RateLimiter.count RateLimiter.resetTime].
    split; [f_equal; lia |]. eexists. rewrite lookup_insert_eq.
    split; [done |]. cbn. split; [done | lia].
Qed.

Lemma checkRateLimit_over requests identifier maxRequests windowMs now :
  window_over requests identifier now ->
  let '(r, requests') :=
    RateLimiter.checkRateLimit requests identifier maxRequests windowMs now in
  r = nth_result maxRequests (now + windowMs) 0
  /\ exists d',
       requests' !! identifier = Some d'
       /\ RateLimiter.resetTime d' = now + windowMs
       /\ (RateLimiter.count d' = 1
           \/ (maxRequests <= RateLimiter.count d' /\ maxRequests <= 1)).
Proof.
  unfold window_over, RateLimiter.checkRateLimit. intros H.
  assert (match requests !! identifier with
          | Some d =>
              if RateLimiter.resetTime d <? now
              then
                ({| RateLimiter.count := 0;
                    RateLimiter.resetTime := now + windowMs |},
                 <[identifier := {| RateLimiter.count := 0;
                                    RateLimiter.resetTime := now + windowMs |}]>
                   requests)
              else (d, requests)
          | None =>
              ({| RateLimiter.count := 0;
                  RateLimiter.resetTime := now + windowMs |},
               <[identifier := {| RateLimiter.count := 0;
                                  RateLimiter.resetTime := now + windowMs |}]>
                 requests)
          end
          = ({| RateLimiter.count := 0;
                RateLimiter.resetTime := now + windowMs |},
             <[identifier := {| RateLimiter.count := 0;
                                RateLimiter.resetTime := now + windowMs |}]>
               requests)) as ->.
  { destruct (requests !! identifier) as [d |]; [| done].
    by replace (RateLimiter.resetTime d <? now) with true by lia. }
  cbn [RateLimiter.count RateLimiter.resetTime]. unfold nth_result.
  destruct (Z.leb_spec maxRequests 0) as [Hle | Hlt].
  - replace (0 <? maxRequests) with false by lia. split; [done |].
    eexists. rewrite lookup_insert_eq. split; [done |]. cbn. split; [done |].
    right. lia.
  - replace (0 <? maxRequests) with true by lia. split; [f_equal; lia |].
    eexists. rewrite lookup_insert_eq. split; [done |]. cbn. split; [done |].
    by left.
Qed.

Lemma check_all_open requests identifier maxRequests windowMs times d v :
  requests !! identifier = Some d ->
  RateLimiter.count d = v
  \/ (maxRequests <= RateLimiter.count d /\ maxRequests <= v) ->
  Forall (fun now => now <= RateLimiter.resetTime d) times ->
  (RateLimiter.check_all requests identifier maxRequests windowMs times).1
  = imap (fun i _ =>
            nth_result maxRequests (RateLimiter.resetTime d)
              (v + Z.of_nat i)) times.
Proof.
  intros Hd Hv Ht. revert requests d v Hd Hv Ht.
  induction times as [| now later IH]; intros requests d v Hd Hv Ht;
    [done |].
  apply Forall_cons in Ht as [Hnow Hlater].
  cbn [RateLimiter.check_all imap].
  pose proof (checkRateLimit_open requests identifier maxRequests windowMs
                now d v Hd Hnow Hv) as H.
  destruct (RateLimiter.checkRateLimit _ _ _ _ _) as [r requests1].
  destruct H as (-> & d' & Hd' & Hr & Hcount).
  specialize (IH requests1 d' (v + 1) Hd' Hcount).
  destruct (RateLimiter.check_all requests1 _ _ _ _) as [rs requests2].
  cbn [fst] in *. f_equal; [by rewrite Z.add_0_r |].
  rewrite IH by (by rewrite Hr).
  apply imap_ext. intros i now' _. unfold compose. rewrite Hr.
  f_equal. lia.
Qed.

(** X4. From a call that finds the window of the identifier over (or no
    entry), the calls made until the new window ends are answered by their
    number alone: the first [maxRequests] of them are allowed, with the
    remaining allowance counted down to 0, and every later one is refused;
    all of them report the end of the window, [windowMs] after the first
    call. *)
Theorem rate_limit_counts_one_window
    requests identifier maxRequests windowMs first later :
  window_over requests identifier first ->
  Forall (fun now => now <= first + windowMs) later ->
  (RateLimiter.check_all requests identifier maxRequests windowMs
     (first :: later)).1
  = imap (fun i _ => nth_result maxRequests (first + windowMs) (Z.of_nat i))
      (first :: later).
Proof.
  intros Hover Hlater. cbn [RateLimiter.check_all imap].
  pose proof (checkRateLimit_over requests identifier maxRequests windowMs
                first Hover) as H.
  destruct (RateLimiter.checkRateLimit _ _ _ _ _) as [r requests1].
  destruct H as (-> & d' & Hd' & Hr & Hcount).
  pose proof (check_all_open requests1 identifier maxRequests windowMs
                later d' 1 Hd' Hcount) as H.
  destruct (RateLimiter.check_all requests1 _ _ _ _) as [rs requests2].
  cbn [fst] in *. f_equal. rewrite H by (by rewrite Hr).
  apply imap_ext. intros i now' _. unfold compose. rewrite Hr. f_equal. lia.
Qed.

Lemma rate_limit_counts_one_window_witness :
  List.map RateLimiter.allowed
    (RateLimiter.check_all ∅ "client" 2 60000 [1000; 2000; 61000]).1
  = [true; true; false].
Proof.
  rewrite (rate_limit_counts_one_window ∅ "client" 2 60000 1000 [2000; 61000]).
  - reflexivity.
  - unfold window_over. by rewrite lookup_empty.
  - repeat constructor; lia.
Defined.

Lemma cleanup_lookup requests now k :
  RateLimiter.cleanup requests now !! k
  = match requests !! k with
    | Some d => if RateLimiter.resetTime d <? now then None else Some d
    | None => None
    end.
Proof.
  unfold RateLimiter.cleanup.
  destruct (requests !! k) as [d |] eqn:Hk.
  - destruct (RateLimiter.resetTime d <? now) eqn:Hd.
    + apply map_lookup_filter_None. right. intros d' Hd'. cbn.
      rewrite Hk in Hd'. inversion Hd'; subst. by rewrite Hd.
    + apply map_lookup_filter_Some. split; [done |]. cbn. by rewrite Hd.
  - apply map_lookup_filter_None. by left.
Qed.

Lemma checkRateLimit_other requests identifier maxRequests windowMs now other :
  other <> identifier ->
  (RateLimiter.checkRateLimit requests identifier maxRequests windowMs
     now).2 !! other = requests !! other.
Proof.
  intros Hne. unfold RateLimiter.checkRateLimit.
  destruct (requests !! identifier) as [d |].
  - destruct (RateLimiter.resetTime d <? now);
      destruct (maxRequests <=? _); cbn [snd];
      repeat (rewrite lookup_insert_ne by congruence); done.
  - destruct (maxRequests <=? _); cbn [snd];
      repeat (rewrite lookup_insert_ne by congruence); done.
Qed.

(** A call reads the entry of its identifier only, and an entry whose window
    is over like no entry. *)
Lemma checkRateLimit_reads requests1 requests2 identifier maxRequests
    windowMs now :
  requests1 !! identifier = requests2 !! identifier
  \/ (window_over requests1 identifier now
      /\ window_over requests2 identifier now) ->
  (RateLimiter.checkRateLimit requests1 identifier maxRequests windowMs
     now).1
  = (RateLimiter.checkRateLimit requests2 identifier maxRequests windowMs
       now).1
  /\ (RateLimiter.checkRateLimit requests1 identifier maxRequests windowMs
        now).2 !! identifier
     = (RateLimiter.checkRateLimit requests2 identifier maxRequests windowMs
          now).2 !! identifier.
Proof.
  unfold window_over, RateLimiter.checkRateLimit.
  intros [Heq | [H1 H2]].
  - rewrite Heq. destruct (requests2 !! identifier) as [d |] eqn:Hd.
    + destruct (RateLimiter.resetTime d <? now);
        destruct (maxRequests <=? _); cbn [fst snd];
        rewrite ?lookup_insert_eq, ?Heq, ?Hd; done.
    + destruct (maxRequests <=? _); cbn [fst snd];
        by rewrite ?lookup_insert_eq.
  - destruct (requests1 !! identifier) as [d1 |];
      destruct (requests2 !! identifier) as [d2 |];
      repeat match goal with
             | H : RateLimiter.resetTime ?d < now |- _ =>
                 replace (RateLimiter.resetTime d <? now) with true by lia;
                 clear H
             end;
      destruct (maxRequests <=? _); cbn [fst snd];
      by rewrite ?lookup_insert_eq.
Qed.

Lemma same_live_entries_later now later requests1 requests2 :
  now <= later ->
  same_live_entries now requests1 requests2 ->
  same_live_entries later requests1 requests2.
Proof.
  intros Hle H k. destruct (H k) as [Heq | [H1 H2]]; [by left | right].
  unfold window_over in *.
  split; [destruct (requests1 !! k) | destruct (requests2 !! k)];
    try done; lia.
Qed.

Lemma same_live_entries_step since requests1 requests2 identifier
    maxRequests windowMs now :
  since <= now ->
  same_live_entries since requests1 requests2 ->
  (RateLimiter.checkRateLimit requests1 identifier maxRequests windowMs
     now).1
  = (RateLimiter.checkRateLimit requests2 identifier maxRequests windowMs
       now).1
  /\ same_live_entries since
       (RateLimiter.checkRateLimit requests1 identifier maxRequests windowMs
          now).2
       (RateLimiter.checkRateLimit requests2 identifier maxRequests windowMs
          now).2.
Proof.
  intros Hle H.
  pose proof (same_live_entries_later since now _ _ Hle H identifier) as Hid.
  destruct (checkRateLimit_reads requests1 requests2 identifier maxRequests
              windowMs now Hid) as [Hr Hm].
  split; [exact Hr |]. intros k.
  destruct (decide (k = identifier)) as [-> | Hne]; [by left |].
  unfold window_over. rewrite !checkRateLimit_other by done. apply H.
Qed.

Lemma same_live_entries_calls since calls :
  Forall (fun c => since <= call_now c) calls ->
  forall requests1 requests2,
    same_live_entries since requests1 requests2 ->
    (check_calls requests1 calls).1 = (check_calls requests2 calls).1
    /\ same_live_entries since (check_calls requests1 calls).2
         (check_calls requests2 calls).2.
Proof.
  induction 1 as [| c calls Hc _ IH]; intros requests1 requests2 H;
    [done |].
  cbn [check_calls].
  destruct (same_live_entries_step since requests1 requests2
              (call_identifier c) (call_maxRequests c) (call_windowMs c)
              (call_now c) Hc H) as [Hr Hm].
  destruct (RateLimiter.checkRateLimit requests1 _ _ _ _) as [r1 m1].
  destruct (RateLimiter.checkRateLimit requests2 _ _ _ _) as [r2 m2].
  cbn [fst snd] in *. subst r2.
  destruct (IH m1 m2 Hm) as [Hrs Hms].
  destruct (check_calls m1 calls) as [rs1 n1].
  destruct (check_calls m2 calls) as [rs2 n2].
  cbn [fst snd] in *. by subst rs2.
Qed.

Lemma same_live_entries_cleanup requests cleaned :
  same_live_entries cleaned (RateLimiter.cleanup requests cleaned) requests.
Proof.
  intros k. unfold window_over. rewrite cleanup_lookup.
  destruct (requests !! k) as [d |]; [| by left].
  destruct (Z.ltb_spec (RateLimiter.resetTime d) cleaned); [by right | by left].
Qed.

(** X5. An entry whose window is over counts like no entry, so [cleanup],
    which deletes exactly the entries whose window is over, is never
    noticed: whatever calls follow it, for any identifiers and limits, each
    of them returns what it would return had the cleanup not been made, and
    the maps afterwards hold the same entries but for entries whose window
    was over at the cleanup. A call changes the entry of its own identifier
    only. *)
Theorem rate_limit_cleanup_is_unobservable requests cleaned calls :
  Forall (fun c => cleaned <= call_now c) calls ->
  (check_calls (RateLimiter.cleanup requests cleaned) calls).1
  = (check_calls requests calls).1
  /\ same_live_entries cleaned
       (check_calls (RateLimiter.cleanup requests cleaned) calls).2
       (check_calls requests calls).2
  /\ (forall k d,
        RateLimiter.cleanup requests cleaned !! k = Some d
        <-> requests !! k = Some d /\ cleaned <= RateLimiter.resetTime d)
  /\ (forall identifier maxRequests windowMs now other,
        other <> identifier ->
        (RateLimiter.checkRateLimit requests identifier maxRequests windowMs
           now).2 !! other = requests !! other).
Proof.
  intros Hcalls.
  destruct (same_live_entries_calls cleaned calls Hcalls _ _
              (same_live_entries_cleanup requests cleaned)) as [Hr Hm].
  split; [exact Hr |]. split; [exact Hm |]. split.
  - intros k d. rewrite cleanup_lookup.
    destruct (requests !! k) as [d' |]; [| by split; [| intros []]].
    destruct (Z.ltb_spec (RateLimiter.resetTime d') cleaned) as [Hc | Hc].
    + split; [done |]. intros [[= ->] H]. lia.
    + split; [by intros [= ->] | by intros []].
  - intros identifier maxRequests windowMs now other.
    apply checkRateLimit_other.
Qed.

Lemma rate_limit_cleanup_is_unobservable_witness :
  let requests : gmap string RateLimiter.Entry :=
    {[ "client" := {| RateLimiter.count := 2;
                      RateLimiter.resetTime := 61000 |} ]} in
  let calls :=
    [ {| call_identifier := "client"; call_maxRequests := 2;
         call_windowMs := 60000; call_now := 70000 |};
      {| call_identifier := "other"; call_maxRequests := 2;
         call_windowMs := 60000; call_now := 70001 |};
      {| call_identifier := "client"; call_maxRequests := 2;
         call_windowMs := 60000; call_now := 70002 |};
      {| call_identifier := "client"; call_maxRequests := 2;
         call_windowMs := 60000; call_now := 70003 |} ] in
  (check_calls (RateLimiter.cleanup requests 70000) calls).1
  = (check_calls requests calls).1.
Proof.
  cbv zeta.
  apply (rate_limit_cleanup_is_unobservable
           {[ "client" := {| RateLimiter.count := 2;
                             RateLimiter.resetTime := 61000 |} ]} 70000).
  repeat constructor; cbn; lia.
Defined.

(** ** Regular expressions and isValidEmail *)

Lemma append_empty_r s : s +:+ EmptyString = s.
Proof. induction s as [| c s IH]; [done |]. by rewrite append_cons, IH. Qed.

Lemma append_assoc' a b c : (a +:+ b) +:+ c = a +:+ (b +:+ c).
Proof. induction a as [| x a IH]; [done |]. by rewrite !append_cons, IH. Qed.

Lemma append_is_empty a b :
  a +:+ b = EmptyString -> a = EmptyString /\ b = EmptyString.
Proof. destruct a; [done |]. by rewrite append_cons. Qed.

Lemma nullable_spec r : nullable r = true <-> Matches r EmptyString.
Proof.
  split.
  - induction r as [| | p | r1 IH1 r2 IH2 | r1 IH1 r2 IH2 | r IH];
      cbn [nullable]; try done.
    + intros _. constructor.
    + rewrite andb_true_iff. intros [H1 H2].
      by apply (match_cat r1 r2 EmptyString EmptyString); auto.
    + rewrite orb_true_iff. intros [H | H];
        [apply match_alt_l | apply match_alt_r]; auto.
    + intros _. constructor.
  - intros H. remember EmptyString as s eqn:Hs.
    induction H as [| p c Hc | r1 r2 s1 s2 H1 IH1 H2 IH2 | r1 r2 s H IH
                   | r1 r2 s H IH | r | r s1 s2 H1 IH1 H2 IH2];
      cbn [nullable]; try done.
    + apply append_is_empty in Hs as [-> ->]. by rewrite IH1, IH2.
    + by rewrite IH.
    + rewrite IH by done. apply orb_true_r.
Qed.

Lemma Matches_star_cons_inv r c s :
  Matches (ReStar r) (String c s) ->
  exists s1 s2,
    s = s1 +:+ s2 /\ Matches r (String c s1) /\ Matches (ReStar r) s2.
Proof.
  intros H. remember (ReStar r) as r' eqn:Hr.
  remember (String c s) as s' eqn:Hs.
  induction H as [| | | | | r0 | r0 s1 s2 H1 _ H2 IH2]; try done.
  inversion Hr; subst r0. destruct s1 as [| a s1].
  - rewrite append_empty in Hs. by apply IH2.
  - rewrite append_cons in Hs. inversion Hs; subst. by exists s1, s2.
Qed.

Lemma derive_spec c r s :
  Matches (derive c r) s <-> Matches r (String c s).
Proof.
  revert s.
  induction r as [| | p | r1 IH1 r2 IH2 | r1 IH1 r2 IH2 | r IH]; intros s;
    cbn [derive].
  - split; intros H; inversion H.
  - split; intros H; inversion H.
  - destruct (p c) eqn:Hc; split; intros H; inversion H; subst.
    + by constructor.
    + constructor.
    + congruence.
  - assert (Matches (ReCat (derive c r1) r2) s
            <-> exists s1 s2, s = s1 +:+ s2 /\ Matches r1 (String c s1)
                              /\ Matches r2 s2) as Hcat.
    { split.
      - intros H. inversion H; subst. eexists _, _. split; [done |].
        split; [by apply IH1 | done].
      - intros (s1 & s2 & -> & H1 & H2). constructor; [by apply IH1 | done]. }
    assert (Matches (ReCat r1 r2) (String c s)
            <-> (exists s1 s2, s = s1 +:+ s2 /\ Matches r1 (String c s1)
                               /\ Matches r2 s2)
                \/ (Matches r1 EmptyString /\ Matches r2 (String c s)))
      as Hall.
    { split.
      - intros H. inversion H as [| | ? ? s1 s2 H1 H2 [E1 E2] E3 | | | |];
          subst. destruct s1 as [| a s1].
        + rewrite append_empty in E3. subst. by right.
        + rewrite append_cons in E3. inversion E3; subst. left.
          by exists s1, s2.
      - intros [(s1 & s2 & -> & H1 & H2) | [H1 H2]].
        + rewrite <- append_cons. by constructor.
        + rewrite <- (append_empty (String c s)). by constructor. }
    rewrite Hall. destruct (nullable r1) eqn:Hn.
    + split.
      * intros H. inversion H; subst; [left; by apply Hcat |].
        right. split; [by apply nullable_spec | by apply IH2].
      * intros [H | [_ H]];
          [apply match_alt_l; by apply Hcat
          | apply match_alt_r; by apply IH2].
    + rewrite Hcat. split; [by left |]. intros [H | [H _]]; [done |].
      apply nullable_spec in H. congruence.
  - split; intros H; inversion H; subst;
      [apply match_alt_l | apply match_alt_r
      | apply match_alt_l | apply match_alt_r]; by (apply IH1 || apply IH2).
  - split.
    + intros H. inversion H; subst. rewrite <- append_cons.
      constructor; [by apply IH | done].
    + intros H. apply Matches_star_cons_inv in H as (s1 & s2 & -> & H1 & H2).
      constructor; [by apply IH | done].
Qed.

Lemma test_whole_spec r s : test_whole r s = true <-> Matches r s.
Proof.
  revert r. induction s as [| c s IH]; intros r; cbn [test_whole].
  - apply nullable_spec.
  - by rewrite IH, derive_spec.
Qed.

Lemma Matches_star_class p s :
  Matches (ReStar (ReClass p)) s <-> string_forallb p s = true.
Proof.
  split.
  - intros H. remember (ReStar (ReClass p)) as r eqn:Hr.
    induction H as [| | | | | r0 | r0 s1 s2 H1 _ H2 IH2]; try done.
    inversion Hr; subst r0. inversion H1; subst.
    rewrite append_cons, append_empty. cbn [string_forallb].
    apply andb_true_iff. split; [done | by apply IH2].
  - induction s as [| c s IH]; cbn [string_forallb]; [constructor |].
    rewrite andb_true_iff. intros [Hc Hs].
    change (String c s) with (String c EmptyString +:+ s).
    constructor; [by constructor | by apply IH].
Qed.

Lemma Matches_plus_class p s :
  Matches (RePlus (ReClass p)) s
  <-> s <> EmptyString /\ string_forallb p s = true.
Proof.
  unfold RePlus. split.
  - intros H. inversion H as [| | ? ? s1 s2 H1 H2 | | | |]; subst.
    inversion H1; subst. rewrite append_cons, append_empty.
    split; [done |]. cbn [string_forallb]. apply andb_true_iff.
    split; [done | by apply Matches_star_class].
  - intros [Hne Hs]. destruct s as [| c s]; [done |].
    cbn [string_forallb] in Hs. apply andb_true_iff in Hs as [Hc Hs].
    change (String c s) with (String c EmptyString +:+ s).
    constructor; [by constructor | by apply Matches_star_class].
Qed.

Lemma Matches_char a s :
  Matches (ReClass (Ascii.eqb a)) s <-> s = String a EmptyString.
Proof.
  split.
  - intros H. inversion H; subst. by apply Ascii.eqb_eq in H1 as ->.
  - intros ->. constructor. apply Ascii.eqb_refl.
Qed.

(** X6. [isValidEmail] accepts exactly the strings of at most 254 code
    units that read [local@domain.tld] with three parts that are not empty
    and hold neither white space nor [@] (each may hold dots). *)
Theorem isValidEmail_accepts_exactly email :
  isValidEmail email = true
  <-> (String.length email <= 254)%nat
      /\ exists name domain tld,
           email = name +:+ "@" +:+ domain +:+ "." +:+ tld
           /\ name <> EmptyString /\ domain <> EmptyString
           /\ tld <> EmptyString
           /\ string_forallb not_space_or_at name = true
           /\ string_forallb not_space_or_at domain = true
           /\ string_forallb not_space_or_at tld = true.
Proof.
  unfold isValidEmail. rewrite andb_true_iff, test_whole_spec, Nat.leb_le.
  unfold emailRegex. split.
  - intros [H Hlen]. split; [done |].
    inversion H as [| | ? ? name rest1 Hname Hrest1 | | | |]; subst.
    inversion Hrest1 as [| | ? ? at_ rest2 Hat Hrest2 | | | |]; subst.
    inversion Hrest2 as [| | ? ? domain rest3 Hdomain Hrest3 | | | |]; subst.
    inversion Hrest3 as [| | ? ? dot tld Hdot Htld | | | |]; subst.
    apply Matches_char in Hat as ->, Hdot as ->.
    apply Matches_plus_class in Hname as [? ?], Hdomain as [? ?],
        Htld as [? ?].
    by exists name, domain, tld.
  - intros [Hlen (name & domain & tld & -> & ? & ? & ? & ? & ? & ?)].
    split; [| done].
    constructor; [by apply Matches_plus_class |].
    constructor; [by apply Matches_char |].
    constructor; [by apply Matches_plus_class |].
    constructor; [by apply Matches_char |].
    by apply Matches_plus_class.
Qed.

(** * Further properties of the recovery engine *)

Lemma exact_backoff_earlier strategy n m :
  0 <= baseDelay strategy -> (1 <= n <= m)%nat ->
  exact_backoff strategy m -> exact_backoff strategy n.
Proof.
  unfold exact_backoff, safe_integer.
  intros Hbase [Hn Hm] (Hb & Hx & Hk & Hs).
  assert (1 <= 2 ^ (Z.of_nat n - 1) <= 2 ^ (Z.of_nat m - 1)) as Hpow.
  { split; [change 1 with (2 ^ 0) at 1 |]; apply Z.pow_le_mono_r; lia. }
  split; [done |]. split; [done |]. split; [lia |].
  destruct (backoffStrategy strategy); [nia | | done].
  destruct Hs as (_ & H1 & H2). split; [done |]. split; nia.
Qed.

(** The engine asks for a delay in [executeConnectionRetry] only, for the
    connection-retry strategy and an attempt that is not beyond its
    [maxRetries]: every such call is exact. *)
Lemma engine_backoff_is_exact strategy n :
  Recovery.get_strategy "connection-retry" = Some strategy ->
  (1 <= n <= maxRetries strategy)%nat ->
  exact_backoff strategy n.
Proof.
  intros [= <-]. cbn [maxRetries]. intros [H1 H5].
  unfold exact_backoff, safe_integer. cbn [baseDelay maxDelay backoffStrategy].
  assert (2 ^ (Z.of_nat n - 1) <= 2 ^ 4) as Hpow
    by (apply Z.pow_le_mono_r; lia).
  assert (0 < 2 ^ (Z.of_nat n - 1)) as Hpos
    by (apply Z.pow_pos_nonneg; lia).
  change (2 ^ 4) with 16 in Hpow. change (2 ^ 53 - 1) with 9007199254740991.
  repeat split; lia.
Qed.

Lemma elem_of_insert_by_priority x s l :
  x ∈ Recovery.insert_by_priority s l -> x = s \/ x ∈ l.
Proof.
  induction l as [| y l IH]; cbn [Recovery.insert_by_priority].
  - intros H. apply list_elem_of_singleton in H. by left.
  - destruct (_ <=? 0).
    + intros Hx. apply elem_of_cons in Hx as [-> | Hx].
      * right. apply list_elem_of_here.
      * destruct (IH Hx) as [-> | Hx']; [by left |].
        right. by apply list_elem_of_further.
    + intros Hx. apply elem_of_cons in Hx as [-> | Hx]; [by left | by right].
Qed.

Lemma elem_of_sort_by_priority x l :
  x ∈ Recovery.sort_by_priority l -> x ∈ l.
Proof.
  unfold Recovery.sort_by_priority.
  assert (forall acc, x ∈ fold_left
                            (fun acc s => Recovery.insert_by_priority s acc)
                            l acc -> x ∈ acc \/ x ∈ l) as H.
  { induction l as [| s l IH]; intros acc; cbn [fold_left]; [by left |].
    intros Hx. destruct (IH _ Hx) as [Hx' | Hx'].
    - destruct (elem_of_insert_by_priority _ _ _ Hx') as [-> | ?];
        [right; apply list_elem_of_here | by left].
    - right. by apply list_elem_of_further. }
  intros Hx. destruct (H [] Hx) as [Hx' | Hx']; [| done].
  by apply elem_of_nil in Hx'.
Qed.

Lemma findApplicableStrategies_registered error s :
  s ∈ Recovery.findApplicableStrategies error -> s ∈ Recovery.recoveryStrategies.
Proof.
  unfold Recovery.findApplicableStrategies. intros H.
  apply elem_of_sort_by_priority in H.
  apply list_elem_of_In, filter_In in H as [H _].
  by apply list_elem_of_In.
Qed.

Lemma connection_retry_is_one s :
  s ∈ Recovery.recoveryStrategies -> execute s = ConnectionRetry ->
  Recovery.get_strategy "connection-retry" = Some s.
Proof.
  unfold Recovery.recoveryStrategies. intros H.
  repeat (apply elem_of_cons in H as [-> | H]; [by intros |]).
  by apply elem_of_nil in H.
Qed.

Lemma try_strategies_delay o jobId error strategies :
  Forall (fun s => s ∈ Recovery.recoveryStrategies) strategies ->
  forall context waits eng d,
    (1 <= attemptNumber context)%nat ->
    delayBeforeRetry
      (Recovery.try_strategies o jobId error context strategies waits eng).1.1
    = Some d ->
    d = 2000
    \/ exists strategy n,
         Recovery.get_strategy "connection-retry" = Some strategy
         /\ (1 <= n <= maxRetries strategy)%nat
         /\ d = Recovery.calculateBackoffDelay strategy n.
Proof.
  induction 1 as [| s rest Hs _ IH]; intros context waits eng d Hn;
    cbn [Recovery.try_strategies]; [done |].
  destruct (Nat.ltb_spec (maxRetries s) (attemptNumber context)) as [Hlt | Hle];
    [by apply IH |].
  assert (forall r w e,
            Recovery.run_executor (execute s) o error context eng = (r, w, e) ->
            delayBeforeRetry r = Some d ->
            d = 2000
            \/ exists strategy n,
                 Recovery.get_strategy "connection-retry" = Some strategy
                 /\ (1 <= n <= maxRetries strategy)%nat
                 /\ d = Recovery.calculateBackoffDelay strategy n) as Hrun.
  { intros r w e Hr Hd.
    destruct (execute s) eqn:Hx; cbn [Recovery.run_executor] in Hr.
    - injection Hr as <- _ _.
      pose proof (connection_retry_is_one s Hs Hx) as Hget.
      unfold Recovery.executeConnectionRetry in Hd. rewrite Hget in Hd.
      cbn [delayBeforeRetry] in Hd. injection Hd as <-.
      right. exists s, (attemptNumber context). by repeat split.
    - injection Hr as <- _ _. cbn in Hd. left. congruence.
    - injection Hr as <- _ _. by cbn in Hd.
    - injection Hr as <- _ _. unfold Recovery.executeDataIntegrityRepair in Hd.
      by cbn in Hd.
    - unfold Recovery.executePartialRollback in Hr.
      repeat case_match; injection Hr as <- _ _; by cbn in Hd.
    - injection Hr as <- _ _. by cbn in Hd. }
  destruct (Recovery.run_executor _ _ _ _ _) as [[result w] eng1].
  specialize (Hrun result w eng1 eq_refl).
  destruct (success result); cbn [fst]; [exact Hrun |].
  case_bool_decide; cbn [negb fst]; [| exact Hrun].
  by apply IH.
Qed.

(** Every delay that [handleError] asks for is the 2000 ms of the resource
    cleanup or a delay of the connection-retry strategy for an attempt from
    1 to its [maxRetries], where [calculateBackoffDelay] is exact: this
    holds in every state of the engine. *)
Lemma handleError_delays_are_exact o eng jobId error phase d :
  delayBeforeRetry (Recovery.handleError o eng jobId error phase).1.1 = Some d ->
  d = 2000
  \/ exists strategy n,
       Recovery.get_strategy "connection-retry" = Some strategy
       /\ (1 <= n <= maxRetries strategy)%nat
       /\ exact_backoff strategy n
       /\ d = Recovery.calculateBackoffDelay strategy n.
Proof.
  unfold Recovery.handleError. case_match; [done |].
  intros Hd. apply try_strategies_delay in Hd.
  - destruct Hd as [-> | (strategy & n & Hg & Hn & ->)]; [by left | right].
    exists strategy, n. split; [done |]. split; [done |].
    split; [by apply engine_backoff_is_exact | done].
  - apply Forall_forall. intros s. apply findApplicableStrategies_registered.
  - case_match; cbn [attemptNumber]; lia.
Qed.

(** X7. Where every number that [calculateBackoffDelay] computes is an
    integer that a double holds exactly, as it is at every call the engine
    makes, and the base delay is not negative: the delay never shrinks as
    the attempt number grows (from 1 on); under the linear and the
    exponential scheme it is capped by [maxDelay] and is at least the
    smaller of the base and the cap, and the exponential scheme doubles it
    from one attempt to the next until the cap is reached; the fixed scheme
    gives the base delay whatever the cap. The delays are exact integers
    themselves. *)
Theorem calculateBackoffDelay_grows_to_the_cap strategy n m :
  0 <= baseDelay strategy ->
  (1 <= n <= m)%nat ->
  exact_backoff strategy m ->
  Recovery.calculateBackoffDelay strategy n
  <= Recovery.calculateBackoffDelay strategy m
  /\ (backoffStrategy strategy <> fixed ->
      Z.min (baseDelay strategy) (maxDelay strategy)
      <= Recovery.calculateBackoffDelay strategy n <= maxDelay strategy)
  /\ (backoffStrategy strategy = exponential ->
      Recovery.calculateBackoffDelay strategy 1
      = Z.min (baseDelay strategy) (maxDelay strategy)
      /\ ((n < m)%nat ->
          Recovery.calculateBackoffDelay strategy (S n)
          = Z.min (2 * (baseDelay strategy * 2 ^ (Z.of_nat n - 1)))
              (maxDelay strategy)))
  /\ (backoffStrategy strategy = fixed ->
      Recovery.calculateBackoffDelay strategy n = baseDelay strategy)
  /\ exact_backoff strategy n
  /\ safe_integer (Recovery.calculateBackoffDelay strategy n)
  /\ safe_integer (Recovery.calculateBackoffDelay strategy m).
Proof.
  intros Hbase [Hn Hm] Hexact.
  pose proof (exact_backoff_earlier strategy n m Hbase (conj Hn Hm) Hexact)
    as Hexact_n.
  assert (forall k, exact_backoff strategy k ->
            safe_integer (Recovery.calculateBackoffDelay strategy k))
    as Hsafe.
  { unfold exact_backoff, safe_integer, Recovery.calculateBackoffDelay.
    intros k (Hb & Hx & Hk & Hs).
    destruct (backoffStrategy strategy); [lia | | done].
    destruct Hs as (_ & _ & Hs). lia. }
  assert (forall k : nat, (1 <= k)%nat -> 1 <= 2 ^ (Z.of_nat k - 1)) as Hpow.
  { intros k Hk. change 1 with (2 ^ 0) at 1.
    apply Z.pow_le_mono_r; lia. }
  assert (2 ^ (Z.of_nat n - 1) <= 2 ^ (Z.of_nat m - 1)) as Hmono.
  { apply Z.pow_le_mono_r; lia. }
  pose proof (Hpow n Hn) as Hpn.
  pose proof (Hsafe n Hexact_n) as Hsn. pose proof (Hsafe m Hexact) as Hsm.
  clear Hsafe. revert Hsn Hsm.
  unfold Recovery.calculateBackoffDelay.
  destruct (backoffStrategy strategy); intros Hsn Hsm.
  - split; [nia |]. split; [intros _; nia |].
    split; [done |]. split; [done |]. by split.
  - split; [nia |]. split; [intros _; nia |].
    split; [| split; [done | by split]]. intros _.
    split; [rewrite Z.mul_1_r; lia |]. intros _.
    replace (Z.of_nat (S n) - 1) with (Z.succ (Z.of_nat n - 1)) by lia.
    rewrite Z.pow_succ_r by lia. f_equal. lia.
  - split; [lia |]. split; [done |]. split; [done |]. split; [done |].
    by split.
Qed.

Lemma calculateBackoffDelay_grows_to_the_cap_witness :
  Recovery.calculateBackoffDelay
    {| strategy_id := "connection-retry";
       strategy_name := "Connection Retry";
       strategy_description :=
         "Retry operations that failed due to connection issues";
       applicableErrors :=
         ["CONNECTION_TIMEOUT"; "CONNECTION_REFUSED"; "NETWORK_ERROR"];
       maxRetries := 5; backoffStrategy := exponential;
       baseDelay := 1000; maxDelay := 30000;
       execute := ConnectionRetry |} 4
  <= Recovery.calculateBackoffDelay
       {| strategy_id := "connection-retry";
          strategy_name := "Connection Retry";
          strategy_description :=
            "Retry operations that failed due to connection issues";
          applicableErrors :=
            ["CONNECTION_TIMEOUT"; "CONNECTION_REFUSED"; "NETWORK_ERROR"];
          maxRetries := 5; backoffStrategy := exponential;
          baseDelay := 1000; maxDelay := 30000;
          execute := ConnectionRetry |} 5.
Proof.
  apply calculateBackoffDelay_grows_to_the_cap;
    [cbn; lia | lia | apply engine_backoff_is_exact; [reflexivity | cbn; lia]].
Defined.

(** ** What every engine state satisfies *)

Lemma well_kept_emit ev eng : well_kept eng -> well_kept (Recovery.emit ev eng).
Proof. done. Qed.

Lemma well_kept_delete_recovery j eng :
  well_kept eng -> well_kept (Recovery.delete_recovery j eng).
Proof.
  intros [Hcp Hctx]. split; [done |]. intros j' c Hc.
  cbn in Hc. apply lookup_delete_Some in Hc as [_ Hc]. by apply Hctx.
Qed.

Lemma well_kept_set_recovery j c eng :
  kept_context j c -> well_kept eng ->
  well_kept (Recovery.set_recovery j c eng).
Proof.
  intros Hk [Hcp Hctx]. split; [done |]. intros j' c' Hc. cbn in Hc.
  apply lookup_insert_Some in Hc as [[<- <-] | [_ Hc]]; [done |].
  by apply Hctx.
Qed.

Lemma well_kept_createCheckpoint eng jobId phase progress state id now :
  well_kept eng ->
  well_kept (Recovery.createCheckpoint eng jobId phase progress state id now).2.
Proof.
  intros [Hcp Hctx]. unfold Recovery.createCheckpoint. cbn zeta. cbn [snd].
  set (cp := Recovery.new_checkpoint jobId phase progress state id now).
  set (pushed := Recovery.getJobCheckpoints eng jobId ++ [cp]).
  apply well_kept_emit. split; [| done]. intros j cps Hj.
  cbn [checkpoints Recovery.set_checkpoints] in Hj.
  apply lookup_insert_Some in Hj as [[<- <-] | [_ Hj]]; [| by apply Hcp].
  assert (Forall (kept_checkpoint jobId) pushed) as Hall.
  { apply Forall_app. split; [| by repeat constructor].
    unfold Recovery.getJobCheckpoints.
    destruct (checkpoints eng !! jobId) as [cps |] eqn:Hj; [| done].
    by apply Hcp. }
  assert (List.length pushed
          = S (List.length (Recovery.getJobCheckpoints eng jobId))) as Hpos.
  { unfold pushed. rewrite length_app. cbn. lia. }
  destruct (Nat.ltb_spec 10 (List.length pushed)) as [Hlt | Hle].
  - split; [| split].
    + intros Hnil. apply (f_equal List.length) in Hnil.
      rewrite length_drop in Hnil. cbn in Hnil. lia.
    + rewrite length_drop. lia.
    + by apply Forall_drop.
  - split; [| split]; [| lia | done].
    intros Hnil. rewrite Hnil in Hpos. cbn in Hpos. lia.
Qed.

Lemma well_kept_rollbackToCheckpoint resolves eng jobId checkpointId :
  well_kept eng ->
  well_kept (Recovery.rollbackToCheckpoint resolves eng jobId checkpointId).2.
Proof.
  intros Hk. unfold Recovery.rollbackToCheckpoint.
  destruct (checkpoints eng !! jobId) as [cps |] eqn:Hj; [| done].
  destruct (List.find _ cps) as [cp |]; [| done].
  destruct (canRollback cp); cbn [negb]; [| done].
  destruct (Recovery.run_instructions resolves _) as [w [|]]; cbn [snd];
    [| done].
  destruct (Recovery.findIndex cps checkpointId) as [i |]; [| done].
  apply well_kept_emit. destruct Hk as [Hcp Hctx]. split; [| done].
  intros j cps' Hj'. cbn in Hj'.
  apply lookup_insert_Some in Hj' as [[<- <-] | [_ Hj']]; [| by apply Hcp].
  destruct (Hcp _ _ Hj) as (Hne & Hlen & Hall). split; [| split].
  - destruct cps; [done |]. by rewrite Nat.add_1_r.
  - rewrite length_take. lia.
  - by apply Forall_take.
Qed.

Lemma well_kept_run_executor x o error context eng :
  well_kept eng ->
  well_kept (Recovery.run_executor x o error context eng).2.
Proof.
  intros Hk. destruct x; cbn [Recovery.run_executor snd]; try done.
  unfold Recovery.executePartialRollback.
  destruct (checkpoints eng !! ctx_job context) as [[| c cs] |]; try done.
  pose proof (well_kept_rollbackToCheckpoint (instruction_resolves o) eng
                (ctx_job context) (cp_id (List.last cs c)) Hk) as H.
  by destruct (Recovery.rollbackToCheckpoint _ _ _ _) as [[ok w] eng'].
Qed.

Lemma well_kept_try_strategies o jobId error strategies :
  forall context waits eng,
    kept_context jobId context ->
    well_kept eng ->
    well_kept
      (Recovery.try_strategies o jobId error context strategies waits eng).2.
Proof.
  induction strategies as [| s rest IH]; intros context waits eng Hc Hk;
    cbn [Recovery.try_strategies].
  - by apply well_kept_delete_recovery.
  - case_match; [by apply IH |].
    pose proof (well_kept_run_executor (execute s) o error context eng Hk)
      as Hx.
    destruct (Recovery.run_executor _ _ _ _ _) as [[result w] eng1].
    cbn [snd] in Hx.
    set (context' := Recovery.push_attempt _ context).
    assert (kept_context jobId context') as Hc' by done.
    destruct (success result); cbn [snd].
    + apply well_kept_emit, well_kept_delete_recovery, well_kept_emit.
      by apply well_kept_set_recovery.
    + case_bool_decide; cbn [negb snd].
      * apply IH; [done |]. apply well_kept_emit.
        by apply well_kept_set_recovery.
      * apply well_kept_emit, well_kept_emit.
        by apply well_kept_set_recovery.
Qed.

Lemma well_kept_handleError o eng jobId error phase :
  well_kept eng ->
  well_kept (Recovery.handleError o eng jobId error phase).2.
Proof.
  intros Hk. unfold Recovery.handleError. case_match; [done |].
  cbn [Recovery.emit activeRecoveries].
  set (context := match activeRecoveries eng !! jobId with
                  | Some c => _ | None => _ end).
  assert (kept_context jobId context) as Hc.
  { subst context. destruct (activeRecoveries eng !! jobId) as [c |] eqn:Hj.
    - destruct (proj2 Hk _ _ Hj) as (H1 & H2 & H3).
      repeat split; cbn; [done | lia |]. rewrite length_app. cbn. lia.
    - by repeat split. }
  apply well_kept_try_strategies; [done |].
  by apply well_kept_set_recovery, well_kept_emit.
Qed.

Lemma well_kept_cleanupJob eng jobId :
  well_kept eng -> well_kept (Recovery.cleanupJob eng jobId).
Proof.
  intros [Hcp Hctx]. split.
  - intros j cps Hj. cbn in Hj. apply lookup_delete_Some in Hj as [_ Hj].
    by apply Hcp.
  - intros j c Hj. cbn in Hj. apply lookup_delete_Some in Hj as [_ Hj].
    by apply Hctx.
Qed.

Lemma well_kept_run calls : well_kept (Recovery.engine_run calls).
Proof.
  unfold Recovery.engine_run.
  assert (well_kept Recovery.new_engine) as H.
  { split; intros j x Hj; cbn in Hj; by rewrite lookup_empty in Hj. }
  revert H. generalize Recovery.new_engine.
  induction calls as [| c calls IH]; intros eng Hk; [done |].
  cbn [fold_left]. apply IH. destruct c; cbn [Recovery.engine_step].
  - by apply well_kept_createCheckpoint.
  - by apply well_kept_rollbackToCheckpoint.
  - by apply well_kept_handleError.
  - by apply well_kept_cleanupJob.
Qed.

(** X8. In every state the engine reaches through its public calls, the
    checkpoints stored for a job are between 1 and 10, belong to that job,
    may be rolled back to unless their phase is validation or cutover, and
    carry the instructions of their phase; and a recovery context stored for
    a job is that job's, counts at least one attempt and has recorded one
    fault per attempt. *)
Theorem engine_state_is_well_kept calls :
  let eng := Recovery.engine_run calls in
  (forall j cps,
     checkpoints eng !! j = Some cps ->
     (1 <= List.length cps <= 10)%nat
     /\ (forall cp, cp ∈ cps ->
           cp_jobId cp = j
           /\ (canRollback cp = true
               <-> cp_phase cp <> validation /\ cp_phase cp <> cutover)
           /\ rollbackInstructions cp
              = Recovery.generateRollbackInstructions (cp_phase cp)
                  (cp_state cp)))
  /\ (forall j c,
        Recovery.getActiveRecovery eng j = Some c ->
        ctx_job c = j
        /\ (1 <= attemptNumber c)%nat
        /\ List.length (errorHistory c) = attemptNumber c).
Proof.
  cbn zeta. destruct (well_kept_run calls) as [Hcp Hctx]. split; [| done].
  intros j cps Hj. destruct (Hcp j cps Hj) as (Hne & Hlen & Hall).
  split; [destruct cps; [done | cbn in *; lia] |].
  intros cp Hin. destruct (proj1 (Forall_forall _ _) Hall cp Hin)
    as (H1 & H2 & H3).
  split; [done |]. split; [| done]. rewrite H2.
  unfold Recovery.canRollbackFromPhase.
  destruct (cp_phase cp); cbn; split; try done; intros []; done.
Qed.

(** ** Rollbacks that are refused *)

Lemma find_getJobCheckpoints eng jobId checkpointId :
  List.find (Recovery.has_id checkpointId)
    (Recovery.getJobCheckpoints eng jobId)
  = match checkpoints eng !! jobId with
    | Some cps => List.find (Recovery.has_id checkpointId) cps
    | None => None
    end.
Proof.
  unfold Recovery.getJobCheckpoints. by destruct (checkpoints eng !! jobId).
Qed.

Lemma run_instructions_resolving resolves instructions :
  (forall i, i ∈ instructions -> resolves i = true) ->
  Recovery.run_instructions resolves instructions
  = (List.map (fun _ => 500) instructions, true).
Proof.
  induction instructions as [| i rest IH]; intros H; [done |].
  cbn [Recovery.run_instructions List.map].
  rewrite (H i) by apply list_elem_of_here.
  rewrite IH; [done |]. intros i' Hi'. apply H. by apply list_elem_of_further.
Qed.

(** X9. [rollbackToCheckpoint] returns false at once, awaiting nothing and
    leaving the engine as it is, events included, when the job has no
    checkpoint with the given id, and, in every state the engine reaches,
    when that checkpoint was made for the validation or the cutover phase;
    for a checkpoint of another phase whose instructions all resolve it
    returns true after one wait of 500 ms for each instruction of the
    phase. *)
Theorem rollback_is_refused_without_effect :
  (forall resolves eng jobId checkpointId,
     List.find (Recovery.has_id checkpointId)
       (Recovery.getJobCheckpoints eng jobId) = None ->
     Recovery.rollbackToCheckpoint resolves eng jobId checkpointId
     = (false, [], eng))
  /\ (forall calls resolves jobId checkpointId cp,
        let eng := Recovery.engine_run calls in
        List.find (Recovery.has_id checkpointId)
          (Recovery.getJobCheckpoints eng jobId) = Some cp ->
        cp_phase cp = validation \/ cp_phase cp = cutover ->
        Recovery.rollbackToCheckpoint resolves eng jobId checkpointId
        = (false, [], eng))
  /\ (forall calls resolves jobId checkpointId cp,
        let eng := Recovery.engine_run calls in
        List.find (Recovery.has_id checkpointId)
          (Recovery.getJobCheckpoints eng jobId) = Some cp ->
        cp_phase cp <> validation -> cp_phase cp <> cutover ->
        (forall i, resolves i = true) ->
        (Recovery.rollbackToCheckpoint resolves eng jobId checkpointId).1
        = (true,
           List.map (fun _ => 500)
             (Recovery.generateRollbackInstructions (cp_phase cp)
                (cp_state cp)))).
Proof.
  split; [| split].
  - intros resolves eng jobId checkpointId Hfind.
    rewrite find_getJobCheckpoints in Hfind.
    unfold Recovery.rollbackToCheckpoint.
    destruct (checkpoints eng !! jobId) as [cps |]; [| done].
    by rewrite Hfind.
  - intros calls resolves jobId checkpointId cp eng Hfind Hphase.
    rewrite find_getJobCheckpoints in Hfind.
    unfold Recovery.rollbackToCheckpoint.
    destruct (checkpoints eng !! jobId) as [cps |] eqn:Hj; [| done].
    rewrite Hfind.
    destruct (proj1 (well_kept_run calls) _ _ Hj) as (_ & _ & Hall).
    apply find_some in Hfind as [Hin _]. apply list_elem_of_In in Hin.
    destruct (proj1 (Forall_forall _ _) Hall cp Hin) as (_ & -> & _).
    by destruct Hphase as [-> | ->].
  - intros calls resolves jobId checkpointId cp eng Hfind Hv Hc Hres.
    rewrite find_getJobCheckpoints in Hfind.
    unfold Recovery.rollbackToCheckpoint.
    destruct (checkpoints eng !! jobId) as [cps |] eqn:Hj; [| done].
    rewrite Hfind.
    destruct (proj1 (well_kept_run calls) _ _ Hj) as (_ & _ & Hall).
    apply find_some in Hfind as [Hin _]. apply list_elem_of_In in Hin.
    destruct (proj1 (Forall_forall _ _) Hall cp Hin) as (_ & -> & ->).
    rewrite run_instructions_resolving by auto.
    unfold Recovery.canRollbackFromPhase.
    by destruct (cp_phase cp).
Qed.

Lemma rollback_is_refused_without_effect_witness :
  Recovery.rollbackToCheckpoint (fun _ => true)
    (Recovery.engine_run
       [Recovery.call_createCheckpoint "job_1" validation initializeProgress
          {| state_phase := validation; state_timestamp := 9 |}
          "checkpoint_9" 9])
    "job_1" "checkpoint_9"
  = (false, [],
     Recovery.engine_run
       [Recovery.call_createCheckpoint "job_1" validation initializeProgress
          {| state_phase := validation; state_timestamp := 9 |}
          "checkpoint_9" 9]).
Proof.
  eapply (proj1 (proj2 rollback_is_refused_without_effect)
            [Recovery.call_createCheckpoint "job_1" validation
               initializeProgress
               {| state_phase := validation; state_timestamp := 9 |}
               "checkpoint_9" 9]).
  - vm_compute. reflexivity.
  - by left.
Defined.

(** ** What a recovery depends on and what it touches *)

Lemma rollbackToCheckpoint_same resolves j checkpointId e1 e2 :
  same_checkpoints j e1 e2 ->
  (Recovery.rollbackToCheckpoint resolves e1 j checkpointId).1
  = (Recovery.rollbackToCheckpoint resolves e2 j checkpointId).1
  /\ same_checkpoints j
       (Recovery.rollbackToCheckpoint resolves e1 j checkpointId).2
       (Recovery.rollbackToCheckpoint resolves e2 j checkpointId).2.
Proof.
  unfold same_checkpoints, Recovery.rollbackToCheckpoint. intros Hs.
  rewrite <- Hs.
  destruct (checkpoints e1 !! j) as [cps |] eqn:Hj;
    [| split; [done | cbn [snd]; congruence]].
  destruct (List.find _ cps) as [cp |];
    [| split; [done | cbn [snd]; congruence]].
  destruct (canRollback cp); cbn [negb];
    [| split; [done | cbn [snd]; congruence]].
  destruct (Recovery.run_instructions resolves _) as [w [|]]; cbn [fst snd];
    [| split; [done | cbn [checkpoints Recovery.emit]; congruence]].
  split; [done |].
  destruct (Recovery.findIndex cps checkpointId) as [i |];
    [| cbn [checkpoints Recovery.emit]; congruence].
  cbn [checkpoints Recovery.emit Recovery.set_checkpoints].
  by rewrite !lookup_insert_eq.
Qed.

Lemma run_executor_same x o error context e1 e2 :
  same_checkpoints (ctx_job context) e1 e2 ->
  (Recovery.run_executor x o error context e1).1
  = (Recovery.run_executor x o error context e2).1
  /\ same_checkpoints (ctx_job context)
       (Recovery.run_executor x o error context e1).2
       (Recovery.run_executor x o error context e2).2.
Proof.
  intros Hs. destruct x; cbn [Recovery.run_executor fst snd]; try done.
  unfold Recovery.executePartialRollback.
  pose proof Hs as Hs'. unfold same_checkpoints in Hs'. rewrite <- Hs'.
  destruct (checkpoints e1 !! ctx_job context) as [[| c cs] |]; try done.
  pose proof (rollbackToCheckpoint_same (instruction_resolves o)
                (ctx_job context) (cp_id (List.last cs c)) e1 e2 Hs)
    as [H1 H2].
  destruct (Recovery.rollbackToCheckpoint _ e1 _ _) as [[ok1 w1] e1'].
  destruct (Recovery.rollbackToCheckpoint _ e2 _ _) as [[ok2 w2] e2'].
  cbn [fst snd] in *. by inversion H1; subst.
Qed.

Lemma try_strategies_same o jobId error strategies :
  forall context waits e1 e2,
    same_checkpoints (ctx_job context) e1 e2 ->
    (Recovery.try_strategies o jobId error context strategies waits e1).1
    = (Recovery.try_strategies o jobId error context strategies waits e2).1.
Proof.
  induction strategies as [| s rest IH]; intros context waits e1 e2 Hs;
    cbn [Recovery.try_strategies]; [done |].
  case_match; [by apply IH |].
  pose proof (run_executor_same (execute s) o error context e1 e2 Hs)
    as [H1 H2].
  destruct (Recovery.run_executor _ _ _ _ e1) as [[r1 w1] e1'].
  destruct (Recovery.run_executor _ _ _ _ e2) as [[r2 w2] e2'].
  cbn [fst snd] in *. inversion H1; subst.
  destruct (success r2); [done |].
  case_bool_decide; cbn [negb]; [| done].
  by apply IH.
Qed.

(** X10. [cleanupJob] forgets the job: its checkpoints and its recovery
    context are gone, a rollback for it is refused, and the next
    [handleError] for it decides and waits as it would on a new engine; the
    checkpoints and contexts of every other job stay. *)
Theorem cleanupJob_forgets_the_job eng jobId :
  let cleaned := Recovery.cleanupJob eng jobId in
  Recovery.getJobCheckpoints cleaned jobId = []
  /\ Recovery.getActiveRecovery cleaned jobId = None
  /\ (forall resolves checkpointId,
        Recovery.rollbackToCheckpoint resolves cleaned jobId checkpointId
        = (false, [], cleaned))
  /\ (forall o error phase,
        (Recovery.handleError o cleaned jobId error phase).1
        = (Recovery.handleError o Recovery.new_engine jobId error phase).1)
  /\ (forall other,
        other <> jobId ->
        Recovery.getJobCheckpoints cleaned other
        = Recovery.getJobCheckpoints eng other
        /\ Recovery.getActiveRecovery cleaned other
           = Recovery.getActiveRecovery eng other).
Proof.
  cbn zeta.
  unfold Recovery.getJobCheckpoints, Recovery.getActiveRecovery,
    Recovery.cleanupJob. cbn [checkpoints activeRecoveries].
  rewrite !lookup_delete_eq.
  split; [done |]. split; [done |]. split; [| split].
  - intros resolves checkpointId. unfold Recovery.rollbackToCheckpoint.
    cbn [checkpoints]. by rewrite lookup_delete_eq.
  - intros o error phase. unfold Recovery.handleError.
    case_match; [done |].
    unfold Recovery.new_engine. cbn [Recovery.emit activeRecoveries].
    rewrite lookup_delete_eq, lookup_empty.
    apply try_strategies_same. unfold same_checkpoints.
    cbn [ctx_job checkpoints Recovery.set_recovery Recovery.emit].
    by rewrite lookup_delete_eq, lookup_empty.
  - intros other Hne. by rewrite !lookup_delete_ne by congruence.
Qed.

Lemma untouched_refl j e : untouched j e e.
Proof. done. Qed.

Lemma untouched_trans j e1 e2 e3 :
  untouched j e1 e2 -> untouched j e2 e3 -> untouched j e1 e3.
Proof. intros [H1 H2] [H3 H4]. split; congruence. Qed.

Lemma rollbackToCheckpoint_untouched resolves eng jobId checkpointId j :
  j <> jobId ->
  untouched j eng
    (Recovery.rollbackToCheckpoint resolves eng jobId checkpointId).2.
Proof.
  intros Hne. unfold Recovery.rollbackToCheckpoint.
  destruct (checkpoints eng !! jobId) as [cps |]; [| done].
  destruct (List.find _ cps) as [cp |]; [| done].
  destruct (canRollback cp); cbn [negb]; [| done].
  destruct (Recovery.run_instructions resolves _) as [w [|]]; cbn [snd];
    [| done].
  destruct (Recovery.findIndex cps checkpointId) as [i |]; [| done].
  split; [| done]. cbn. by rewrite lookup_insert_ne by congruence.
Qed.

Lemma run_executor_untouched x o error context eng j :
  j <> ctx_job context ->
  untouched j eng (Recovery.run_executor x o error context eng).2.
Proof.
  intros Hne. destruct x; cbn [Recovery.run_executor snd]; try done.
  unfold Recovery.executePartialRollback.
  destruct (checkpoints eng !! ctx_job context) as [[| c cs] |]; try done.
  pose proof (rollbackToCheckpoint_untouched (instruction_resolves o) eng
                (ctx_job context) (cp_id (List.last cs c)) j Hne) as H.
  by destruct (Recovery.rollbackToCheckpoint _ _ _ _) as [[ok w] eng'].
Qed.

Lemma untouched_stored jobId c ev eng j :
  j <> jobId ->
  untouched j eng (Recovery.emit ev (Recovery.set_recovery jobId c eng)).
Proof.
  intros Hne. split; [done |]. cbn. by rewrite lookup_insert_ne by congruence.
Qed.

Lemma untouched_deleted jobId ev eng j :
  j <> jobId ->
  untouched j eng (Recovery.emit ev (Recovery.delete_recovery jobId eng)).
Proof.
  intros Hne. split; [done |]. cbn. by rewrite lookup_delete_ne by congruence.
Qed.

Lemma try_strategies_effects o jobId error strategies :
  forall context waits eng,
    ctx_job context = jobId ->
    (success
       (Recovery.try_strategies o jobId error context strategies waits
          eng).1.1 = true ->
     activeRecoveries
       (Recovery.try_strategies o jobId error context strategies waits eng).2
     !! jobId = None)
    /\ (forall j,
          j <> jobId ->
          untouched j eng
            (Recovery.try_strategies o jobId error context strategies waits
               eng).2).
Proof.
  induction strategies as [| s rest IH]; intros context waits eng Hc;
    cbn [Recovery.try_strategies].
  - split; [done |]. intros j Hne. split; [done |]. cbn.
    by rewrite lookup_delete_ne by congruence.
  - destruct (maxRetries s <? attemptNumber context)%nat; [by apply IH |].
    pose proof (fun j (H : j <> jobId) =>
                  run_executor_untouched (execute s) o error context eng j
                    (eq_ind_r (fun x => j <> x) H Hc)) as Hx.
    destruct (Recovery.run_executor _ _ _ _ _) as [[result w] eng1].
    cbn [snd] in Hx.
    destruct (success result) eqn:Hs; cbn [fst snd].
    + split.
      * intros _. cbn. apply lookup_delete_eq.
      * intros j Hne. eapply untouched_trans; [by apply Hx |].
        eapply untouched_trans; [by apply (untouched_stored jobId) |].
        by apply untouched_deleted.
    + case_bool_decide; cbn [negb fst snd].
      * match goal with
        | |- context [Recovery.try_strategies o jobId error ?c rest ?ws ?e] =>
            destruct (IH c ws e Hc) as [IH1 IH2]
        end.
        split; [done |].
        intros j Hne. eapply untouched_trans; [by apply Hx |].
        eapply untouched_trans; [by apply (untouched_stored jobId) |].
        by apply IH2.
      * split; [congruence |].
        intros j Hne. eapply untouched_trans; [by apply Hx |].
        eapply untouched_trans; [by apply (untouched_stored jobId) |].
        split; done.
Qed.

(** X11. In every state the engine reaches, [handleError] never asks for a
    rollback: a success asks for a retry or a skip and leaves the job
    without recovery context, so that its next fault counts as a first
    attempt, and a failure asks for manual intervention. The job's
    checkpoints do not grow, and the checkpoints and contexts of every other
    job stay as they are. *)
Theorem handleError_decides_and_touches_one_job calls o jobId error phase :
  let eng := Recovery.engine_run calls in
  let '(r, waits, eng') := Recovery.handleError o eng jobId error phase in
  action r <> rollback
  /\ (success r = true ->
      (action r = retry \/ action r = skip)
      /\ Recovery.getActiveRecovery eng' jobId = None)
  /\ (success r = false ->
      action r = manual_intervention
      /\ requiresManualIntervention r = Some true)
  /\ (List.length (Recovery.getJobCheckpoints eng' jobId)
      <= List.length (Recovery.getJobCheckpoints eng jobId))%nat
  /\ (forall other,
        other <> jobId ->
        Recovery.getJobCheckpoints eng' other
        = Recovery.getJobCheckpoints eng other
        /\ Recovery.getActiveRecovery eng' other
           = Recovery.getActiveRecovery eng other).
Proof.
  cbn zeta. set (eng := Recovery.engine_run calls).
  pose proof (handleError_shape o eng jobId error phase) as Hshape.
  pose proof (handleError_shrinks o eng jobId error phase jobId) as Hshrink.
  assert ((success (Recovery.handleError o eng jobId error phase).1.1 = true ->
           activeRecoveries (Recovery.handleError o eng jobId error phase).2
           !! jobId = None)
          /\ (forall j,
                j <> jobId ->
                untouched j eng
                  (Recovery.handleError o eng jobId error phase).2)) as Heff.
  { unfold Recovery.handleError.
    destruct (List.length (Recovery.findApplicableStrategies error) =? 0)%nat.
    - split; [done |]. intros j _. done.
    - set (context := match activeRecoveries _ !! jobId with
                      | Some c => _ | None => _ end).
      assert (ctx_job context = jobId) as Hc.
      { subst context. cbn [Recovery.emit activeRecoveries].
        destruct (activeRecoveries eng !! jobId) as [c |] eqn:Hj; [| done].
        exact (proj1 (proj2 (well_kept_run calls) _ _ Hj)). }
      destruct (try_strategies_effects o jobId error
                  (Recovery.findApplicableStrategies error) context []
                  (Recovery.set_recovery jobId context
                     (Recovery.emit
                        (recovery_started jobId (error_code error) phase)
                        eng)) Hc) as [H1 H2].
      split; [done |]. intros j Hne.
      eapply untouched_trans; [| by apply H2].
      split; [done |]. cbn. by rewrite lookup_insert_ne by congruence. }
  destruct (Recovery.handleError o eng jobId error phase) as [[r w] eng'].
  cbn [fst snd] in *. destruct Heff as [Hdel Hiso].
  unfold decision_shape in Hshape.
  split; [| split; [| split; [| split]]].
  - destruct Hshape as [[_ [-> | ->]] | [_ [-> _]]]; done.
  - intros Hs. split; [| by apply Hdel].
    destruct Hshape as [[_ H] | [H _]]; [done | congruence].
  - intros Hs. destruct Hshape as [[H _] | [_ H]]; [congruence | done].
  - done.
  - intros other Hne. destruct (Hiso other Hne) as [H1 H2].
    unfold Recovery.getJobCheckpoints, Recovery.getActiveRecovery.
    by rewrite H1, H2.
Qed.

(** * Further properties of the monitoring system *)

Section monitoring_facts.
Import Monitoring.

Lemma count_where_severities l :
  List.length l
  = (count_where (fun e => bool_decide (err_severity e = low)) l
     + count_where (fun e => bool_decide (err_severity e = medium)) l
     + count_where (fun e => bool_decide (err_severity e = high)) l
     + count_where (fun e => bool_decide (err_severity e = critical)) l)%nat.
Proof.
  unfold count_where. induction l as [| e l IH]; [done |].
  cbn [List.filter].
  repeat case_bool_decide; cbn [List.length]; try lia;
    destruct (err_severity e); congruence.
Qed.

Lemma count_where_phases l :
  List.length l
  = foldr Nat.add 0%nat
      (List.map
         (fun ph => count_where (fun e => bool_decide (err_phase e = ph)) l)
         all_phases).
Proof.
  unfold count_where, all_phases. induction l as [| e l IH]; [done |].
  cbn [List.filter List.map foldr] in *.
  destruct (err_phase e);
    repeat match goal with
           | |- context [bool_decide (?a = ?b)] =>
               let v := eval vm_compute in (bool_decide (a = b)) in
               change (bool_decide (a = b)) with v
           end;
    cbn [List.length]; rewrite IH at 1; lia.
Qed.

Lemma count_where_le p l : (count_where p l <= List.length l)%nat.
Proof. unfold count_where. apply List.filter_length_le. Qed.

Lemma filter_window_mono (l : list MigrationError) (a b : Z) :
  a <= b ->
  (List.length (List.filter (fun e => (b <? err_timestamp e)%Z) l)
   <= List.length (List.filter (fun e => (a <? err_timestamp e)%Z) l))%nat.
Proof.
  intros Hab. induction l as [| e l IH]; [done |]. cbn [List.filter].
  destruct (Z.ltb_spec b (err_timestamp e));
    destruct (Z.ltb_spec a (err_timestamp e)); cbn [List.length]; lia.
Qed.

(** X12. The figures of [getErrorMetrics] add up: the total is the sum of
    the counts by severity and the sum of the counts by phase, no count by
    code exceeds it, an error is counted exactly when it is stored and newer
    than the window, and a wider window counts no fewer errors. *)
Theorem getErrorMetrics_adds_up mon timeWindow now :
  let m := getErrorMetrics mon timeWindow now in
  totalErrors m
  = (errorsBySeverity m low + errorsBySeverity m medium
     + errorsBySeverity m high + errorsBySeverity m critical)%nat
  /\ totalErrors m
     = foldr Nat.add 0%nat (List.map (errorsByPhase m) all_phases)
  /\ (forall c, (errorsByCode m c <= totalErrors m)%nat)
  /\ (forall e,
        e ∈ recentErrors mon timeWindow now
        <-> (exists id, monitor_errors mon !! id = Some e)
            /\ now - timeWindow < err_timestamp e)
  /\ (forall wider,
        timeWindow <= wider ->
        (totalErrors m <= totalErrors (getErrorMetrics mon wider now))%nat).
Proof.
  cbn zeta. unfold getErrorMetrics.
  cbn [totalErrors errorsBySeverity errorsByPhase errorsByCode].
  split; [apply count_where_severities |].
  split; [apply count_where_phases |].
  split; [intros c; apply count_where_le |].
  split.
  - intros e. unfold recentErrors.
    rewrite list_elem_of_In, List.filter_In, <- list_elem_of_In.
    rewrite list_elem_of_fmap. split.
    + intros [([id e'] & -> & Hin) Ht]. split; [| lia].
      exists id. by apply elem_of_map_to_list.
    + intros [[id Hid] Ht]. split; [| lia].
      exists (id, e). split; [done |]. by apply elem_of_map_to_list.
  - intros wider Hw. unfold recentErrors. apply filter_window_mono. lia.
Qed.

Lemma alerts_raised_checkForAlerts ty o error jobId mon :
  alerts_raised ty (monitor_events (checkForAlerts o error jobId mon))
  = (alerts_raised ty (monitor_events mon)
     + (if bool_decide (err_severity error = critical)
           && bool_decide (ty = critical_error)
        then 1 else 0)
     + (if (criticalErrorThreshold
            <=? errorsBySeverity
                  (getErrorMetrics mon 600000 (oracle_now o)) critical)%nat
           && bool_decide (ty = threshold_exceeded)
        then 1 else 0))%nat.
Proof.
  unfold checkForAlerts.
  set (mon1 := if bool_decide (err_severity error = critical) then _ else _).
  assert (alerts_raised ty (monitor_events mon1)
          = (alerts_raised ty (monitor_events mon)
             + (if bool_decide (err_severity error = critical)
                   && bool_decide (ty = critical_error)
                then 1 else 0))%nat) as H1.
  { subst mon1. case_bool_decide; cbn [andb]; [| lia].
    rewrite alerts_raised_createAlert. cbn [data_type].
    repeat case_bool_decide; congruence. }
  assert (getErrorMetrics mon1 600000 (oracle_now o)
          = getErrorMetrics mon 600000 (oracle_now o)) as ->.
  { subst mon1. by case_bool_decide. }
  cbn zeta. destruct (_ <=? _)%nat; cbn [andb]; [| lia].
  rewrite alerts_raised_createAlert, H1. cbn [data_type].
  repeat case_bool_decide; try congruence; lia.
Qed.

Lemma updateErrorPatterns_errors o error mon :
  monitor_errors (updateErrorPatterns o error mon) = monitor_errors mon.
Proof.
  unfold updateErrorPatterns. cbn zeta.
  by destruct (_ && _).
Qed.

Lemma checkForAlerts_errors o error jobId mon :
  monitor_errors (checkForAlerts o error jobId mon) = monitor_errors mon.
Proof.
  unfold checkForAlerts. cbn zeta.
  destruct (_ <=? _)%nat; by case_bool_decide.
Qed.

Lemma alerts_raised_updateErrorPatterns ty o error mon :
  ty <> pattern_detected ->
  alerts_raised ty (monitor_events (updateErrorPatterns o error mon))
  = alerts_raised ty (monitor_events mon).
Proof.
  intros Hty. unfold updateErrorPatterns. cbn zeta.
  destruct (_ && _); [| done].
  rewrite alerts_raised_createAlert. cbn [data_type monitor_events set_pattern].
  rewrite bool_decide_false by congruence. lia.
Qed.

Lemma getErrorMetrics_errors mon mon' timeWindow now :
  monitor_errors mon' = monitor_errors mon ->
  getErrorMetrics mon' timeWindow now = getErrorMetrics mon timeWindow now.
Proof. intros H. unfold getErrorMetrics, recentErrors. by rewrite H. Qed.

(** X13. [recordError] stores the fault under its id and emits
    [error:recorded] last. It raises a critical-error alert exactly when the
    fault is critical, and a threshold alert exactly when, the fault counted,
    at least 3 critical faults of the last 10 minutes are stored, whatever
    the severity of the fault itself; it never raises a system-health
    alert. *)
Theorem recordError_alerts o error jobId mon :
  let mon' := recordError o error jobId mon in
  monitor_errors mon' = <[err_id error := error]> (monitor_errors mon)
  /\ List.last (monitor_events mon') (error_recorded EmptyString EmptyString)
     = error_recorded (err_id error) jobId
  /\ alerts_raised critical_error (monitor_events mon')
     = (alerts_raised critical_error (monitor_events mon)
        + (if bool_decide (err_severity error = critical) then 1 else 0))%nat
  /\ alerts_raised threshold_exceeded (monitor_events mon')
     = (alerts_raised threshold_exceeded (monitor_events mon)
        + (if (3 <=? errorsBySeverity
                       (getErrorMetrics mon' 600000 (oracle_now o))
                       critical)%nat
           then 1 else 0))%nat
  /\ alerts_raised system_health (monitor_events mon')
     = alerts_raised system_health (monitor_events mon).
Proof.
  cbn zeta.
  assert (monitor_errors (recordError o error jobId mon)
          = <[err_id error := error]> (monitor_errors mon)) as Herr.
  { unfold recordError. cbn [monitor_errors].
    by rewrite checkForAlerts_errors, updateErrorPatterns_errors. }
  split; [done |]. split.
  { unfold recordError. cbn [monitor_events]. apply last_last. }
  assert (forall ty,
            ty <> pattern_detected ->
            alerts_raised ty (monitor_events (recordError o error jobId mon))
            = (alerts_raised ty (monitor_events mon)
               + (if bool_decide (err_severity error = critical)
                     && bool_decide (ty = critical_error)
                  then 1 else 0)
               + (if (criticalErrorThreshold
                      <=? errorsBySeverity
                            (getErrorMetrics (recordError o error jobId mon)
                               600000 (oracle_now o)) critical)%nat
                     && bool_decide (ty = threshold_exceeded)
                  then 1 else 0))%nat) as H.
  { intros ty Hty.
    rewrite (getErrorMetrics_errors
               (updateErrorPatterns o error
                  {| monitor_errors :=
                       <[err_id error := error]> (monitor_errors mon);
                     errorPatterns := errorPatterns mon;
                     alerts := alerts mon;
                     monitor_events := monitor_events mon |})
               (recordError o error jobId mon))
      by (by rewrite Herr, updateErrorPatterns_errors).
    unfold recordError at 1. cbn [monitor_events].
    rewrite alerts_raised_app, alerts_raised_checkForAlerts,
      alerts_raised_updateErrorPatterns by done.
    change (alerts_raised ty [error_recorded _ _]) with 0%nat.
    cbn [monitor_events]. lia. }
  unfold criticalErrorThreshold in H.
  split; [| split]; rewrite H by done;
    repeat (rewrite bool_decide_true by done);
    repeat (rewrite bool_decide_false by done);
    rewrite ?andb_true_r, ?andb_false_r; lia.
Qed.

Lemma list_ascii_of_string_app a b :
  list_ascii_of_string (a +:+ b)
  = list_ascii_of_string a ++ list_ascii_of_string b.
Proof.
  induction a as [| c a IH]; [done |].
  change (String c a +:+ b) with (String c (a +:+ b)). cbn. by rewrite IH.
Qed.

Lemma list_ascii_of_string_inj a b :
  list_ascii_of_string a = list_ascii_of_string b -> a = b.
Proof.
  intros H. rewrite <- (string_of_list_ascii_of_string a),
    <- (string_of_list_ascii_of_string b). by rewrite H.
Qed.

Lemma phase_name_suffix p1 p2 :
  list_ascii_of_string ("_" +:+ phase_name p1)
    `suffix_of` list_ascii_of_string ("_" +:+ phase_name p2) ->
  p1 = p2.
Proof.
  intros H.
  assert (bool_decide
            (list_ascii_of_string ("_" +:+ phase_name p1)
               `suffix_of` list_ascii_of_string ("_" +:+ phase_name p2))
          = true) as Hb by (by apply bool_decide_eq_true_2).
  clear H. destruct p1, p2; try done; vm_compute in Hb; done.
Qed.

Lemma patternKey_inj e1 e2 :
  patternKey e1 = patternKey e2 ->
  error_code e1 = error_code e2 /\ err_phase e1 = err_phase e2.
Proof.
  unfold patternKey. intros H.
  apply (f_equal list_ascii_of_string) in H.
  rewrite (list_ascii_of_string_app (error_code e1)),
    (list_ascii_of_string_app (error_code e2)) in H.
  assert (err_phase e1 = err_phase e2) as Hp.
  { destruct (suffix_weak_total
                (list_ascii_of_string ("_" +:+ phase_name (err_phase e1)))
                (list_ascii_of_string ("_" +:+ phase_name (err_phase e2)))
                (list_ascii_of_string (error_code e1)
                 ++ list_ascii_of_string
                      ("_" +:+ phase_name (err_phase e1))))
      as [Hs | Hs].
    - by eexists.
    - rewrite H. by eexists.
    - by apply phase_name_suffix.
    - symmetry. by apply phase_name_suffix. }
  split; [| done]. rewrite Hp in H.
  apply app_inj_2 in H as [H _]; [| done].
  by apply list_ascii_of_string_inj.
Qed.

(** X14. [recordError] counts the fault in the pattern of its code and
    phase and in no other: the pattern's frequency goes up by one (from 0 for
    a new pattern), its last occurrence becomes the time of the fault, and
    its severity stays that of the first fault counted. The key of a pattern
    tells the code and the phase apart: two faults have the same key exactly
    when they have the same code and the same phase. *)
Theorem recordError_counts_one_pattern o error jobId mon :
  let mon' := recordError o error jobId mon in
  (exists p,
     errorPatterns mon' !! patternKey error = Some p
     /\ frequency p
        = S (from_option frequency 0%nat
               (errorPatterns mon !! patternKey error))
     /\ lastOccurrence p = err_timestamp error
     /\ pattern_severity p
        = from_option pattern_severity (err_severity error)
            (errorPatterns mon !! patternKey error))
  /\ (forall key,
        key <> patternKey error ->
        errorPatterns mon' !! key = errorPatterns mon !! key)
  /\ (forall other,
        patternKey other = patternKey error
        <-> error_code other = error_code error
            /\ err_phase other = err_phase error).
Proof.
  cbn zeta.
  assert (errorPatterns (recordError o error jobId mon)
          = errorPatterns
              (updateErrorPatterns o error
                 {| monitor_errors :=
                      <[err_id error := error]> (monitor_errors mon);
                    errorPatterns := errorPatterns mon;
                    alerts := alerts mon;
                    monitor_events := monitor_events mon |})) as ->.
  { unfold recordError. cbn [errorPatterns]. unfold checkForAlerts.
    cbn zeta. destruct (_ <=? _)%nat; by case_bool_decide. }
  unfold updateErrorPatterns. cbn zeta. cbn [errorPatterns].
  split; [| split].
  - destruct (errorPatterns mon !! patternKey error) as [p |];
      cbn [from_option]; destruct (_ && _);
      cbn [createAlert errorPatterns set_pattern];
      rewrite lookup_insert_eq; eexists; (split; [done |]); by cbn.
  - intros key Hne.
    destruct (_ && _); cbn [createAlert errorPatterns set_pattern];
      by rewrite lookup_insert_ne by congruence.
  - intros other. split; [apply patternKey_inj |].
    intros [Hc Hp]. unfold patternKey. by rewrite Hc, Hp.
Qed.

End monitoring_facts.

(** * Further properties of the orchestrator *)

Lemma length_filter_Permutation {A : Type} (f : A -> bool) l l' :
  l ≡ₚ l' -> List.length (List.filter f l) = List.length (List.filter f l').
Proof.
  induction 1 as [| x l l' _ IH | x y l | l l' l'' _ IH1 _ IH2];
    cbn [List.filter]; [done | | | congruence].
  - destruct (f x); cbn [List.length]; by rewrite IH.
  - by destruct (f x), (f y).
Qed.

Lemma activeMigrations_insert activeJobs jobId j org :
  activeJobs !! jobId = None ->
  List.length (activeMigrations (<[jobId := j]> activeJobs) org)
  = ((if bool_decide (status j = running)
         && String.eqb (organization_id j) org
      then 1 else 0)
     + List.length (activeMigrations activeJobs org))%nat.
Proof.
  intros Hnone. unfold activeMigrations.
  pose proof (map_to_list_insert activeJobs jobId j Hnone) as Hp.
  apply (fmap_Permutation snd) in Hp.
  rewrite (length_filter_Permutation _ _ _ Hp).
  cbn [fmap list_fmap snd List.filter]. by destruct (_ && _).
Qed.

(** X15. [startMigration] accepts a submission exactly when the
    configuration is valid, the target project name and the organization id
    are well formed, and fewer than 5 jobs of the organization are running.
    It then returns the generated id and hands the new job, pending, to
    [executeMigration], whose first statements run before the call returns:
    the job registered under the id is the one [begin_migration] leaves,
    running and started at the time of the call, at 0 per cent, with its ten
    phases pending and an empty error log. Every other registered job is
    left as it is, and under a new id the accepted job counts at once
    against the limit of its organization. *)
Theorem startMigration_accepts_exactly activeJobs options userId jobId now :
  let r := startMigration activeJobs options userId jobId now in
  ((exists id, start_result r = inr id)
   <-> valid (InputValidator.validateMigrationConfig
                (opt_configuration options)) = true
       /\ InputValidator.isValidProjectName (targetProjectName options) = true
       /\ InputValidator.isValidOrganizationId (organizationId options) = true
       /\ (List.length (activeMigrations activeJobs (organizationId options))
           < 5)%nat)
  /\ (forall id,
        start_result r = inr id ->
        id = jobId
        /\ start_background r = Some (new_job options jobId now)
        /\ (exists j,
              getMigrationStatus (start_activeJobs r) jobId = Some j
              /\ (forall env eng mon,
                    j = job (begin_migration env
                               (task_of (new_job options jobId now) eng mon
                                  now)).2)
              /\ job_id j = jobId
              /\ status j = running
              /\ started_at j = Some now
              /\ organization_id j = organizationId options
              /\ configuration j = opt_configuration options
              /\ overall_percentage (progress j) = 0%Q
              /\ List.map pe_name (phases (progress j)) = all_phases
              /\ Forall (fun e => pe_status e = phase_pending)
                   (phases (progress j))
              /\ error_log j = [])
        /\ (forall other,
              other <> jobId ->
              getMigrationStatus (start_activeJobs r) other
              = getMigrationStatus activeJobs other)
        /\ (activeJobs !! jobId = None ->
            List.length (activeMigrations (start_activeJobs r)
                           (organizationId options))
            = S (List.length (activeMigrations activeJobs
                                (organizationId options))))).
Proof.
  cbn zeta.
  pose proof (activeMigrations_insert activeJobs jobId
                (set_started_at now
                   (set_status running (new_job options jobId now)))
                (organizationId options)) as Hcount.
  unfold startMigration, reject, getMigrationStatus.
  destruct (valid _); cbn [negb];
    [| split; [split; [by intros [id H] | by intros [H _]] | done]].
  destruct (InputValidator.isValidProjectName _); cbn [negb];
    [| split; [split; [by intros [id H] | by intros (_ & H & _)] | done]].
  destruct (InputValidator.isValidOrganizationId _); cbn [negb];
    [| split; [split; [by intros [id H] | by intros (_ & _ & H & _)] | done]].
  unfold config.maxConcurrentMigrations.
  destruct (Nat.leb_spec 5
              (List.length (activeMigrations activeJobs
                              (organizationId options)))) as [Hle | Hlt].
  - split; [split; [by intros [id H] | intros (_ & _ & _ & H); lia] | done].
  - cbn [start_result start_activeJobs start_background]. split.
    + split; [done |]. intros _. by exists jobId.
    + intros id [= <-]. split; [done |]. split; [done |]. split; [| split].
      * exists (set_started_at now
                  (set_status running (new_job options jobId now))).
        rewrite lookup_insert_eq.
        repeat split; try done. cbn. repeat constructor.
      * intros other Hne. by rewrite lookup_insert_ne by congruence.
      * intros Hnone. rewrite (Hcount Hnone).
        cbn [set_started_at set_status new_job status organization_id].
        rewrite bool_decide_eq_true_2 by done.
        by rewrite String.eqb_refl.
Qed.

(** With no job registered, five submissions of one organization are
    accepted one after the other, each counting against the limit at once,
    and the sixth is refused. *)
Lemma sixth_start_in_a_row_is_refused :
  let submit registry n :=
    startMigration registry (sample_options 4) "user_1"
      ("migration_" +:+ pretty n) 0 in
  let five :=
    fold_left (fun registry n => start_activeJobs (submit registry n))
      (seq 1 5) ∅ in
  List.length (activeMigrations five (organizationId (sample_options 4)))
  = 5%nat
  /\ start_result (submit five 6%nat)
     = inl "Maximum concurrent migrations (5) reached for organization".
Proof. cbv zeta. split; vm_compute; reflexivity. Qed.

(** ** Classification of thrown values *)

Lemma toLowerCase_app a b :
  toLowerCase (a +:+ b) = toLowerCase a +:+ toLowerCase b.
Proof.
  induction a as [| c a IH]; [done |].
  rewrite append_cons. cbn [toLowerCase]. by rewrite append_cons, IH.
Qed.

Lemma includes_toLowerCase m keyword :
  toLowerCase keyword = keyword ->
  includes m keyword = true -> includes (toLowerCase m) keyword = true.
Proof.
  intros Hk. rewrite !includes_spec. intros (pre & post & ->).
  exists (toLowerCase pre), (toLowerCase post).
  by rewrite !toLowerCase_app, Hk.
Qed.

(** X16. The classifier of the orchestrator never grades a fault low: it
    grades critical exactly the [Error]s whose message holds CRITICAL or
    FATAL, medium only [Error]s whose message holds PERMISSION or AUTH, and
    everything else high. A fault it codes CONNECTION_TIMEOUT or
    NETWORK_ERROR is always marked auto-recoverable, and a thrown value that
    is no [Error] is coded UNKNOWN_ERROR, graded high and not
    auto-recoverable. *)
Theorem classification_of_thrown_values error :
  determineSeverity error <> low
  /\ (determineSeverity error = critical
      <-> exists m, error = ErrorObj m
                    /\ (includes m "CRITICAL" = true
                        \/ includes m "FATAL" = true))
  /\ (determineSeverity error = medium ->
      exists m, error = ErrorObj m
                /\ (includes m "PERMISSION" = true
                    \/ includes m "AUTH" = true))
  /\ (determineErrorCode error = "CONNECTION_TIMEOUT"
      \/ determineErrorCode error = "NETWORK_ERROR" ->
      isAutoRecoverable error = true)
  /\ (forall text,
        error = OtherValue text ->
        determineErrorCode error = "UNKNOWN_ERROR"
        /\ determineSeverity error = high
        /\ isAutoRecoverable error = false).
Proof.
  split; [| split; [| split; [| split]]].
  - destruct error as [m | text]; cbn [determineSeverity]; [| done].
    by repeat case_match.
  - destruct error as [m | text]; cbn [determineSeverity].
    + destruct (includes m "CRITICAL") eqn:H1.
      { cbn. split; [| done]. intros _. exists m. by auto. }
      destruct (includes m "FATAL") eqn:H2.
      { cbn. split; [| done]. intros _. exists m. by auto. }
      cbn [orb]. split.
      * by repeat case_match.
      * intros (m' & [= <-] & [H | H]); congruence.
    + split; [done |]. by intros (m & H & _).
  - destruct error as [m | text]; cbn [determineSeverity]; [| done].
    destruct (_ || _); [done |]. destruct (_ || _); [done |].
    destruct (includes m "PERMISSION") eqn:H1;
      [intros _; exists m; by auto |].
    destruct (includes m "AUTH") eqn:H2; [intros _; exists m; by auto |].
    done.
  - destruct error as [m | text];
      cbn [determineErrorCode isAutoRecoverable existsb];
      [| by intros [H | H]].
    destruct (includes m "timeout") eqn:H1.
    { intros _. by rewrite (includes_toLowerCase m "timeout"). }
    destruct (includes m "permission"); [by intros [H | H] |].
    destruct (includes m "conflict"); [by intros [H | H] |].
    destruct (includes m "not found"); [by intros [H | H] |].
    destruct (includes m "network") eqn:H5; [| by intros [H | H]].
    intros _. rewrite (includes_toLowerCase m "network") by done.
    by rewrite !orb_true_r.
  - by intros text ->.
Qed.

(** ** waitForProjectReady *)

Lemma timers_app tr tr' : timers (tr ++ tr') = timers tr ++ timers tr'.
Proof. unfold timers. apply omap_app. Qed.

Lemma timers_client_cancel t :
  timers (trace (client_cancel t)) = timers (trace t).
Proof.
  unfold client_cancel. destruct (registered t); [| done].
  unfold cancelJob. destruct (_ || _); [done |]. cbn [trace].
  rewrite timers_app. cbn. by rewrite app_nil_r.
Qed.

Lemma tick_client_cancel t : tick (client_cancel t) = tick t.
Proof.
  unfold client_cancel. destruct (registered t); [| done].
  by destruct (cancelJob (job t)) as [msg | [j' evs]].
Qed.

Lemma suspend_run w env t :
  exists t',
    suspend w env t = (Returned tt, t')
    /\ tick t' = S (tick t)
    /\ timers (trace t')
       = timers (trace t)
         ++ match w with timer ms => [ms] | collaborator _ => [] end.
Proof.
  unfold suspend. eexists. split; [reflexivity |].
  cbn [resume trace tick].
  destruct (env_cancel env (tick t)).
  - rewrite tick_client_cancel, timers_client_cancel.
    cbn [emit_task trace tick]. rewrite timers_app.
    split; [done |]. by destruct w.
  - cbn [emit_task trace tick]. rewrite timers_app.
    split; [done |]. by destruct w.
Qed.

Lemma waitForProjectReady_loop_run n : forall env t k,
  (forall i, (i < k)%nat ->
     project_ready (env_getProject env (tick t + 2 * i)%nat) = false) ->
  ((k < n)%nat ->
   project_ready (env_getProject env (tick t + 2 * k)%nat) = true ->
   exists t',
     waitForProjectReady_loop n env t = (Returned tt, t')
     /\ tick t' = (tick t + 2 * k + 1)%nat
     /\ timers (trace t') = timers (trace t) ++ replicate k 10000)
  /\ (k = n ->
      exists t',
        waitForProjectReady_loop n env t
        = (Threw (ErrorObj
                    "Target project failed to become ready within timeout period"),
           t')
        /\ tick t' = (tick t + 2 * n)%nat
        /\ timers (trace t') = timers (trace t) ++ replicate n 10000).
Proof.
  induction n as [| n IH]; intros env t k Hnot.
  - split; [lia |]. intros ->. exists t. cbn.
    split; [done |]. split; [lia | by rewrite app_nil_r].
  - cbn [waitForProjectReady_loop].
    unfold await, ask, mbind, M_bind, mret, M_ret.
    destruct (suspend_run (collaborator "getProject") env t)
      as (t1 & -> & Htick1 & Htimers1).
    rewrite app_nil_r in Htimers1.
    fold (project_ready (env_getProject env (tick t))).
    destruct (project_ready (env_getProject env (tick t))) eqn:Hready.
    + (* ready at once *)
      destruct k as [| k].
      * split; [| lia]. intros _ _. exists t1.
        split; [done |]. split; [lia |]. cbn. by rewrite app_nil_r.
      * specialize (Hnot 0%nat ltac:(lia)).
        rewrite Nat.mul_0_r, Nat.add_0_r in Hnot. congruence.
    + unfold sleep.
      destruct (suspend_run (timer 10000) env t1)
        as (t2 & -> & Htick2 & Htimers2).
      destruct k as [| k].
      * split; [| lia]. intros _ H.
        rewrite Nat.mul_0_r, Nat.add_0_r in H. congruence.
      * assert (forall i, (i < k)%nat ->
                  project_ready
                    (env_getProject env (tick t2 + 2 * i)%nat) = false)
          as Hnot'.
        { intros i Hi. specialize (Hnot (S i) ltac:(lia)).
          by replace (tick t2 + 2 * i)%nat with (tick t + 2 * S i)%nat by lia. }
        destruct (IH env t2 k Hnot') as [IH1 IH2]. split.
        -- intros Hk H.
           replace (tick t + 2 * S k)%nat with (tick t2 + 2 * k)%nat in H
             by lia.
           destruct (IH1 ltac:(lia) H) as (t' & -> & Ht' & Htm).
           exists t'. split; [done |]. split; [lia |].
           rewrite Htm, Htimers2, Htimers1. cbn [replicate].
           by rewrite <- app_assoc.
        -- intros [= ->]. destruct (IH2 eq_refl) as (t' & -> & Ht' & Htm).
           exists t'. split; [done |]. split; [lia |].
           rewrite Htm, Htimers2, Htimers1. cbn [replicate].
           by rewrite <- app_assoc.
Qed.

(** X17. [waitForProjectReady] polls [getProject] until the project is
    reported ACTIVE_HEALTHY, waiting 10 s after each poll that fails: if the
    poll number [k] (from 0, below 30) is the first to succeed it returns
    after [k] waits, and if none of 30 polls succeeds it throws, after 30
    waits, the error that the classifier codes CONNECTION_TIMEOUT. *)
Theorem waitForProjectReady_polls_thirty_times projectRef env t k :
  (forall i, (i < k)%nat ->
     project_ready (env_getProject env (tick t + 2 * i)%nat) = false) ->
  ((k < 30)%nat ->
   project_ready (env_getProject env (tick t + 2 * k)%nat) = true ->
   exists t',
     waitForProjectReady projectRef env t = (Returned tt, t')
     /\ timers (trace t') = timers (trace t) ++ replicate k 10000)
  /\ (k = 30%nat ->
      exists error t',
        waitForProjectReady projectRef env t = (Threw error, t')
        /\ timers (trace t') = timers (trace t) ++ replicate 30 10000
        /\ determineErrorCode error = "CONNECTION_TIMEOUT").
Proof.
  intros Hnot. unfold waitForProjectReady.
  destruct (waitForProjectReady_loop_run 30 env t k Hnot) as [H1 H2]. split.
  - intros Hk Hr. destruct (H1 Hk Hr) as (t' & -> & _ & Htm). by exists t'.
  - intros Hk. destruct (H2 Hk) as (t' & -> & _ & Htm).
    eexists _, t'. by repeat split.
Qed.

Lemma waitForProjectReady_polls_thirty_times_witness :
  exists error t',
    waitForProjectReady "qrstuvwxyzabcdef" (world never healthy coming_up)
      first_task
    = (Threw error, t')
    /\ timers (trace t') = timers (trace first_task) ++ replicate 30 10000
    /\ determineErrorCode error = "CONNECTION_TIMEOUT".
Proof.
  apply (waitForProjectReady_polls_thirty_times "qrstuvwxyzabcdef"
           (world never healthy coming_up) first_task 30);
    [intros i _; reflexivity | reflexivity].
Defined.

(** * The course of a run *)

Lemma same_core_refl t : same_core t t.
Proof. by repeat split. Qed.

Lemma same_core_trans t1 t2 t3 :
  same_core t1 t2 -> same_core t2 t3 -> same_core t1 t3.
Proof.
  intros [(A1 & A2 & A3 & A4 & A5) [A7 A8]]
         [(B1 & B2 & B3 & B4 & B5) [B7 B8]].
  repeat split; congruence.
Qed.

Lemma starts_app tr tr' : starts (tr ++ tr') = starts tr ++ starts tr'.
Proof. unfold starts. apply omap_app. Qed.

Section keeps_rules.
Context {A B : Type}.

Lemma keeps_ret (a : A) : keeps (mret a).
Proof. intros env t. apply same_core_refl. Qed.

Lemma keeps_throw (e : Thrown) : keeps (throw (A := A) e).
Proof. intros env t. apply same_core_refl. Qed.

Lemma keeps_bind (m : M A) (f : A -> M B) :
  keeps m -> (forall a, keeps (f a)) -> keeps (m ≫= f).
Proof.
  intros Hm Hf env t. unfold mbind, M_bind. specialize (Hm env t).
  destruct (m env t) as [[a | e] t1]; [| done].
  eapply same_core_trans; [exact Hm | apply Hf].
Qed.

Lemma keeps_try_catch (body : M A) (handler : Thrown -> M A) :
  keeps body -> (forall e, keeps (handler e)) ->
  keeps (try_catch body handler).
Proof.
  intros Hb Hh env t. unfold try_catch. specialize (Hb env t).
  destruct (body env t) as [[a | e] t1]; [done |].
  eapply same_core_trans; [exact Hb | apply Hh].
Qed.

Lemma keeps_ask (f : Env -> nat -> A) : keeps (ask f).
Proof. intros env t. apply same_core_refl. Qed.

End keeps_rules.

Lemma keeps_modify (f : Task -> Task) :
  (forall t, same_core t (f t)) -> keeps (modify f).
Proof. intros H env t. apply H. Qed.

Lemma keeps_get_task : keeps get_task.
Proof. intros env t. apply same_core_refl. Qed.

Lemma keeps_get_job : keeps get_job.
Proof. intros env t. apply same_core_refl. Qed.

Lemma same_core_emit ev t : quiet ev -> same_core t (emit_task ev t).
Proof.
  intros Hq. split; [by repeat split | split; [done |]].
  cbn [emit_task trace]. rewrite starts_app.
  destruct ev; try done; exact (app_nil_r _).
Qed.

Lemma keeps_emit ev : quiet ev -> keeps (emit ev).
Proof. intros Hq env t. by apply same_core_emit. Qed.

Lemma same_core_client_cancel t : same_core t (client_cancel t).
Proof.
  unfold client_cancel.
  destruct (registered t) eqn:Hr; [| apply same_core_refl].
  unfold cancelJob. destruct (_ || _); [apply same_core_refl |].
  split; [repeat split; try done; by rewrite Hr | split; [done |]].
  cbn [trace]. rewrite starts_app. exact (app_nil_r _).
Qed.

Lemma keeps_suspend w : keeps (suspend w).
Proof.
  intros env t. unfold suspend. cbn [snd].
  assert (forall now t0, same_core t0 (resume now t0)) as Hres
    by (by repeat split).
  eapply same_core_trans; [| apply Hres].
  destruct (env_cancel env (tick t)).
  - eapply same_core_trans; [by apply (same_core_emit (suspended w)) |].
    apply same_core_client_cancel.
  - by apply same_core_emit.
Qed.

Lemma keeps_sleep ms : keeps (sleep ms).
Proof. apply keeps_suspend. Qed.

Lemma keeps_sleeps l : keeps (sleeps l).
Proof.
  induction l as [| ms l IH]; cbn [sleeps]; [apply keeps_ret |].
  apply keeps_bind; [apply keeps_sleep | by intros _].
Qed.

Lemma keeps_await {A : Type} operation (f : Env -> nat -> A) :
  keeps (await operation f).
Proof.
  unfold await. apply keeps_bind; [apply keeps_ask | intros r].
  apply keeps_bind; [apply keeps_suspend | intros _; apply keeps_ret].
Qed.

Lemma keeps_draw {A : Type} (f : Env -> nat -> A) : keeps (draw f).
Proof.
  unfold draw. apply keeps_bind; [apply keeps_ask | intros r].
  apply keeps_bind; [| intros _; apply keeps_ret].
  apply keeps_modify. by repeat split.
Qed.

Lemma keeps_updateProgress u : keeps (updateProgress u).
Proof.
  apply keeps_modify. intros t. unfold updateProgress_task.
  eapply same_core_trans; [| by apply same_core_emit].
  by repeat split.
Qed.

Lemma mark_phase_names phase s now l :
  List.map pe_name (mark_phase phase s now l) = List.map pe_name l.
Proof.
  induction l as [| e l IH]; [done |]. cbn [mark_phase].
  case_bool_decide; cbn [List.map]; [done | by rewrite IH].
Qed.

Lemma keeps_updatePhaseStatus phase s : keeps (updatePhaseStatus phase s).
Proof.
  apply keeps_modify. intros t.
  split; [| by split]. repeat split. cbn. apply mark_phase_names.
Qed.

Lemma keeps_current_stats : keeps current_stats.
Proof.
  unfold current_stats. apply keeps_bind; [apply keeps_get_job | intros j].
  apply keeps_ret.
Qed.

Lemma keeps_for_each {A : Type} (body : A -> M unit) l :
  (forall x, keeps (body x)) -> keeps (for_each body l).
Proof.
  intros Hb. induction l as [| x l IH]; cbn [for_each]; [apply keeps_ret |].
  apply keeps_bind; [apply Hb | by intros _].
Qed.

Create HintDb keeps.
#[local] Hint Resolve keeps_ret keeps_throw keeps_ask keeps_get_task
  keeps_get_job keeps_suspend keeps_sleep keeps_sleeps keeps_await keeps_draw
  keeps_updateProgress keeps_updatePhaseStatus keeps_current_stats : keeps.

(** Splits a computation along its binds and its case distinctions. *)
Ltac keeps_steps :=
  repeat first
    [ apply keeps_bind; [| intros ?]
    | apply keeps_for_each; intros ?
    | solve [auto with keeps]
    | apply keeps_emit; exact I
    | match goal with
      | |- keeps (if ?c then _ else _) => destruct c
      | |- keeps (match ?x with _ => _ end) => destruct x
      end ].

Lemma keeps_waitForProjectReady_loop left :
  keeps (waitForProjectReady_loop left).
Proof.
  induction left as [| left IH]; cbn [waitForProjectReady_loop];
    keeps_steps.
Qed.

Lemma keeps_prepareTargetProject options :
  keeps (prepareTargetProject options).
Proof.
  pose proof keeps_waitForProjectReady_loop.
  unfold prepareTargetProject, waitForProjectReady. keeps_steps.
Qed.

Lemma keeps_migrateSchema options : keeps (migrateSchema options).
Proof. unfold migrateSchema. keeps_steps. Qed.

Lemma keeps_migrateData options : keeps (migrateData options).
Proof. unfold migrateData, migrateData_step. keeps_steps. Qed.

Lemma keeps_migrateStorage options : keeps (migrateStorage options).
Proof. unfold migrateStorage, migrateStorage_step. keeps_steps. Qed.

Lemma keeps_migrateConfiguration options :
  keeps (migrateConfiguration options).
Proof. unfold migrateConfiguration. keeps_steps. Qed.

Lemma keeps_migrateEdgeFunctions options :
  keeps (migrateEdgeFunctions options).
Proof. unfold migrateEdgeFunctions, migrateEdgeFunctions_step. keeps_steps. Qed.

Lemma keeps_migrateSecurity options : keeps (migrateSecurity options).
Proof. unfold migrateSecurity. keeps_steps. Qed.

Lemma keeps_setupRealtime options : keeps (setupRealtime options).
Proof. unfold setupRealtime. keeps_steps. Qed.

Lemma keeps_validateMigration options : keeps (validateMigration options).
Proof. unfold validateMigration, performValidationChecks. keeps_steps. Qed.

Lemma keeps_performCutover options : keeps (performCutover options).
Proof. unfold performCutover. keeps_steps. Qed.

(** ** The catch block *)

Lemma keeps_createMigrationError error phase :
  keeps (createMigrationError error phase).
Proof. unfold createMigrationError. keeps_steps. Qed.

Lemma keeps_recordError e : keeps (recordError e).
Proof.
  unfold recordError. keeps_steps.
Qed.

Lemma keeps_handleMigrationError phase error :
  keeps (handleMigrationError phase error).
Proof.
  pose proof keeps_createMigrationError. pose proof keeps_recordError.
  unfold handleMigrationError. keeps_steps.
Qed.

Lemma keeps_handleError e phase : keeps (handleError e phase).
Proof.
  unfold handleError. keeps_steps.
Qed.

Lemma keeps_rollbackToPhase target : keeps (rollbackToPhase target).
Proof.
  unfold rollbackToPhase. keeps_steps.
Qed.

Lemma keeps_phase_recover phase retryCount error migrationError :
  keeps (phase_recover phase retryCount error migrationError).
Proof.
  pose proof keeps_handleError. pose proof keeps_rollbackToPhase.
  pose proof keeps_handleMigrationError.
  unfold phase_recover. keeps_steps.
Qed.

Lemma phase_catch_unfolds phase retryCount error env t :
  exists migrationError t1,
    phase_catch phase retryCount error env t
    = phase_recover phase retryCount error migrationError env t1
    /\ err_phase migrationError = phase
    /\ same_frame t t1
    /\ starts (trace t1) = starts (trace t)
    /\ error_log (job t1) = error_log (job t) ++ [migrationError].
Proof.
  eexists _, _. split; [reflexivity |]. by repeat split.
Qed.

Lemma phase_recover_last phase retryCount error migrationError env t :
  (phase_maxRetries <= retryCount)%nat ->
  (phase_recover phase retryCount error migrationError env t).1 = Threw error.
Proof.
  intros H. unfold phase_recover.
  replace (retryCount <? phase_maxRetries)%nat with false
    by (symmetry; by apply Nat.ltb_ge).
  reflexivity.
Qed.

Lemma grows_refl phase t : grows phase 0 0 t t.
Proof.
  split; [by repeat split |]. split; [by rewrite app_nil_r |].
  exists []. by rewrite app_nil_r.
Qed.

Lemma grows_core phase n k t t1 t2 :
  grows phase n k t t1 -> same_core t1 t2 -> grows phase n k t t2.
Proof.
  intros [(A1 & A2 & A3 & A4 & A5) (Hs & errs & He & Hk & Ha)]
         [(B1 & B2 & B3 & B4 & B5) [B7 B8]].
  split; [repeat split; congruence |]. split; [congruence |].
  exists errs. split; [congruence | done].
Qed.

Lemma core_grows phase n k t t1 t2 :
  same_core t t1 -> grows phase n k t1 t2 -> grows phase n k t t2.
Proof.
  intros [(B1 & B2 & B3 & B4 & B5) [B7 B8]]
         [(A1 & A2 & A3 & A4 & A5) (Hs & errs & He & Hk & Ha)].
  split; [repeat split; congruence |]. split; [congruence |].
  exists errs. split; [congruence | done].
Qed.

Lemma grows_trans phase n1 k1 n2 k2 t1 t2 t3 :
  grows phase n1 k1 t1 t2 -> grows phase n2 k2 t2 t3 ->
  grows phase (n1 + n2) (k1 + k2) t1 t3.
Proof.
  intros [(A1 & A2 & A3 & A4 & A5) (Hs & errs & He & Hk & Ha)]
         [(B1 & B2 & B3 & B4 & B5) (Hs' & errs' & He' & Hk' & Ha')].
  split; [repeat split; congruence |]. split.
  - rewrite Hs', Hs, replicate_add. by rewrite app_assoc.
  - exists (errs ++ errs'). split; [| split].
    + rewrite He', He. by rewrite app_assoc.
    + rewrite length_app. lia.
    + by apply Forall_app.
Qed.

Lemma phase_catch_grows phase retryCount error env t :
  grows phase 0 1 t (phase_catch phase retryCount error env t).2
  /\ ((phase_maxRetries <= retryCount)%nat ->
      exists e, (phase_catch phase retryCount error env t).1 = Threw e).
Proof.
  destruct (phase_catch_unfolds phase retryCount error env t)
    as (me & t1 & -> & Hph & Hf & Hs & He).
  split.
  - eapply grows_core;
      [| apply (keeps_phase_recover phase retryCount error me env t1)].
    split; [done |]. split; [by rewrite app_nil_r |].
    exists [me]. split; [done |]. split; [done |]. by repeat constructor.
  - intros H. exists error. by apply phase_recover_last.
Qed.

(** One way round the retry loop of [executePhase]: the phase is started
    once; either the executor returns, or one fault is logged and the catch
    block returns, asks for another round, or throws. *)
Lemma phase_round_grows phase (executor : M unit) retryCount env t :
  keeps executor ->
  let '(out, t') :=
    try_catch
      (updatePhaseStatus phase phase_running;;
       emit (migration_phase_started phase);;
       executor;;
       updatePhaseStatus phase phase_completed;;
       emit (migration_phase_completed phase);;
       mret LoopReturn)
      (phase_catch phase retryCount) env t in
  match out with
  | Returned LoopReturn => grows phase 1 0 t t' \/ grows phase 1 1 t t'
  | Returned LoopContinue =>
      grows phase 1 1 t t' /\ (retryCount < phase_maxRetries)%nat
  | Threw _ => grows phase 1 1 t t'
  end.
Proof.
  intros Hx. unfold try_catch.
  assert (forall env t a t1,
            (updatePhaseStatus phase phase_running;;
             emit (migration_phase_started phase)) env t = (a, t1) ->
            a = Returned tt /\ grows phase 1 0 t t1) as Hstart.
  { intros env0 t0 a t1 [= <- <-]. split; [done |].
    split; [repeat split; cbn; apply mark_phase_names |].
    split; [exact (starts_app (trace t0) _) |].
    exists []. by rewrite app_nil_r. }
  assert (keeps (updatePhaseStatus phase phase_completed;;
                 emit (migration_phase_completed phase);;
                 mret LoopReturn)) as Hend by keeps_steps.
  change (updatePhaseStatus phase phase_running;;
          emit (migration_phase_started phase);;
          executor;;
          updatePhaseStatus phase phase_completed;;
          emit (migration_phase_completed phase);;
          mret LoopReturn)
    with ((updatePhaseStatus phase phase_running;;
           emit (migration_phase_started phase));;
          (executor;;
           (updatePhaseStatus phase phase_completed;;
            emit (migration_phase_completed phase);;
            mret LoopReturn))).
  unfold mbind at 1, M_bind at 1.
  destruct ((updatePhaseStatus phase phase_running;;
             emit (migration_phase_started phase)) env t) as [a t1] eqn:H1.
  apply Hstart in H1 as [-> Hg1].
  unfold mbind at 1, M_bind at 1.
  pose proof (Hx env t1) as Hk1.
  destruct (executor env t1) as [[[] | e] t2].
  - pose proof (Hend env t2) as Hk2.
    destruct ((updatePhaseStatus phase phase_completed;;
               emit (migration_phase_completed phase);;
               mret LoopReturn) env t2) as [out t3] eqn:H3.
    cbn [snd] in *.
    assert (out = Returned LoopReturn) as -> by (by inversion H3).
    left. eapply grows_core; [| exact Hk2].
    eapply grows_core; [exact Hg1 | exact Hk1].
  - cbn [snd] in Hk1.
    destruct (phase_catch_grows phase retryCount e env t2) as [Hg2 Hlast].
    assert (grows phase 1 1 t (phase_catch phase retryCount e env t2).2)
      as Hg.
    { apply (grows_trans phase 1 0 0 1 t t2); [| done].
      eapply grows_core; [exact Hg1 | exact Hk1]. }
    destruct (phase_catch phase retryCount e env t2) as [[[|] | e'] t3];
      cbn [fst snd] in *; try done; [by right |].
    split; [done |].
    destruct (Nat.lt_ge_cases retryCount phase_maxRetries) as [? | Hge];
      [done |].
    by destruct (Hlast Hge) as [e' He'].
Qed.

Lemma phase_attempts_unfolds phase (executor : M unit) left env t :
  phase_attempts phase executor (S left) env t
  = match try_catch
            (updatePhaseStatus phase phase_running;;
             emit (migration_phase_started phase);;
             executor;;
             updatePhaseStatus phase phase_completed;;
             emit (migration_phase_completed phase);;
             mret LoopReturn)
            (phase_catch phase (phase_maxRetries + 1 - S left)) env t with
    | (Returned LoopReturn, t1) => (Returned tt, t1)
    | (Returned LoopContinue, t1) => phase_attempts phase executor left env t1
    | (Threw e, t1) => (Threw e, t1)
    end.
Proof.
  cbn [phase_attempts]. unfold mbind at 1, M_bind at 1.
  by destruct (try_catch _ _ env t) as [[[|] | e] t1].
Qed.

Lemma phase_attempts_grows phase (executor : M unit) :
  keeps executor ->
  forall left env t,
    (left <= phase_maxRetries + 1)%nat ->
    exists n k,
      grows phase n k t (phase_attempts phase executor left env t).2
      /\ (n <= left)%nat
      /\ match (phase_attempts phase executor left env t).1 with
         | Returned _ => left = 0%nat \/ ((1 <= n)%nat /\ (k = n \/ S k = n))
         | Threw _ => (1 <= n)%nat /\ k = n
         end.
Proof.
  intros Hx. induction left as [| left IH]; intros env t Hleft.
  - exists 0%nat, 0%nat. split; [apply grows_refl |]. split; [done |].
    by left.
  - rewrite phase_attempts_unfolds.
    pose proof (phase_round_grows phase executor
                  (phase_maxRetries + 1 - S left) env t Hx) as Hround.
    destruct (try_catch _ _ env t) as [[[|] | e] t1]; cbn [fst snd].
    + exists 1%nat.
      destruct Hround as [Hg | Hg]; [exists 0%nat | exists 1%nat];
        (split; [exact Hg |]); (split; [lia |]); right; split; auto.
    + destruct Hround as [Hg Hretry].
      destruct (IH env t1 ltac:(lia)) as (n & k & Hg' & Hn & Hout).
      exists (1 + n)%nat, (1 + k)%nat.
      split; [by apply (grows_trans phase 1 1 n k t t1) |].
      split; [lia |].
      destruct (phase_attempts phase executor left env t1).1.
      * right. destruct Hout as [-> | [Hn1 Hk]];
          [unfold phase_maxRetries in *; lia |].
        split; lia.
      * lia.
    + exists 1%nat, 1%nat. split; [exact Hround |]. split; lia.
Qed.

Lemma executePhase_unfolds phase (executor : M unit) env t :
  exists t1,
    executePhase phase executor env t
    = phase_attempts phase executor (phase_maxRetries + 1) env t1
    /\ same_core t t1.
Proof. eexists. split; [reflexivity | by repeat split]. Qed.

Lemma executePhase_grows phase (executor : M unit) env t :
  keeps executor ->
  exists n k,
    grows phase n k t (executePhase phase executor env t).2
    /\ (1 <= n <= 4)%nat
    /\ match (executePhase phase executor env t).1 with
       | Returned _ => k = n \/ S k = n
       | Threw _ => k = n
       end.
Proof.
  intros Hx.
  destruct (executePhase_unfolds phase executor env t) as (t1 & -> & Hk1).
  destruct (phase_attempts_grows phase executor Hx (phase_maxRetries + 1)
              env t1 ltac:(lia)) as (n & k & Hg & Hn & Hout).
  exists n, k. split; [by eapply core_grows |].
  unfold phase_maxRetries in *.
  destruct (phase_attempts phase executor (3 + 1) env t1).1.
  - destruct Hout as [? | [? ?]]; [lia |]. split; [lia | done].
  - split; [lia | tauto].
Qed.

(** X18. [executePhase] starts the phase at least once and at most four
    times, the first attempt and three retries, for an executor that itself
    starts no phase and logs no fault. Only faults of this phase are logged,
    one for each attempt that failed: when [executePhase] throws every
    attempt failed, and when it returns every attempt but possibly the last
    did. The frame of the job is left as it was. *)
Theorem executePhase_tries_at_most_four_times phase (executor : M unit)
    env t :
  keeps executor ->
  exists n k,
    grows phase n k t (executePhase phase executor env t).2
    /\ (1 <= n <= 4)%nat
    /\ match (executePhase phase executor env t).1 with
       | Returned _ => k = n \/ S k = n
       | Threw _ => k = n
       end.
Proof.
  intros Hx.
  destruct (executePhase_unfolds phase executor env t) as (t1 & -> & Hk1).
  destruct (phase_attempts_grows phase executor Hx (phase_maxRetries + 1)
              env t1 ltac:(lia)) as (n & k & Hg & Hn & Hout).
  exists n, k. split; [by eapply core_grows |].
  unfold phase_maxRetries in *.
  destruct (phase_attempts phase executor (3 + 1) env t1).1.
  - destruct Hout as [? | [? ?]]; [lia |]. split; [lia | done].
  - split; [lia | tauto].
Qed.

Lemma executePhase_tries_at_most_four_times_witness :
  keeps (migrateSecurity (sample_options 4))
  /\ exists n k,
       grows security_migration n k first_task
         (executePhase security_migration (migrateSecurity (sample_options 4))
            (world never healthy healthy) first_task).2
       /\ (1 <= n <= 4)%nat
       /\ match (executePhase security_migration
                   (migrateSecurity (sample_options 4))
                   (world never healthy healthy) first_task).1 with
          | Returned _ => k = n \/ S k = n
          | Threw _ => k = n
          end.
Proof.
  split; [apply keeps_migrateSecurity |].
  apply (executePhase_tries_at_most_four_times security_migration
           (migrateSecurity (sample_options 4))
           (world never healthy healthy) first_task).
  apply keeps_migrateSecurity.
Defined.

(** ** The course of a whole run *)

Lemma attempts_of_app l1 l2 c1 c2 :
  List.length c1 = List.length l1 ->
  attempts_of (l1 ++ l2) (c1 ++ c2) = attempts_of l1 c1 ++ attempts_of l2 c2.
Proof.
  intros H. unfold attempts_of.
  rewrite zip_with_app by done. apply concat_app.
Qed.

Lemma attempts_of_short l1 l2 c1 :
  (List.length c1 <= List.length l1)%nat ->
  attempts_of (l1 ++ l2) c1 = attempts_of l1 c1.
Proof.
  unfold attempts_of. revert c1.
  induction l1 as [| p l1 IH]; intros [| n c1] H; cbn in *;
    try done; try lia.
  - by destruct l2.
  - f_equal. apply IH. lia.
Qed.

Lemma course_core phases counts t t1 t2 :
  course phases counts t t1 -> same_core t1 t2 -> course phases counts t t2.
Proof.
  intros [(A1 & A2 & A3 & A4 & A5) (Hs & Hl & Hc & errs & He & Hk & Ha)]
         [(B1 & B2 & B3 & B4 & B5) [B7 B8]].
  split; [repeat split; congruence |]. split; [congruence |].
  split; [done |]. split; [done |].
  exists errs. split; [congruence | done].
Qed.

Lemma core_course phases counts t t1 t2 :
  same_core t t1 -> course phases counts t1 t2 -> course phases counts t t2.
Proof.
  intros [(B1 & B2 & B3 & B4 & B5) [B7 B8]]
         [(A1 & A2 & A3 & A4 & A5) (Hs & Hl & Hc & errs & He & Hk & Ha)].
  split; [repeat split; congruence |]. split; [congruence |].
  split; [done |]. split; [done |].
  exists errs. split; [congruence | done].
Qed.

Lemma runs_ret : runs [] (mret tt).
Proof.
  intros env t. exists []. split; [| done].
  split; [by repeat split |]. split; [by rewrite app_nil_r |].
  split; [done |]. split; [done |].
  exists []. by rewrite app_nil_r.
Qed.

Lemma runs_executePhase phase (executor : M unit) :
  keeps executor -> runs [phase] (executePhase phase executor).
Proof.
  intros Hx env t.
  destruct (executePhase_grows phase executor env t Hx)
    as (n & k & (Hf & Hs & errs & He & Hk & Ha) & Hn & Hout).
  exists [n]. split.
  - split; [done |]. split.
    { rewrite Hs. unfold attempts_of. cbn. by rewrite app_nil_r. }
    split; [done |]. split; [by apply Forall_singleton |].
    exists errs. split; [done |]. split.
    + cbn. destruct (executePhase phase executor env t).1; lia.
    + eapply Forall_impl; [exact Ha |]. intros e ->. apply list_elem_of_here.
  - by destruct (executePhase phase executor env t).1.
Qed.

Lemma runs_bind l1 l2 (m1 m2 : M unit) :
  runs l1 m1 -> runs l2 m2 -> runs (l1 ++ l2) (m1;; m2).
Proof.
  intros H1 H2 env t. unfold mbind, M_bind.
  destruct (H1 env t) as (c1 & Hc1 & Hout1).
  destruct (m1 env t) as [[[] | e] t1]; cbn [fst snd] in *.
  - destruct (H2 env t1) as (c2 & Hc2 & Hout2).
    destruct Hc1 as [(A1 & A2 & A3 & A4 & A5)
                       (Hs & Hl & Hc & errs & He & Hk & Ha)].
    destruct Hc2 as [(B1 & B2 & B3 & B4 & B5)
                       (Hs' & Hl' & Hc' & errs' & He' & Hk' & Ha')].
    exists (c1 ++ c2). split.
    + split; [repeat split; congruence |]. split.
      { rewrite Hs', Hs, attempts_of_app by done. by rewrite app_assoc. }
      split; [rewrite !length_app; lia |].
      split; [by apply Forall_app |].
      exists (errs ++ errs'). split; [| split].
      * rewrite He', He. by rewrite app_assoc.
      * rewrite length_app, sum_list_with_app. lia.
      * apply Forall_app. split;
          (eapply Forall_impl; [eassumption |]); intros x Hx;
          apply elem_of_app; auto.
    + destruct (m2 env t1).1; [| done]. rewrite !length_app. lia.
  - destruct Hc1 as [Hf (Hs & Hl & Hc & errs & He & Hk & Ha)].
    exists c1. split; [| done].
    split; [done |]. split; [by rewrite attempts_of_short |].
    split; [rewrite length_app; lia |]. split; [done |].
    exists errs. split; [done |]. split; [done |].
    eapply Forall_impl; [exact Ha |]. intros x Hx.
    apply elem_of_app; auto.
Qed.

Lemma runs_phase_pipeline options :
  runs (planned_phases options) (phase_pipeline options).
Proof.
  unfold planned_phases, phase_pipeline.
  change [preparation; schema_migration]
    with ([preparation] ++ [schema_migration]).
  change [security_migration; realtime_setup; validation; cutover]
    with ([security_migration] ++ [realtime_setup] ++ [validation]
          ++ [cutover]).
  rewrite <- !app_assoc.
  apply runs_bind;
    [apply runs_executePhase, keeps_prepareTargetProject |].
  apply runs_bind; [apply runs_executePhase, keeps_migrateSchema |].
  apply runs_bind.
  { destruct (negb _); [apply runs_executePhase, keeps_migrateData
                       | apply runs_ret]. }
  apply runs_bind.
  { destruct (include_storage _);
      [apply runs_executePhase, keeps_migrateStorage | apply runs_ret]. }
  apply runs_bind;
    [apply runs_executePhase, keeps_migrateConfiguration |].
  apply runs_bind.
  { destruct (include_edge_functions _);
      [apply runs_executePhase, keeps_migrateEdgeFunctions
      | apply runs_ret]. }
  apply runs_bind; [apply runs_executePhase, keeps_migrateSecurity |].
  apply runs_bind; [apply runs_executePhase, keeps_setupRealtime |].
  apply runs_bind; [apply runs_executePhase, keeps_validateMigration |].
  apply runs_executePhase, keeps_performCutover.
Qed.

Lemma keeps_begin_migration : keeps begin_migration.
Proof.
  unfold begin_migration. apply keeps_bind; [| intros _].
  - apply keeps_modify. intros t. by repeat split.
  - by apply keeps_emit.
Qed.

Lemma keeps_complete_migration : keeps complete_migration.
Proof.
  unfold complete_migration. apply keeps_bind; [| intros _].
  { apply keeps_modify. intros t. by repeat split. }
  apply keeps_bind; [apply keeps_updateProgress | intros _].
  apply keeps_bind; [by apply keeps_emit | intros _].
  apply keeps_modify. intros t. by repeat split.
Qed.

Lemma keeps_fail_migration error : keeps (fail_migration error).
Proof.
  unfold fail_migration. apply keeps_bind; [| intros _].
  { apply keeps_modify. intros t. by repeat split. }
  apply keeps_bind; [by apply keeps_emit | intros _].
  apply keeps_throw.
Qed.

Lemma executeMigration_unfolds options env t :
  executeMigration options env t
  = match phase_pipeline options env (begin_migration env t).2 with
    | (Returned _, t1) => complete_migration env t1
    | (Threw e, t1) => fail_migration e env t1
    end.
Proof.
  unfold executeMigration, try_catch.
  change ((begin_migration;; phase_pipeline options;; complete_migration)
            env t)
    with ((phase_pipeline options;; complete_migration) env
            (begin_migration env t).2).
  unfold mbind, M_bind.
  destruct (phase_pipeline options env _) as [[[] | e] t1]; [| reflexivity].
  by destruct (complete_migration env t1) as [[[] | e] t2] eqn:Hc.
Qed.

(** X19. A run of [executeMigration] follows the plan of its options:
    preparation, schema, data unless the clone is schema-only, storage and
    edge functions when they are included, configuration, security,
    realtime, validation and cutover. The phases are started in this order,
    none is passed over and none is started again after a later one; each
    is started at least once and at most four times, and at most one fault
    is logged for each start, always for a phase of the plan. When the run
    returns every phase of the plan was started; when it throws, the phases
    after the one that failed were never started. The run changes neither
    the identifier of the job, nor its organization, its source project, its
    configuration or the names of its phase entries. *)
Theorem executeMigration_follows_the_plan options env t :
  exists counts,
    course (planned_phases options) counts t
      (executeMigration options env t).2
    /\ match (executeMigration options env t).1 with
       | Returned _ =>
           List.length counts = List.length (planned_phases options)
       | Threw _ => True
       end.
Proof.
  rewrite executeMigration_unfolds.
  destruct (runs_phase_pipeline options env (begin_migration env t).2)
    as (counts & Hc & Hout).
  exists counts.
  apply (core_course _ _ t) in Hc; [| apply keeps_begin_migration].
  destruct (phase_pipeline options env _) as [[[] | e] t1];
    cbn [fst snd] in *.
  - split; [| exact Hout].
    eapply course_core; [exact Hc | apply keeps_complete_migration].
  - split; [| exact I].
    eapply course_core; [exact Hc | apply keeps_fail_migration].
Qed.
